(** * Member Data QA Service: paginated fetcher, context builder,
    provider orchestration and keyword fallback of [main.py]

  The development embeds the four functions of [main.py] that carry the
  service's logic and proves their properties:

  - [fetch_all_messages]          (module [Fetch])
  - [format_messages_for_context] (module [Context])
  - [answer_question_with_llm]    (module [Llm])
  - [answer_question_simple]      (module [Simple])

  Python [str] values are modelled by [string]; a character is a code
  point below 256 (Latin-1), which is where [str.lower], [str.split] and
  [str.strip] are given here.  Python [int] values exchanged with the
  outside ([skip], [total], [max_chars]) are [Z]; local counters that only
  count upwards from zero are [nat]. *)

From Stdlib Require Import ZArith List String Ascii Bool Arith Lia.
From Stdlib Require Import DecimalString.
From Stdlib Require Import Sorting.Permutation Sorting.Sorted.
Import ListNotations.

Open Scope string_scope.
Open Scope nat_scope.

(** ** Python string operations *)

Module Str.

Definition code (c : ascii) : nat := nat_of_ascii c.

(** [str.isspace] on one character with code point below 256. *)
Definition isspace (c : ascii) : bool :=
  let n := code c in
  ((9 <=? n) && (n <=? 13)) || ((28 <=? n) && (n <=? 32))
  || (n =? 133) || (n =? 160).

(** [str.lower] on one character: A-Z, and the upper-case letters of the
    Latin-1 supplement (U+00C0..U+00DE except the multiplication sign). *)
Definition lower_char (c : ascii) : ascii :=
  let n := code c in
  if ((65 <=? n) && (n <=? 90))
     || ((192 <=? n) && (n <=? 222) && negb (n =? 215))
  then ascii_of_nat (n + 32) else c.

Fixpoint lower (s : string) : string :=
  match s with
  | EmptyString => EmptyString
  | String c s' => String (lower_char c) (lower s')
  end.

(** [needle in hay]: substring test. *)
Fixpoint contains (needle hay : string) : bool :=
  prefix needle hay
  || match hay with
     | EmptyString => false
     | String _ hay' => contains needle hay'
     end.

(** [s.split()]: maximal runs of non-whitespace characters.  [cur] is the
    token being read. *)
Fixpoint split_from (cur : string) (s : string) : list string :=
  match s with
  | EmptyString => if (cur =? "")%string then [] else [cur]
  | String c s' =>
      if isspace c
      then (if (cur =? "")%string then split_from "" s'
            else cur :: split_from "" s')
      else split_from (cur ++ String c "") s'
  end.

Definition split (s : string) : list string := split_from "" s.

Fixpoint lstrip (s : string) : string :=
  match s with
  | String c s' => if isspace c then lstrip s' else s
  | EmptyString => EmptyString
  end.

Fixpoint rstrip (s : string) : string :=
  match s with
  | EmptyString => EmptyString
  | String c s' =>
      match rstrip s' with
      | EmptyString => if isspace c then EmptyString else String c EmptyString
      | r => String c r
      end
  end.

(** [s.strip()]. *)
Definition strip (s : string) : string := rstrip (lstrip s).

(** [sep.join(parts)]. *)
Definition join (sep : string) (parts : list string) : string :=
  concat sep parts.

(** The line feed of the f-strings. *)
Definition nl : string := String (ascii_of_nat 10) EmptyString.

(** Truth value of a [str]: non-empty. *)
Definition nonempty (s : string) : bool := negb (s =? "")%string.

Lemma length_app (s t : string) : length (s ++ t) = length s + length t.
Proof. induction s as [|c s IH]; simpl; [reflexivity | now rewrite IH]. Qed.

Lemma app_nil_r (s : string) : s ++ "" = s.
Proof. induction s as [|c s IH]; simpl; [reflexivity | now rewrite IH]. Qed.

Lemma app_assoc (s t u : string) : (s ++ t) ++ u = s ++ (t ++ u).
Proof. induction s as [|c s IH]; simpl; [reflexivity | now rewrite IH]. Qed.

Lemma join_empty_fold (parts : list string) :
  join "" parts = fold_right append "" parts.
Proof.
  unfold join.
  induction parts as [|p [|q rest] IH]; simpl in *.
  - reflexivity.
  - now rewrite app_nil_r.
  - now rewrite IH.
Qed.

Lemma join_empty_app (l1 l2 : list string) :
  join "" (l1 ++ l2)%list = join "" l1 ++ join "" l2.
Proof.
  rewrite !join_empty_fold.
  induction l1 as [|p l1 IH]; simpl; [reflexivity|].
  now rewrite IH, app_assoc.
Qed.

Lemma join_empty_cons (p : string) (l : list string) :
  join "" (p :: l) = p ++ join "" l.
Proof. now rewrite !join_empty_fold. Qed.

Lemma join_empty_nil : join "" [] = "".
Proof. reflexivity. Qed.

Arguments join : simpl never.

Lemma prefix_app (n s : string) : prefix n (n ++ s) = true.
Proof.
  induction n as [|c n IH]; simpl.
  - now destruct s.
  - destruct (ascii_dec c c) as [_|ne]; [exact IH | now elim ne].
Qed.

Lemma prefix_split (n s : string) :
  prefix n s = true -> exists t, s = n ++ t.
Proof.
  revert s; induction n as [|c n IH]; intros s H.
  - now exists s.
  - destruct s as [|d s]; simpl in H; [discriminate|].
    destruct (ascii_dec c d) as [->|]; [|discriminate].
    destruct (IH _ H) as [t ->]. now exists t.
Qed.

Lemma contains_nil (n : string) : contains n "" = prefix n "" || false.
Proof. reflexivity. Qed.

Lemma contains_cons (n : string) (c : ascii) (s : string) :
  contains n (String c s) = prefix n (String c s) || contains n s.
Proof. reflexivity. Qed.

(** [contains] decides the existence of an occurrence. *)
Lemma contains_spec (n s : string) :
  contains n s = true <-> exists a b, s = a ++ n ++ b.
Proof.
  split.
  - induction s as [|c s IH]; intro H.
    + rewrite contains_nil, orb_false_r in H.
      apply prefix_split in H as [t Ht]. now exists "", t.
    + rewrite contains_cons in H. apply orb_true_iff in H as [H|H].
      * apply prefix_split in H as [t Ht]. exists "", t. exact Ht.
      * destruct (IH H) as (a & b & ->). now exists (String c a), b.
  - intros (a & b & ->). induction a as [|c a IH].
    + change ("" ++ n ++ b) with (n ++ b).
      destruct (n ++ b) as [|d r] eqn:E.
      * rewrite contains_nil, <- E, prefix_app. reflexivity.
      * rewrite contains_cons, <- E, prefix_app. reflexivity.
    + change (String c a ++ n ++ b) with (String c (a ++ n ++ b)).
      rewrite contains_cons, IH. apply orb_true_r.
Qed.

End Str.

Arguments Str.join : simpl never.

(** ** The data model *)

(** [class Message(BaseModel)]. *)
Record Message := mkMessage {
id : string;
user_id : string;
user_name : string;
timestamp : string;
message : string
}.

(** ** Context builder *)

Module Context.

(** The f-string of the loop body:
    [User: {user_name} (ID: {user_id}, Time: {timestamp}): {message}\n]. *)
Definition formatted (msg : Message) : string :=
  "User: " ++ user_name msg ++ " (ID: " ++ user_id msg ++ ", Time: "
  ++ timestamp msg ++ "): " ++ message msg ++ Str.nl.

Arguments formatted : simpl never.

Local Open Scope list_scope.

(** The [for] loop with its [break]; [context_parts] and [char_count] are
    the loop's variables. *)
Fixpoint format_loop (max_chars : Z) (context_parts : list string)
         (char_count : nat) (messages : list Message) : list string :=
  match messages with
  | [] => context_parts
  | msg :: rest =>
      let line := formatted msg in
      if (max_chars <? Z.of_nat (char_count + length line))%Z
      then context_parts
      else format_loop max_chars (context_parts ++ [line])
                       (char_count + length line) rest
  end.

Definition format_messages_for_context
           (messages : list Message) (max_chars : Z) : string :=
  Str.join "" (format_loop max_chars [] 0 messages).

(** Number of messages the loop takes before it breaks or runs out. *)
Fixpoint taken (max_chars : Z) (char_count : nat)
         (messages : list Message) : nat :=
  match messages with
  | [] => 0
  | msg :: rest =>
      if (max_chars <? Z.of_nat (char_count + length (formatted msg)))%Z
      then 0
      else S (taken max_chars (char_count + length (formatted msg)) rest)
  end.

Lemma format_loop_taken max_chars messages : forall parts count,
  format_loop max_chars parts count messages
  = parts ++ map formatted (firstn (taken max_chars count messages) messages).
Proof.
  induction messages as [|msg rest IH]; intros parts count; cbn [taken firstn map List.length format_loop nth_error].
  - now rewrite app_nil_r.
  - destruct (_ <? _)%Z; cbn [taken firstn map List.length format_loop nth_error].
    + now rewrite app_nil_r.
    + rewrite IH, <- app_assoc. reflexivity.
Qed.

Lemma taken_le max_chars messages : forall count,
  taken max_chars count messages <= List.length messages.
Proof.
  induction messages as [|msg rest IH]; intros count; cbn [taken firstn map List.length format_loop nth_error]; [lia|].
  destruct (_ <? _)%Z; [lia|]. apply le_n_S, IH.
Qed.

(** The characters already counted plus the lines taken stay within the
    budget. *)
Lemma taken_within max_chars messages : forall count,
  (Z.of_nat count <= max_chars)%Z ->
  (Z.of_nat (count + length (Str.join ""
      (map formatted (firstn (taken max_chars count messages) messages))))
   <= max_chars)%Z.
Proof.
  induction messages as [|msg rest IH]; intros count Hc; cbn [taken firstn map List.length format_loop nth_error].
  - rewrite Nat.add_0_r. exact Hc.
  - destruct (_ <? _)%Z eqn:E; cbn [taken firstn map List.length format_loop nth_error].
    + rewrite Nat.add_0_r. exact Hc.
    + apply Z.ltb_ge in E.
      rewrite Str.join_empty_cons, Str.length_app.
      specialize (IH (count + length (formatted msg)) E). lia.
Qed.

(** Where the loop stops short of the whole list, the next line would not
    have fitted. *)
Lemma taken_stops max_chars messages : forall count,
  taken max_chars count messages < List.length messages ->
  exists msg,
    nth_error messages (taken max_chars count messages) = Some msg /\
    (max_chars < Z.of_nat (count + length (Str.join ""
        (map formatted (firstn (taken max_chars count messages) messages)))
        + length (formatted msg)))%Z.
Proof.
  induction messages as [|msg rest IH]; intros count Hlt;
    cbn [taken List.length] in *; [lia|].
  destruct (_ <? _)%Z eqn:E; cbn [firstn map nth_error].
  - exists msg. split; [reflexivity|]. apply Z.ltb_lt in E.
    rewrite Str.join_empty_nil. cbn [length]. rewrite Nat.add_0_r. exact E.
  - destruct (IH (count + length (formatted msg))) as (m & Hn & Hb); [lia|].
    exists m. split; [exact Hn|].
    rewrite Str.join_empty_cons, Str.length_app, Nat.add_assoc. exact Hb.
Qed.

Lemma format_messages_taken messages max_chars :
  format_messages_for_context messages max_chars
  = Str.join "" (map formatted (firstn (taken max_chars 0 messages) messages)).
Proof. unfold format_messages_for_context. now rewrite format_loop_taken. Qed.

(** C5: for every message list and every budget of [N] characters the
    context is at most [N] characters long and is the concatenation, in
    order, of the whole formatted lines of the first [k] messages for some
    [k]; the messages after them are dropped, and when some are dropped the
    line of the first of them would not have fitted. *)
Theorem context_within_budget (messages : list Message) (N : nat) :
  let context := format_messages_for_context messages (Z.of_nat N) in
  length context <= N /\
  exists k,
    k <= List.length messages /\
    context = Str.join "" (map formatted (firstn k messages)) /\
    (k < List.length messages ->
     exists msg,
       nth_error messages k = Some msg /\
       N < length context + length (formatted msg)).
Proof.
  cbv zeta. rewrite format_messages_taken.
  set (k := taken (Z.of_nat N) 0 messages). split.
  - pose proof (taken_within (Z.of_nat N) messages 0) as H.
    fold k in H. cbn [Nat.add] in H. lia.
  - exists k. split; [apply taken_le|]. split; [reflexivity|].
    intro Hlt. destruct (taken_stops (Z.of_nat N) messages 0 Hlt)
      as (msg & Hn & Hb).
    fold k in Hn, Hb. cbn [Nat.add] in Hb. exists msg. split; [exact Hn|]. lia.
Qed.

(** A larger budget takes at least as many messages. *)
Lemma taken_monotone small large messages : forall count,
  (small <= large)%Z ->
  taken small count messages <= taken large count messages.
Proof.
  induction messages as [|msg rest IH]; intros count Hle; cbn [taken]; [lia|].
  destruct (small <? _)%Z eqn:Es; [lia|].
  apply Z.ltb_ge in Es.
  replace (large <? _)%Z with false by (symmetry; apply Z.ltb_ge; lia).
  apply le_n_S, IH, Hle.
Qed.

Lemma formatted_nonempty msg : formatted msg <> "".
Proof.
  unfold formatted. simpl. discriminate.
Qed.

(** The context is empty exactly when no message is taken. *)
Lemma context_empty_iff messages max_chars :
  format_messages_for_context messages max_chars = ""
  <-> taken max_chars 0 messages = 0.
Proof.
  rewrite format_messages_taken. split.
  - destruct messages as [|msg rest]; [reflexivity|].
    destruct (taken max_chars 0 (msg :: rest)); [reflexivity|].
    cbn [firstn map]. rewrite Str.join_empty_cons. intro H.
    destruct (formatted msg) eqn:E; [now apply formatted_nonempty in E|].
    discriminate.
  - intros ->. reflexivity.
Qed.

(** A context that is not empty under one budget is not empty under a
    larger one. *)
Lemma context_nonempty_monotone messages small large :
  (small <= large)%Z ->
  format_messages_for_context messages small <> "" ->
  format_messages_for_context messages large <> "".
Proof.
  intros Hle Hs Hl. apply Hs. apply context_empty_iff.
  apply context_empty_iff in Hl.
  pose proof (taken_monotone small large messages 0 Hle). lia.
Qed.

(** With a negative [max_chars] nothing fits. *)
Lemma context_negative_budget messages max_chars :
  (max_chars < 0)%Z -> format_messages_for_context messages max_chars = "".
Proof.
  intro H. apply context_empty_iff.
  destruct messages as [|msg rest]; cbn [taken]; [reflexivity|].
  replace (max_chars <? _)%Z with true; [reflexivity|].
  symmetry. apply Z.ltb_lt. lia.
Qed.

End Context.

(** ** Paginated fetcher *)

Module Fetch.

Local Open Scope list_scope.

(** What [data.get("total", 0)] yields, as the comparison
    [len(all_messages) >= data.get("total", 0)] sees it. *)
Inductive total_field :=
| TotalAbsent            (* no such key: the default 0 *)
| TotalInt (t : Z)       (* an integer; floating-point totals are left out *)
| TotalUnordered.        (* null, a string, a list, an object: [>=] raises
                            TypeError *)

(** The outcome of one [GET /messages/?skip=..&limit=100], up to the point
    where [messages] is built. *)
Inductive response :=
| HTTPError (e : string)   (* [httpx.HTTPError] from [get] or [raise_for_status] *)
| Unexpected (e : string)  (* any other exception: a body that is not JSON,
                              an item that the [Message] model rejects *)
| Page (items : list Message) (total : total_field).

(** The remote API: the response to the [n]-th request of a run (from 0)
    when that request asks for cursor [skip]. *)
Definition oracle := nat -> Z -> response.

Definition limit : Z := 100.
Definition max_retries : nat := 3.
Definition max_consecutive_failures : nat := 5.

(** The local variables of [fetch_all_messages]; [requests] records the
    [skip] of every request sent, oldest first. *)
Record locals := mkLocals {
  all_messages : list Message;
  skip : Z;
  consecutive_failures : nat;
  retry_count : nat;
  success : bool;
  requests : list Z
}.

(** Control leaves a block by [return] or by falling out of it. *)
Inductive flow :=
| Return (result : list Message) (sent : list Z)
| Continue (l : locals).

Definition total_or_default (t : total_field) : option Z :=
  match t with
  | TotalAbsent => Some 0%Z
  | TotalInt t => Some t
  | TotalUnordered => None
  end.

(** One execution of the [try] statement of the inner loop. *)
Definition attempt (api : oracle) (l : locals) : flow :=
  let sent := requests l ++ [skip l] in
  match api (List.length (requests l)) (skip l) with
  | HTTPError _ =>
      let retry_count' := S (retry_count l) in
      if retry_count' <? max_retries
      then Continue (mkLocals (all_messages l) (skip l)
                       (consecutive_failures l) retry_count' (success l) sent)
      else Continue (mkLocals (all_messages l) (skip l)
                       (S (consecutive_failures l)) retry_count' (success l) sent)
  | Unexpected _ =>
      Continue (mkLocals (all_messages l) (skip l)
                  (S (consecutive_failures l)) max_retries (success l) sent)
  | Page [] _ => Return (all_messages l) sent
  | Page items total =>
      let all := all_messages l ++ items in
      match total_or_default total with
      | Some t =>
          if (t <=? Z.of_nat (List.length all))%Z
          then Return all sent
          else Continue (mkLocals all (skip l + limit) 0 (retry_count l) true sent)
      | None =>
          (* TypeError, raised after [success = True]: [except Exception] *)
          Continue (mkLocals all (skip l) (S 0) max_retries true sent)
      end
  end.

(** [while retry_count < max_retries and not success]. *)
Fixpoint retry_loop (fuel : nat) (api : oracle) (l : locals) : option flow :=
  if (retry_count l <? max_retries) && negb (success l)
  then match fuel with
       | 0 => None
       | S fuel' =>
           match attempt api l with
           | Return r sent => Some (Return r sent)
           | Continue l' => retry_loop fuel' api l'
           end
       end
  else Some (Continue l).

(** The body of [while True]; the inner loop runs at most [max_retries]
    times ([retry_loop_total]). *)
Definition iteration (api : oracle) (l : locals) : option flow :=
  let l0 := mkLocals (all_messages l) (skip l) (consecutive_failures l)
                     0 false (requests l) in
  match retry_loop max_retries api l0 with
  | None => None
  | Some (Return r sent) => Some (Return r sent)
  | Some (Continue l1) =>
      if negb (success l1)
      then
        let l2 := mkLocals (all_messages l1) (skip l1 + limit)
                    (consecutive_failures l1) (retry_count l1) (success l1)
                    (requests l1) in
        if max_consecutive_failures <=? consecutive_failures l2
        then Some (Return (all_messages l2) (requests l2))   (* [break] *)
        else Some (Continue l2)
      else Some (Continue l1)
  end.

(** [while True]: [fuel] bounds the number of iterations; [None] is a run
    still going when the fuel is spent. *)
Fixpoint fetch_loop (fuel : nat) (api : oracle) (l : locals)
  : option (list Message * list Z) :=
  match fuel with
  | 0 => None
  | S fuel' =>
      match iteration api l with
      | None => None
      | Some (Return r sent) => Some (r, sent)
      | Some (Continue l') => fetch_loop fuel' api l'
      end
  end.

Definition initial : locals := mkLocals [] 0 0 0 false [].

(** The run from the function's entry: the returned list and the cursors
    requested. *)
Definition run (fuel : nat) (api : oracle) : option (list Message * list Z) :=
  fetch_loop fuel api initial.

Definition fetch_all_messages (fuel : nat) (api : oracle)
  : option (list Message) :=
  option_map fst (run fuel api).

(** [D[skip : skip + limit]]. *)
Definition slice (D : list Message) (skip : Z) : list Message :=
  firstn (Z.to_nat limit) (skipn (Z.to_nat skip) D).

(** A well-formed source holding the data set [D]: every request is
    answered with its slice of [D] and the size of [D]. *)
Definition serves (D : list Message) (api : oracle) : Prop :=
  forall n s, (0 <= s)%Z ->
    api n s = Page (slice D s) (TotalInt (Z.of_nat (List.length D))).

Definition paged (D : list Message) : oracle :=
  fun _ s => Page (slice D s) (TotalInt (Z.of_nat (List.length D))).

(** The requests numbered [n], ..., [n + k - 1], all for cursor [s], fail
    with an [httpx.HTTPError]. *)
Definition transient (api : oracle) (n : nat) (s : Z) (k : nat) : Prop :=
  forall i, i < k -> exists e, api (n + i) s = HTTPError e.

(** The page at the cursor of [l] is given up: its three attempts fail
    with an HTTP error, or an attempt within the budget fails with another
    exception. *)
Definition page_fails (api : oracle) (l : locals) : Prop :=
  let n := List.length (requests l) in
  transient api n (skip l) max_retries \/
  exists k e, k < max_retries /\ transient api n (skip l) k /\
              api (n + k) (skip l) = Unexpected e.

(** The page at the cursor of [l] arrives with [items] and [total] after
    [k] transient failures. *)
Definition page_arrives (api : oracle) (l : locals) (k : nat)
           (items : list Message) (total : total_field) : Prop :=
  let n := List.length (requests l) in
  k < max_retries /\ transient api n (skip l) k /\
  api (n + k) (skip l) = Page items total.

(** States at the head of [while True]. *)
Inductive reachable (api : oracle) : locals -> Prop :=
| reach_initial : reachable api initial
| reach_next l l' :
    reachable api l -> iteration api l = Some (Continue l') ->
    reachable api l'.

(** The items were served: a request of the run, sent for the cursor [s],
    was answered with them. *)
Definition served (api : oracle) (sent : list Z) (items : list Message)
  : Prop :=
  exists n s total, nth_error sent n = Some s /\ api n s = Page items total.

(** The loop invariant against a source that serves [D]: the messages
    collected are the first [skip] of [D], page by page, and [D] has more. *)
Definition collected (D : list Message) (l : locals) : Prop :=
  (0 <= skip l)%Z /\
  all_messages l = firstn (Z.to_nat (skip l)) D /\
  List.concat (map (slice D) (requests l)) = all_messages l /\
  (Z.to_nat (skip l) < List.length D \/ skip l = 0%Z).

(** A source that refuses every request. *)
Definition refusing : oracle := fun _ _ => HTTPError "connection refused".

(** The only message of the two sources below. *)
Definition lone : Message :=
  mkMessage "0" "u1" "Layla" "2024-01-01T10:00:00"
            "I am flying to London next Friday".

(** A source whose first answer is a page of one message with a total
    that is not a number, and which refuses every later request. *)
Definition stalled : oracle :=
  fun n _ =>
    if n =? 0 then Page [lone] TotalUnordered
    else HTTPError "connection refused".

(** The same source with the total 2. *)
Definition counted : oracle :=
  fun n _ =>
    if n =? 0 then Page [lone] (TotalInt 2)
    else HTTPError "connection refused".

(** The state at the head of the next iteration. *)
Definition advance (api : oracle) (l : locals) : locals :=
  match iteration api l with
  | Some (Continue l') => l'
  | _ => l
  end.

(** After four pages in a row have been given up. *)
Definition four_failures : locals :=
  advance refusing (advance refusing (advance refusing
    (advance refusing initial))).

(** The [n]-th message of a sample data set. *)
Definition sample (n : nat) : Message :=
  mkMessage (NilZero.string_of_uint (Nat.to_uint n)) "u1" "Layla"
            "2024-01-01T10:00:00" "I am flying to London next Friday".

(** A source whose first two requests fail and which then serves 150
    messages. *)
Definition flaky : oracle :=
  fun n s => if n <? 2 then HTTPError "503"
             else paged (map sample (seq 0 150)) n s.

(** A source whose first page carries one message and a [total] that is
    not a number, and that has nothing beyond it. *)
Definition untyped_total : oracle :=
  fun _ s => if (s =? 0)%Z then Page [sample 0] TotalUnordered
             else Page [] TotalAbsent.

(** The sentence of the specification on an exhausted retry budget, read
    without the ceiling: fetching always goes on to the next page. *)
Definition continues_after_exhaustion : Prop :=
  forall api l,
    reachable api l ->
    transient api (List.length (requests l)) (skip l) max_retries ->
    exists l',
      iteration api l = Some (Continue l') /\
      consecutive_failures l' = S (consecutive_failures l) /\
      skip l' = (skip l + limit)%Z.

(** Beyond the cursor [bound] the source has nothing: a request there
    fails or yields no items. *)
Definition dry_beyond (bound : Z) (api : oracle) : Prop :=
  forall n s, (bound < s)%Z ->
    match api n s with
    | Page (_ :: _) _ => False
    | _ => True
    end.

(** Every [total] the source reports can be compared with an [int]. *)
Definition ordered_totals (api : oracle) : Prop :=
  forall n s items, api n s <> Page items TotalUnordered.

(** *** The inner loop *)

Lemma retry_loop_exit fuel api l :
  (retry_count l <? max_retries) && negb (success l) = false ->
  retry_loop fuel api l = Some (Continue l).
Proof. intro H. destruct fuel; simpl; rewrite H; reflexivity. Qed.

Lemma retry_loop_step fuel api l :
  (retry_count l <? max_retries) && negb (success l) = true ->
  retry_loop (S fuel) api l
  = match attempt api l with
    | Return r sent => Some (Return r sent)
    | Continue l' => retry_loop fuel api l'
    end.
Proof. intro H. simpl. rewrite H. reflexivity. Qed.

(** An attempt that does not return either ends the loop or uses up one
    retry. *)
Lemma attempt_progress api l l' :
  attempt api l = Continue l' ->
  (retry_count l' <? max_retries) && negb (success l') = false
  \/ retry_count l' = S (retry_count l).
Proof.
  unfold attempt. destruct (api _ _) as [e|e|items total].
  - destruct (S (retry_count l) <? max_retries);
      intro H; injection H as <-; right; reflexivity.
  - intro H; injection H as <-. left. reflexivity.
  - destruct items as [|m items]; [discriminate|].
    destruct (total_or_default total) as [t|].
    + destruct (_ <=? _)%Z; [discriminate|].
      intro H; injection H as <-. left. apply andb_false_r.
    + intro H; injection H as <-. left. reflexivity.
Qed.

(** The inner loop ends within [max_retries] attempts. *)
Lemma retry_loop_total api : forall fuel l,
  max_retries <= retry_count l + fuel ->
  exists f, retry_loop fuel api l = Some f.
Proof.
  induction fuel as [|fuel IH]; intros l Hfuel.
  - exists (Continue l). apply retry_loop_exit.
    replace (retry_count l <? max_retries) with false; [reflexivity|].
    symmetry. apply Nat.ltb_ge. lia.
  - destruct ((retry_count l <? max_retries) && negb (success l)) eqn:C.
    + rewrite (retry_loop_step _ _ _ C).
      destruct (attempt api l) as [r sent|l'] eqn:A; [eauto|].
      destruct (attempt_progress _ _ _ A) as [Hexit|Hrc].
      * exists (Continue l'). now apply retry_loop_exit.
      * apply IH. lia.
    + exists (Continue l). now apply retry_loop_exit.
Qed.

Lemma iteration_total api l : exists f, iteration api l = Some f.
Proof.
  unfold iteration.
  destruct (retry_loop_total api max_retries
              (mkLocals (all_messages l) (skip l) (consecutive_failures l)
                        0 false (requests l))) as [f ->]; [simpl; lia|].
  destruct f as [r sent|l1]; [eauto|].
  destruct (negb (success l1)); [|eauto].
  destruct (_ <=? _); eauto.
Qed.

(** [k] transient failures in a row use up [k] retries on the same
    cursor and change nothing else. *)
Lemma retry_transient api : forall k fuel a s c r q,
  transient api (List.length q) s k -> r + k < max_retries ->
  retry_loop (k + fuel) api (mkLocals a s c r false q)
  = retry_loop fuel api (mkLocals a s c (r + k) false (q ++ repeat s k)).
Proof.
  induction k as [|k IH]; intros fuel a s c r q Htr Hk.
  - cbn [repeat Nat.add]. now rewrite Nat.add_0_r, app_nil_r.
  - change (S k + fuel) with (S (k + fuel)).
    rewrite retry_loop_step.
    2:{ cbn [retry_count success]. apply andb_true_iff. split; [|reflexivity].
        apply Nat.ltb_lt. lia. }
    unfold attempt. cbn [requests skip retry_count all_messages
                         consecutive_failures success].
    destruct (Htr 0) as [e He]; [lia|]. rewrite Nat.add_0_r in He. rewrite He.
    replace (S r <? max_retries) with true
      by (symmetry; apply Nat.ltb_lt; lia).
    rewrite IH.
    + f_equal. f_equal; [lia|].
      rewrite <- app_assoc. reflexivity.
    + intros i Hi. destruct (Htr (S i)) as [e' He']; [lia|].
      exists e'. rewrite length_app. cbn [List.length].
      rewrite <- He'. f_equal. lia.
    + lia.
Qed.

Lemma sent_again (q : list Z) (s : Z) (k : nat) :
  (q ++ repeat s k) ++ [s] = q ++ repeat s (S k).
Proof. rewrite <- app_assoc, <- repeat_cons. reflexivity. Qed.

Lemma length_sent (q : list Z) (s : Z) (k : nat) :
  List.length (q ++ repeat s k) = List.length q + k.
Proof. now rewrite length_app, repeat_length. Qed.

(** The state in which the inner loop meets the attempt that follows [k]
    transient failures. *)
Lemma iteration_after_transient api l k :
  k < max_retries ->
  transient api (List.length (requests l)) (skip l) k ->
  retry_loop max_retries api
    (mkLocals (all_messages l) (skip l) (consecutive_failures l) 0 false
              (requests l))
  = retry_loop (max_retries - k) api
      (mkLocals (all_messages l) (skip l) (consecutive_failures l) k false
                (requests l ++ repeat (skip l) k)).
Proof.
  intros Hk Htr.
  replace max_retries with (k + (max_retries - k)) at 1 by lia.
  rewrite retry_transient by (assumption || lia). reflexivity.
Qed.

(** The retry budget is used up: three requests for the same cursor, one
    more consecutive failure, the cursor moves on, and the fetch stops when
    the ceiling is reached. *)
Lemma iteration_exhausted api l :
  transient api (List.length (requests l)) (skip l) max_retries ->
  iteration api l
  = Some (if max_consecutive_failures <=? S (consecutive_failures l)
          then Return (all_messages l)
                      (requests l ++ repeat (skip l) max_retries)
          else Continue (mkLocals (all_messages l) (skip l + limit)
                           (S (consecutive_failures l)) max_retries false
                           (requests l ++ repeat (skip l) max_retries))).
Proof.
  intro Htr. unfold iteration.
  rewrite (iteration_after_transient api l 2);
    [|unfold max_retries; lia| intros i Hi; apply Htr; unfold max_retries; lia].
  change (max_retries - 2) with 1.
  rewrite retry_loop_step by reflexivity.
  unfold attempt. cbn [requests skip retry_count all_messages
                       consecutive_failures success].
  rewrite length_sent.
  destruct (Htr 2) as [e He]; [unfold max_retries; lia|]. rewrite He.
  change (3 <? max_retries) with false. cbn iota.
  rewrite retry_loop_exit by reflexivity.
  cbn [requests skip retry_count all_messages consecutive_failures
       success negb].
  rewrite sent_again. destruct (_ <=? _); reflexivity.
Qed.

(** A page that is given up, on either path: one more consecutive failure,
    the cursor moves on, and the fetch stops when the ceiling is reached. *)
Lemma iteration_fails api l :
  page_fails api l ->
  exists j, 1 <= j <= max_retries /\
    iteration api l
    = Some (if max_consecutive_failures <=? S (consecutive_failures l)
            then Return (all_messages l) (requests l ++ repeat (skip l) j)
            else Continue (mkLocals (all_messages l) (skip l + limit)
                             (S (consecutive_failures l)) max_retries false
                             (requests l ++ repeat (skip l) j))).
Proof.
  intros [Htr|(k & e & Hk & Htr & He)].
  - exists max_retries. split; [unfold max_retries; lia|].
    now apply iteration_exhausted.
  - exists (S k). split; [lia|].
    unfold iteration. rewrite (iteration_after_transient api l k Hk Htr).
    destruct (max_retries - k) as [|fuel] eqn:F; [lia|].
    rewrite retry_loop_step.
    2:{ cbn [retry_count success]. apply andb_true_iff. split; [|reflexivity].
        now apply Nat.ltb_lt. }
    unfold attempt. cbn [requests skip retry_count all_messages
                         consecutive_failures success].
    rewrite length_sent, He.
    rewrite retry_loop_exit by reflexivity.
    cbn [requests skip retry_count all_messages consecutive_failures
         success negb].
    rewrite sent_again. destruct (_ <=? _); reflexivity.
Qed.

(** A page that arrives after [k] transient failures. *)
Lemma iteration_arrives api l k items total :
  page_arrives api l k items total ->
  iteration api l
  = Some
      (let sent := requests l ++ repeat (skip l) (S k) in
       match items with
       | [] => Return (all_messages l) sent
       | _ =>
           let all := all_messages l ++ items in
           match total_or_default total with
           | Some t =>
               if (t <=? Z.of_nat (List.length all))%Z
               then Return all sent
               else Continue (mkLocals all (skip l + limit) 0 k true sent)
           | None => Continue (mkLocals all (skip l) 1 max_retries true sent)
           end
       end).
Proof.
  intros (Hk & Htr & Hp).
  unfold iteration. rewrite (iteration_after_transient api l k Hk Htr).
  destruct (max_retries - k) as [|fuel] eqn:F; [lia|].
  rewrite retry_loop_step.
  2:{ cbn [retry_count success]. apply andb_true_iff. split; [|reflexivity].
      now apply Nat.ltb_lt. }
  unfold attempt. cbn [requests skip retry_count all_messages
                       consecutive_failures success].
  rewrite length_sent, Hp, sent_again.
  destruct items as [|m items]; [reflexivity|].
  cbv zeta.
  destruct (total_or_default total) as [t|].
  - destruct (_ <=? _)%Z; [reflexivity|].
    rewrite retry_loop_exit by (cbn [retry_count success]; apply andb_false_r).
    reflexivity.
  - rewrite retry_loop_exit by reflexivity. reflexivity.
Qed.

(** *** The outer loop *)

Lemma fetch_loop_return fuel api l r sent :
  iteration api l = Some (Return r sent) ->
  fetch_loop (S fuel) api l = Some (r, sent).
Proof. intro H. simpl. now rewrite H. Qed.

Lemma fetch_loop_continue fuel api l l' :
  iteration api l = Some (Continue l') ->
  fetch_loop (S fuel) api l = fetch_loop fuel api l'.
Proof. intro H. simpl. now rewrite H. Qed.

(** More fuel does not change a result. *)
Lemma fetch_loop_more api res : forall fuel extra l,
  fetch_loop fuel api l = Some res ->
  fetch_loop (fuel + extra) api l = Some res.
Proof.
  induction fuel as [|fuel IH]; intros extra l H; [discriminate|].
  cbn [Nat.add]. simpl in H |- *.
  destruct (iteration api l) as [[r sent|l']|]; try assumption.
  now apply IH.
Qed.

Lemma fetch_loop_deterministic api fuel1 fuel2 l res1 res2 :
  fetch_loop fuel1 api l = Some res1 ->
  fetch_loop fuel2 api l = Some res2 ->
  res1 = res2.
Proof.
  intros H1 H2.
  apply (fetch_loop_more _ _ _ fuel2) in H1.
  apply (fetch_loop_more _ _ _ fuel1) in H2.
  rewrite Nat.add_comm in H2. congruence.
Qed.

(** *** A well-formed source *)

Lemma firstn_then_slice (D : list Message) (n m : nat) :
  firstn n D ++ firstn m (skipn n D) = firstn (n + m) D.
Proof.
  revert D; induction n as [|n IH]; intros D; [reflexivity|].
  destruct D as [|x D]; cbn [firstn skipn Nat.add app].
  - now rewrite firstn_nil.
  - now rewrite IH.
Qed.

Lemma firstn_whole (D : list Message) (n : nat) :
  List.length D <= List.length (firstn n D) -> firstn n D = D.
Proof.
  intro H. rewrite length_firstn in H. apply firstn_all2. lia.
Qed.

Lemma serves_arrives D api l :
  serves D api -> (0 <= skip l)%Z ->
  page_arrives api l 0 (slice D (skip l))
               (TotalInt (Z.of_nat (List.length D))).
Proof.
  intros Hs H0. repeat split.
  - unfold max_retries; lia.
  - intros i Hi; lia.
  - apply Hs, H0.
Qed.

Lemma fetch_loop_serves D api : serves D api ->
  forall n l, List.length D - Z.to_nat (skip l) < n -> collected D l ->
  exists fuel sent,
    fetch_loop fuel api l = Some (D, sent) /\
    List.concat (map (slice D) sent) = D.
Proof.
  intros Hs. induction n as [|n IH]; intros l Hn (H0 & Hall & Hreq & Hmore);
    [lia|].
  pose proof (iteration_arrives _ _ _ _ _ (serves_arrives D api l Hs H0)) as Hit.
  cbv zeta in Hit. cbn [total_or_default repeat] in Hit.
  assert (Hcat : List.concat (map (slice D) (requests l ++ [skip l]))
                 = all_messages l ++ slice D (skip l)).
  { rewrite map_app, concat_app, Hreq. cbn [map List.concat].
    now rewrite app_nil_r. }
  assert (Hnext : all_messages l ++ slice D (skip l)
                  = firstn (Z.to_nat (skip l) + Z.to_nat limit) D).
  { rewrite Hall. apply firstn_then_slice. }
  destruct (slice D (skip l)) as [|m items] eqn:Hslice.
  - (* nothing at this cursor: [D] is exhausted, so it is empty *)
    assert (HD : all_messages l = D).
    { rewrite app_nil_r in Hnext. rewrite Hnext. apply firstn_whole.
      unfold slice in Hslice.
      assert (Hlen : List.length (firstn (Z.to_nat limit)
                        (skipn (Z.to_nat (skip l)) D)) = 0)
        by now rewrite Hslice.
      rewrite length_firstn, length_skipn in Hlen.
      rewrite length_firstn. unfold limit in *. lia. }
    exists 1, (requests l ++ [skip l]). split.
    + rewrite <- HD. apply fetch_loop_return. exact Hit.
    + rewrite Hcat, app_nil_r. exact HD.
  - destruct (Z.of_nat (List.length D)
              <=? Z.of_nat (List.length (all_messages l ++ m :: items)))%Z
      eqn:Hcmp.
    + apply Z.leb_le in Hcmp.
      assert (HD : all_messages l ++ m :: items = D).
      { rewrite Hnext. apply firstn_whole. rewrite <- Hnext. lia. }
      exists 1, (requests l ++ [skip l]). split.
      * rewrite <- HD. apply fetch_loop_return. exact Hit.
      * now rewrite Hcat.
    + apply Z.leb_gt in Hcmp.
      assert (Hlt : Z.to_nat (skip l) + Z.to_nat limit < List.length D).
      { rewrite Hnext, length_firstn in Hcmp. lia. }
      destruct (IH (mkLocals (all_messages l ++ m :: items) (skip l + limit)
                             0 0 true (requests l ++ [skip l])))
        as (fuel & sent & Hrun & Hsent).
      * cbn [skip]. unfold limit in *. lia.
      * unfold collected. cbn [skip all_messages requests].
        unfold limit in *. repeat split.
        -- lia.
        -- rewrite Hnext. f_equal. lia.
        -- exact Hcat.
        -- left. lia.
      * exists (S fuel), sent. split; [|exact Hsent].
        rewrite (fetch_loop_continue _ _ _ _ Hit). exact Hrun.
Qed.

(** C2: against a well-formed source (every request answered with its
    slice of the data set [D] and with the same [total], the size of [D],
    no request failing), [fetch_all_messages] returns exactly [total]
    messages: the pages it requested, concatenated in the order of the
    requests, which is [D]. *)
Theorem fetch_all_messages_complete
        (D : list Message) (total : Z) (api : oracle) :
  total = Z.of_nat (List.length D) ->
  (forall n s, (0 <= s)%Z -> api n s = Page (slice D s) (TotalInt total)) ->
  exists fuel sent result,
    run fuel api = Some (result, sent) /\
    fetch_all_messages fuel api = Some result /\
    Z.of_nat (List.length result) = total /\
    result = List.concat (map (slice D) sent) /\
    result = D.
Proof.
  intros -> Hs.
  destruct (fetch_loop_serves D api Hs (S (List.length D)) initial)
    as (fuel & sent & Hrun & Hsent).
  - cbn [skip initial]. lia.
  - unfold collected, initial; cbn. repeat split; lia.
  - exists fuel, sent, D. unfold fetch_all_messages, run.
    rewrite Hrun. repeat split. now rewrite Hsent.
Qed.

Lemma fetch_all_messages_complete_witness :
  let D := map sample (seq 0 250) in
  250%Z = Z.of_nat (List.length D) /\
  (forall n s, (0 <= s)%Z -> paged D n s = Page (slice D s) (TotalInt 250)) /\
  exists fuel sent result,
    run fuel (paged D) = Some (result, sent) /\
    fetch_all_messages fuel (paged D) = Some result /\
    Z.of_nat (List.length result) = 250%Z /\
    result = List.concat (map (slice D) sent) /\
    result = D.
Proof.
  intro D.
  assert (Ht : 250%Z = Z.of_nat (List.length D)) by reflexivity.
  assert (Hs : forall n s, (0 <= s)%Z ->
                 paged D n s = Page (slice D s) (TotalInt 250))
    by (intros n s _; reflexivity).
  split; [exact Ht|]. split; [exact Hs|].
  exact (fetch_all_messages_complete D 250 (paged D) Ht Hs).
Defined.

(** *** Messages are only ever appended *)

Lemma attempt_extends api l :
  match attempt api l with
  | Return r _ => exists more, r = all_messages l ++ more
  | Continue l' => exists more, all_messages l' = all_messages l ++ more
  end.
Proof.
  unfold attempt. destruct (api _ _) as [e|e|items total].
  - destruct (_ <? _); exists []; cbn [all_messages]; now rewrite app_nil_r.
  - exists []; cbn [all_messages]; now rewrite app_nil_r.
  - destruct items as [|m items]; [exists []; now rewrite app_nil_r|].
    destruct (total_or_default total) as [t|];
      [destruct (_ <=? _)%Z|]; exists (m :: items); reflexivity.
Qed.

Lemma retry_loop_extends api : forall fuel l f,
  retry_loop fuel api l = Some f ->
  match f with
  | Return r _ => exists more, r = all_messages l ++ more
  | Continue l' => exists more, all_messages l' = all_messages l ++ more
  end.
Proof.
  induction fuel as [|fuel IH]; intros l f; simpl;
    destruct ((retry_count l <? max_retries) && negb (success l));
    try discriminate;
    try (intro H; injection H as <-; exists []; now rewrite app_nil_r).
  pose proof (attempt_extends api l) as Ha.
  destruct (attempt api l) as [r sent|l'].
  - intro H; injection H as <-. exact Ha.
  - intro H. apply IH in H. destruct Ha as [more1 E1].
    destruct f as [r sent|l'']; destruct H as [more2 E2];
      exists (more1 ++ more2); rewrite E2, E1; now rewrite app_assoc.
Qed.

Lemma iteration_extends api l f :
  iteration api l = Some f ->
  match f with
  | Return r _ => exists more, r = all_messages l ++ more
  | Continue l' => exists more, all_messages l' = all_messages l ++ more
  end.
Proof.
  unfold iteration.
  destruct (retry_loop _ _ _) as [[r sent|l1]|] eqn:R; try discriminate;
    apply retry_loop_extends in R; cbn [all_messages] in R.
  - intro H; injection H as <-. exact R.
  - destruct (negb (success l1)); [destruct (_ <=? _)|];
      intro H; injection H as <-; exact R.
Qed.

(** Whatever a run returns starts with what had been collected. *)
Lemma fetch_loop_extends api : forall fuel l r sent,
  fetch_loop fuel api l = Some (r, sent) ->
  exists more, r = all_messages l ++ more.
Proof.
  induction fuel as [|fuel IH]; intros l r sent; simpl; [discriminate|].
  destruct (iteration api l) as [[r' sent'|l']|] eqn:It; try discriminate;
    apply iteration_extends in It.
  - intro H; injection H as <- <-. exact It.
  - intro H. apply IH in H as [more2 E2]. destruct It as [more1 E1].
    exists (more1 ++ more2). now rewrite E2, E1, app_assoc.
Qed.

(** *** The consecutive-failure counter *)

Lemma attempt_counter api l l' :
  attempt api l = Continue l' -> success l = false -> success l' = true ->
  consecutive_failures l' <= 1.
Proof.
  unfold attempt. destruct (api _ _) as [e|e|items total].
  - destruct (_ <? _); intro H; injection H as <-;
      cbn [success]; congruence.
  - intro H; injection H as <-; cbn [success]; congruence.
  - destruct items as [|m items]; [discriminate|].
    destruct (total_or_default total) as [t|];
      [destruct (_ <=? _)%Z; [discriminate|]|];
      intro H; injection H as <-; cbn; lia.
Qed.

Lemma retry_loop_counter api : forall fuel l l1,
  success l = false ->
  retry_loop fuel api l = Some (Continue l1) -> success l1 = true ->
  consecutive_failures l1 <= 1.
Proof.
  induction fuel as [|fuel IH]; intros l l1 Hs; simpl;
    destruct ((retry_count l <? max_retries) && negb (success l));
    try discriminate;
    try (intro H; injection H as <-; congruence).
  destruct (attempt api l) as [r sent|l'] eqn:A; [discriminate|].
  destruct (success l') eqn:Hs'.
  - rewrite retry_loop_exit by (rewrite Hs'; apply andb_false_r).
    intro H; injection H as <-. intros _.
    exact (attempt_counter _ _ _ A Hs Hs').
  - now apply IH.
Qed.

(** At the head of the outer loop the counter is below the ceiling. *)
Lemma reachable_below_ceiling api l :
  reachable api l -> consecutive_failures l < max_consecutive_failures.
Proof.
  induction 1 as [|l l' Hr IH Hit].
  - unfold max_consecutive_failures; cbn; lia.
  - unfold iteration in Hit.
    destruct (retry_loop _ _ _) as [[r sent|l1]|] eqn:R; try discriminate.
    destruct (success l1) eqn:Hs1; cbn [negb] in Hit.
    + injection Hit as <-.
      assert (consecutive_failures l1 <= 1)
        by (eapply retry_loop_counter; [|exact R|exact Hs1]; reflexivity).
      unfold max_consecutive_failures. lia.
    + destruct (_ <=? _) eqn:C; [discriminate|].
      injection Hit as <-. apply Nat.leb_gt in C. exact C.
Qed.

(** Every page either is given up or arrives within the retry budget. *)
Lemma page_cases api l :
  page_fails api l \/ exists k items total, page_arrives api l k items total.
Proof.
  unfold page_fails, page_arrives, transient, max_retries.
  set (n := List.length (requests l)). set (s := skip l).
  assert (step : forall k,
    (forall i, i < k -> exists e, api (n + i) s = HTTPError e) ->
    (forall i, i < S k -> exists e, api (n + i) s = HTTPError e)
    \/ (exists e, api (n + k) s = Unexpected e)
    \/ (exists items total, api (n + k) s = Page items total)).
  { intros k Hk. destruct (api (n + k) s) as [e|e|items total] eqn:E;
      [left | right; left; eauto | right; right; eauto].
    intros i Hi. destruct (Nat.eq_dec i k) as [->|]; [eauto|].
    apply Hk. lia. }
  destruct (step 0) as [H1|[(e & He)|(it & tot & Hp)]]; [intros; lia| | |].
  2:{ left. right. exists 0, e. repeat split; [lia | intros; lia | exact He]. }
  2:{ right. exists 0, it, tot. repeat split; [lia | intros; lia | exact Hp]. }
  destruct (step 1 H1) as [H2|[(e & He)|(it & tot & Hp)]].
  2:{ left. right. exists 1, e. repeat split; [lia | exact H1 | exact He]. }
  2:{ right. exists 1, it, tot. repeat split; [lia | exact H1 | exact Hp]. }
  destruct (step 2 H2) as [H3|[(e & He)|(it & tot & Hp)]].
  - left. left. exact H3.
  - left. right. exists 2, e. repeat split; [lia | exact H2 | exact He].
  - right. exists 2, it, tot. repeat split; [lia | exact H2 | exact Hp].
Qed.

Lemma served_more api sent more items :
  served api sent items -> served api (sent ++ more) items.
Proof.
  intros (n & s & total & Hn & Hp). exists n, s, total. split; [|exact Hp].
  rewrite nth_error_app1; [exact Hn|]. apply nth_error_Some. congruence.
Qed.

(** What has been collected at the head of an iteration is the
    concatenation of pages that were served, in the order of arrival. *)
Lemma reachable_collects api l :
  reachable api l ->
  exists pages,
    all_messages l = List.concat pages /\
    Forall (served api (requests l)) pages.
Proof.
  induction 1 as [|l l' Hr IH Hit].
  - exists []. split; constructor.
  - destruct IH as (pages & Hall & Hsv).
    destruct (page_cases api l) as [Hf|(k & items & total & Hp)].
    + destruct (iteration_fails _ _ Hf) as (j & _ & Hit'). rewrite Hit' in Hit.
      destruct (_ <=? _); [discriminate|]. injection Hit as <-.
      cbn [all_messages requests]. exists pages. split; [exact Hall|].
      eapply Forall_impl; [|exact Hsv]. intros; now apply served_more.
    + pose proof (iteration_arrives _ _ _ _ _ Hp) as Hit'. cbv zeta in Hit'.
      rewrite Hit' in Hit.
      assert (Hs : served api (requests l ++ repeat (skip l) (S k)) items).
      { destruct Hp as (_ & _ & Hp).
        exists (List.length (requests l) + k), (skip l), total.
        split; [|exact Hp].
        rewrite nth_error_app2 by lia.
        replace (List.length (requests l) + k - List.length (requests l))
          with k by lia.
        apply nth_error_repeat. lia. }
      assert (Hmore : Forall (served api (requests l ++ repeat (skip l) (S k)))
                             (pages ++ [items])).
      { apply Forall_app. split.
        - eapply Forall_impl; [|exact Hsv]. intros; now apply served_more.
        - constructor; [exact Hs | constructor]. }
      assert (Hcat : all_messages l ++ items = List.concat (pages ++ [items])).
      { rewrite concat_app, Hall. cbn [List.concat]. now rewrite app_nil_r. }
      destruct items as [|m items]; [discriminate|].
      destruct (total_or_default total) as [t|];
        [destruct (_ <=? _)%Z; [discriminate|]|];
        injection Hit as <-; cbn [all_messages requests];
        exists (pages ++ [m :: items]); split; assumption.
Qed.

Lemma reachable_advance api l l' :
  reachable api l -> iteration api l = Some (Continue l') ->
  reachable api (advance api l).
Proof.
  intros Hr Hit. unfold advance. rewrite Hit. exact (reach_next _ _ _ Hr Hit).
Qed.

Lemma four_failures_reachable : reachable refusing four_failures.
Proof.
  unfold four_failures.
  do 4 (eapply reachable_advance; [|vm_compute; reflexivity]).
  constructor.
Qed.

(** *** The claims on failures *)

(** C3 at the failing input [stalled]: the first page is accepted, with
    its message appended, and yet the iteration ends with the counter at 1
    and the cursor still at 0, because the comparison with a total that is
    not a number raises after the reset.  The fetch then stops after four
    pages given up in a row (cursors 0, 100, 200 and 300), not five, and
    returns the one message.  With the total 2 in the same answer the
    counter is 0 after the first page and the fetch stops after five pages
    given up in a row (cursors 100 to 500). *)
Theorem untyped_total_counts_as_failure :
  (exists l',
     iteration stalled initial = Some (Continue l') /\
     all_messages l' = [lone] /\
     consecutive_failures l' = 1 /\
     skip l' = 0%Z) /\
  (exists l',
     iteration counted initial = Some (Continue l') /\
     all_messages l' = [lone] /\
     consecutive_failures l' = 0 /\
     skip l' = 100%Z) /\
  run 5 stalled
  = Some ([lone],
          (0 :: flat_map (fun s => repeat s 3) [0; 100; 200; 300])%Z) /\
  run 4 stalled = None /\
  run 6 counted
  = Some ([lone],
          (0 :: flat_map (fun s => repeat s 3) [100; 200; 300; 400; 500])%Z)
  /\
  run 5 counted = None.
Proof.
  split; [|split].
  - eexists. split; [vm_compute; reflexivity|]. now repeat split.
  - eexists. split; [vm_compute; reflexivity|]. now repeat split.
  - repeat split; vm_compute; reflexivity.
Qed.

(** When every total is a number: at the head of every iteration the
    consecutive-failure counter is below the ceiling of 5 and the messages
    collected are those of the pages served so far.  A page that is given
    up adds one to the counter and leaves the collected messages as they
    were; when that makes it 5 the fetch returns, with exactly the messages
    collected and with any fuel; otherwise it goes on.  A page that
    succeeds without ending the fetch sets the counter to zero. *)
Theorem consecutive_failure_ceiling api l :
  reachable api l ->
  consecutive_failures l < max_consecutive_failures /\
  (exists pages,
     all_messages l = List.concat pages /\
     Forall (served api (requests l)) pages) /\
  (page_fails api l ->
     (S (consecutive_failures l) = max_consecutive_failures ->
      exists sent, forall fuel,
        fetch_loop (S fuel) api l = Some (all_messages l, sent)) /\
     (S (consecutive_failures l) < max_consecutive_failures ->
      exists l',
        iteration api l = Some (Continue l') /\
        consecutive_failures l' = S (consecutive_failures l) /\
        all_messages l' = all_messages l)) /\
  (forall k items total t,
     page_arrives api l k items total -> items <> [] ->
     total_or_default total = Some t ->
     (Z.of_nat (List.length (all_messages l ++ items)) < t)%Z ->
     exists l',
       iteration api l = Some (Continue l') /\
       consecutive_failures l' = 0 /\
       all_messages l' = all_messages l ++ items).
Proof.
  intro Hr. split; [exact (reachable_below_ceiling _ _ Hr)|].
  split; [exact (reachable_collects _ _ Hr)|]. split.
  - intro Hf. destruct (iteration_fails _ _ Hf) as (j & _ & Hit). split.
    + intro Hc. rewrite Hc, Nat.leb_refl in Hit.
      eexists. intro fuel. apply fetch_loop_return. exact Hit.
    + intro Hc. apply Nat.leb_gt in Hc. rewrite Hc in Hit.
      eexists. split; [exact Hit|]. split; reflexivity.
  - intros k items total t Hp Hne Ht Hlt.
    pose proof (iteration_arrives _ _ _ _ _ Hp) as Hit. cbv zeta in Hit.
    destruct items as [|m items]; [congruence|].
    rewrite Ht in Hit. apply Z.leb_gt in Hlt. rewrite Hlt in Hit.
    eexists. split; [exact Hit|]. split; reflexivity.
Qed.

Lemma consecutive_failure_ceiling_witness :
  reachable refusing four_failures /\
  exists sent, forall fuel,
    fetch_loop (S fuel) refusing four_failures = Some ([], sent).
Proof.
  split; [exact four_failures_reachable|].
  destruct (consecutive_failure_ceiling refusing four_failures
              four_failures_reachable) as (_ & _ & Hf & _).
  apply Hf.
  - left. intros i _. eexists. reflexivity.
  - reflexivity.
Defined.

(** The fifth page given up in a row ends the fetch: no sixth page is
    requested. *)
Lemma fifth_exhaustion_stops : ~ continues_after_exhaustion.
Proof.
  intro H.
  destruct (H refusing four_failures four_failures_reachable)
    as (l' & Hit & _).
  - intros i _. eexists. reflexivity.
  - vm_compute in Hit. discriminate.
Qed.

(** C4 (amended): a page is retried at the same cursor.  If it arrives
    after [k < 3] transient failures, [k + 1] requests were sent for that
    cursor and all its items are appended, so they are part of whatever the
    fetch returns.  If all three attempts fail, three requests were sent for
    that cursor, the counter goes up by exactly one and the cursor by
    [limit]; fetching then goes on with the next page, unless the counter
    has reached the ceiling, in which case the fetch returns. *)
Theorem retry_same_page api l :
  (forall k items total,
     page_arrives api l k items total ->
     (exists f,
        iteration api l = Some f /\
        match f with
        | Return r sent =>
            sent = requests l ++ repeat (skip l) (S k) /\
            r = all_messages l ++ items
        | Continue l' =>
            requests l' = requests l ++ repeat (skip l) (S k) /\
            all_messages l' = all_messages l ++ items
        end) /\
     (forall fuel r sent,
        fetch_loop fuel api l = Some (r, sent) ->
        exists more, r = all_messages l ++ items ++ more)) /\
  (transient api (List.length (requests l)) (skip l) max_retries ->
   (S (consecutive_failures l) < max_consecutive_failures ->
    iteration api l
    = Some (Continue (mkLocals (all_messages l) (skip l + limit)
                        (S (consecutive_failures l)) max_retries false
                        (requests l ++ repeat (skip l) max_retries)))) /\
   (max_consecutive_failures <= S (consecutive_failures l) ->
    iteration api l
    = Some (Return (all_messages l)
                   (requests l ++ repeat (skip l) max_retries)))).
Proof.
  split.
  - intros k items total Hp.
    assert (Hit : exists f,
      iteration api l = Some f /\
      match f with
      | Return r sent =>
          sent = requests l ++ repeat (skip l) (S k) /\
          r = all_messages l ++ items
      | Continue l' =>
          requests l' = requests l ++ repeat (skip l) (S k) /\
          all_messages l' = all_messages l ++ items
      end).
    { pose proof (iteration_arrives _ _ _ _ _ Hp) as Hit. cbv zeta in Hit.
      eexists. split; [exact Hit|].
      destruct items as [|m items]; [now rewrite app_nil_r|].
      destruct (total_or_default total) as [t|];
        [destruct (_ <=? _)%Z|]; split; reflexivity. }
    split; [exact Hit|].
    intros fuel r sent Hrun. destruct Hit as (f & Hit & Hf).
    destruct fuel as [|fuel]; [discriminate|]. simpl in Hrun.
    rewrite Hit in Hrun. destruct f as [r' sent'|l'].
    + injection Hrun as <- <-. exists []. destruct Hf as [_ ->].
      now rewrite app_nil_r.
    + apply fetch_loop_extends in Hrun as [more E]. destruct Hf as [_ Hall].
      exists more. now rewrite E, Hall, app_assoc.
  - intro Htr. pose proof (iteration_exhausted _ _ Htr) as Hit. split.
    + intro Hc. apply Nat.leb_gt in Hc. now rewrite Hc in Hit.
    + intro Hc. apply Nat.leb_le in Hc. now rewrite Hc in Hit.
Qed.

Lemma retry_same_page_witness :
  (page_arrives flaky initial 2 (slice (map sample (seq 0 150)) 0)
                (TotalInt 150) /\
   exists l',
     iteration flaky initial = Some (Continue l') /\
     requests l' = [0; 0; 0]%Z /\ List.length (all_messages l') = 100)
  /\
  (transient refusing 0 0 max_retries /\
   iteration refusing initial
   = Some (Continue (mkLocals [] 100 1 3 false [0; 0; 0]%Z))).
Proof.
  assert (Hp : page_arrives flaky initial 2
                 (slice (map sample (seq 0 150)) 0) (TotalInt 150)).
  { unfold page_arrives. split; [|split].
    - unfold max_retries; lia.
    - intros i Hi. exists "503". cbn [initial requests List.length skip].
      unfold flaky. destruct i as [|[|i]]; [reflexivity | reflexivity | lia].
    - reflexivity. }
  assert (Ht : transient refusing 0 0 max_retries)
    by (intros i _; eexists; reflexivity).
  split.
  - split; [exact Hp|].
    destruct (proj1 (retry_same_page flaky initial) _ _ _ Hp)
      as ((f & Hit & Hf) & _).
    assert (E : iteration flaky initial
                = Some (Continue (advance flaky initial)))
      by (vm_compute; reflexivity).
    rewrite E in Hit. injection Hit as <-.
    exists (advance flaky initial). split; [exact E|].
    split; vm_compute; reflexivity.
  - split; [exact Ht|].
    apply (proj2 (retry_same_page refusing initial) Ht).
    unfold max_consecutive_failures; cbn; lia.
Defined.

(** *** Termination *)

(** Beyond the bound every iteration returns or counts a failure. *)
Lemma fetch_loop_dry api bound : dry_beyond bound api ->
  forall m l,
    (bound < skip l)%Z ->
    max_consecutive_failures - consecutive_failures l <= m ->
    exists fuel res, fetch_loop fuel api l = Some res.
Proof.
  intros Hdry. induction m as [|m IH]; intros l Hs Hm.
  - destruct (page_cases api l) as [Hf|(k & items & total & Hp)].
    + destruct (iteration_fails _ _ Hf) as (j & _ & Hit).
      replace (max_consecutive_failures <=? S (consecutive_failures l))
        with true in Hit by (symmetry; apply Nat.leb_le; lia).
      exists 1. eexists. apply fetch_loop_return. exact Hit.
    + pose proof (iteration_arrives _ _ _ _ _ Hp) as Hit. cbv zeta in Hit.
      destruct Hp as (_ & _ & Hp).
      pose proof (Hdry (List.length (requests l) + k) _ Hs) as Hd.
      rewrite Hp in Hd. destruct items as [|x items]; [|contradiction].
      exists 1. eexists. apply fetch_loop_return. exact Hit.
  - destruct (page_cases api l) as [Hf|(k & items & total & Hp)].
    + destruct (iteration_fails _ _ Hf) as (j & _ & Hit).
      destruct (max_consecutive_failures <=? S (consecutive_failures l)) eqn:C.
      * exists 1. eexists. apply fetch_loop_return. exact Hit.
      * apply Nat.leb_gt in C.
        edestruct IH as (fuel & res & Hrun);
          [| |exists (S fuel), res;
              rewrite (fetch_loop_continue _ _ _ _ Hit); exact Hrun].
        -- cbn [skip]. unfold limit. lia.
        -- cbn [consecutive_failures]. lia.
    + pose proof (iteration_arrives _ _ _ _ _ Hp) as Hit. cbv zeta in Hit.
      destruct Hp as (_ & _ & Hp).
      pose proof (Hdry (List.length (requests l) + k) _ Hs) as Hd.
      rewrite Hp in Hd. destruct items as [|x items]; [|contradiction].
      exists 1. eexists. apply fetch_loop_return. exact Hit.
Qed.

(** Up to the bound every iteration returns or moves the cursor on,
    provided the totals are numbers. *)
Lemma fetch_loop_terminates api bound :
  dry_beyond bound api -> ordered_totals api ->
  forall m l,
    Z.to_nat (bound + 1 - skip l) <= m ->
    exists fuel res, fetch_loop fuel api l = Some res.
Proof.
  intros Hdry Hord. induction m as [|m IH]; intros l Hm.
  - apply (fetch_loop_dry api bound Hdry max_consecutive_failures); lia.
  - destruct (Z_lt_le_dec bound (skip l)) as [Hs|Hs].
    { apply (fetch_loop_dry api bound Hdry max_consecutive_failures); lia. }
    assert (Hnext : forall l', skip l' = (skip l + limit)%Z ->
                    exists fuel res, fetch_loop fuel api l' = Some res).
    { intros l' E. apply IH. rewrite E. unfold limit. lia. }
    destruct (page_cases api l) as [Hf|(k & items & total & Hp)].
    + destruct (iteration_fails _ _ Hf) as (j & _ & Hit).
      destruct (max_consecutive_failures <=? S (consecutive_failures l)).
      * exists 1. eexists. apply fetch_loop_return. exact Hit.
      * edestruct Hnext as (fuel & res & Hrun);
          [|exists (S fuel), res;
            rewrite (fetch_loop_continue _ _ _ _ Hit); exact Hrun].
        reflexivity.
    + pose proof (iteration_arrives _ _ _ _ _ Hp) as Hit. cbv zeta in Hit.
      destruct Hp as (_ & _ & Hp).
      destruct items as [|x items].
      { exists 1. eexists. apply fetch_loop_return. exact Hit. }
      destruct total as [|t|]; [| |elim (Hord _ _ _ Hp)];
        cbn [total_or_default] in Hit.
      * destruct (_ <=? _)%Z.
        -- exists 1. eexists. apply fetch_loop_return. exact Hit.
        -- edestruct Hnext as (fuel & res & Hrun);
             [|exists (S fuel), res;
               rewrite (fetch_loop_continue _ _ _ _ Hit); exact Hrun].
           reflexivity.
      * destruct (_ <=? _)%Z.
        -- exists 1. eexists. apply fetch_loop_return. exact Hit.
        -- edestruct Hnext as (fuel & res & Hrun);
             [|exists (S fuel), res;
               rewrite (fetch_loop_continue _ _ _ _ Hit); exact Hrun].
           reflexivity.
Qed.

(** With totals that are numbers, however inconsistent or decreasing, the
    fetch returns as soon as the source runs dry beyond some cursor. *)
Theorem fetch_terminates_ordered_totals api bound :
  dry_beyond bound api -> ordered_totals api ->
  exists fuel result, fetch_all_messages fuel api = Some result.
Proof.
  intros Hdry Hord.
  destruct (fetch_loop_terminates api bound Hdry Hord
              (Z.to_nat (bound + 1)) initial) as (fuel & [r sent] & Hrun).
  - cbn [skip initial]. lia.
  - exists fuel, r. unfold fetch_all_messages, run. now rewrite Hrun.
Qed.

Lemma fetch_terminates_ordered_totals_witness :
  dry_beyond 0 refusing /\ ordered_totals refusing /\
  exists fuel result, fetch_all_messages fuel refusing = Some result.
Proof.
  assert (Hd : dry_beyond 0 refusing) by (intros n s _; exact I).
  assert (Ho : ordered_totals refusing) by (intros n s items; discriminate).
  split; [exact Hd|]. split; [exact Ho|].
  exact (fetch_terminates_ordered_totals refusing 0 Hd Ho).
Defined.

(** While the cursor is 0 the source [untyped_total] sends the loop round
    again: the page is appended, the comparison with [total] raises inside
    the [try] after [success = True], and the cursor stays where it was. *)
Lemma untyped_total_round l :
  skip l = 0%Z ->
  iteration untyped_total l
  = Some (Continue (mkLocals (all_messages l ++ [sample 0]) 0 1 max_retries
                             true (requests l ++ [0%Z]))).
Proof.
  intro Hs.
  rewrite (iteration_arrives untyped_total l 0 [sample 0] TotalUnordered).
  - cbv zeta. cbn [total_or_default repeat]. now rewrite Hs.
  - unfold page_arrives. split; [unfold max_retries; lia|]. split.
    + intros i Hi; lia.
    + unfold untyped_total. now rewrite Hs.
Qed.

Lemma untyped_total_loops : forall fuel l,
  skip l = 0%Z -> fetch_loop fuel untyped_total l = None.
Proof.
  induction fuel as [|fuel IH]; intros l Hs; [reflexivity|].
  rewrite (fetch_loop_continue _ _ _ _ (untyped_total_round l Hs)).
  now apply IH.
Qed.

(** C9 at the source [untyped_total], which has nothing beyond cursor 0:
    the fetch never returns.  Each iteration requests cursor 0 again and
    appends the same page once more. *)
Theorem untyped_total_never_returns :
  dry_beyond 0 untyped_total /\
  (forall fuel, fetch_all_messages fuel untyped_total = None) /\
  (forall l, skip l = 0%Z ->
     exists l',
       iteration untyped_total l = Some (Continue l') /\
       skip l' = 0%Z /\
       all_messages l' = all_messages l ++ [sample 0] /\
       requests l' = requests l ++ [0%Z]).
Proof.
  split; [|split].
  - intros n s Hs. unfold untyped_total.
    destruct (s =? 0)%Z eqn:E; [apply Z.eqb_eq in E; lia | exact I].
  - intro fuel. unfold fetch_all_messages, run.
    now rewrite untyped_total_loops.
  - intros l Hs. eexists. split; [exact (untyped_total_round l Hs)|].
    repeat split.
Qed.

End Fetch.

(** ** Answer orchestrator *)

Module Llm.

Import Context.

Local Open Scope list_scope.

(** An exception, by what [str(e)] gives. *)
Definition exn := string.

Inductive outcome (A : Type) :=
| Returned (a : A)
| Raised (e : exn).
Arguments Returned {A} a.
Arguments Raised {A} e.

Inductive provider := Groq | Claude | OpenAI.

(** One [create] call as the provider's SDK receives it. *)
Record call := mkCall {
  target : provider;
  model : string;
  system : string;
  user : string
}.

(** A computation that returns or raises, with the provider calls it made,
    oldest first. *)
Definition M (A : Type) : Type := (outcome A * list call)%type.

Definition ret {A} (a : A) : M A := (Returned a, []).

Definition raise {A} (e : exn) : M A := (Raised e, []).

Definition bind {A B} (m : M A) (f : A -> M B) : M B :=
  match m with
  | (Returned a, made) => let (r, made') := f a in (r, made ++ made')
  | (Raised e, made) => (Raised e, made)
  end.

(** [try: body except Exception as e: handler]. *)
Definition try_except {A} (body : M A) (handler : exn -> M A) : M A :=
  match body with
  | (Returned a, made) => (Returned a, made)
  | (Raised e, made) => let (r, made') := handler e in (r, made ++ made')
  end.

Notation "x <- m ;; k" := (bind m (fun x => k))
  (at level 61, m at next level, right associativity).

(** The module-level clients; [None] is Python's [None]. *)
Record clients := mkClients {
  groq_client : option string;
  claude_client : option string;
  openai_client : option string;
  llm_provider : option string
}.

(** Truth value of [os.getenv(..)]: set and not empty. *)
Definition truthy (key : option string) : bool :=
  match key with
  | Some k => Str.nonempty k
  | None => false
  end.

(** The [if]/[elif] chain that initialises the clients. *)
Definition configure (GROQ_API_KEY ANTHROPIC_API_KEY OPENAI_API_KEY
                      : option string) : clients :=
  if truthy GROQ_API_KEY
  then mkClients GROQ_API_KEY None None (Some "groq")
  else if truthy ANTHROPIC_API_KEY
  then mkClients None ANTHROPIC_API_KEY None (Some "claude")
  else if truthy OPENAI_API_KEY
  then mkClients None None OPENAI_API_KEY (Some "openai")
  else mkClients None None None None.

(** The three completion services.  A chat completion is given by the
    [message.content] of its choices ([None] for a null content), a Claude
    message by the [text] of its content blocks. *)
Record services := mkServices {
  groq_create : string -> string -> string -> outcome (list (option string));
  claude_create : string -> string -> string -> outcome (list string);
  openai_create : string -> string -> string -> outcome (list (option string))
}.

Definition call_groq (sv : services) (model system user : string)
  : M (list (option string)) :=
  (groq_create sv model system user, [mkCall Groq model system user]).

Definition call_claude (sv : services) (model system user : string)
  : M (list string) :=
  (claude_create sv model system user, [mkCall Claude model system user]).

Definition call_openai (sv : services) (model system user : string)
  : M (list (option string)) :=
  (openai_create sv model system user, [mkCall OpenAI model system user]).

(** [response.choices[0].message.content.strip()]. *)
Definition first_choice (choices : list (option string)) : M string :=
  match choices with
  | [] => raise "list index out of range"
  | None :: _ => raise "'NoneType' object has no attribute 'strip'"
  | Some content :: _ => ret (Str.strip content)
  end.

(** [message.content[0].text.strip()]. *)
Definition first_block (content : list string) : M string :=
  match content with
  | [] => raise "list index out of range"
  | text :: _ => ret (Str.strip text)
  end.

Definition system_prompt : string :=
  "You are a helpful assistant that answers questions accurately based on the provided context. Be specific and cite user names when relevant.".

Definition user_prompt (context question : string) : string :=
  ("Here are the messages from members:" ++ Str.nl ++ Str.nl
   ++ context ++ Str.nl ++ Str.nl
   ++ "Based on the above messages, please answer the following question. If the information is not available in the messages, say so. Be specific and cite user names when relevant."
   ++ Str.nl ++ Str.nl
   ++ "Question: " ++ question ++ Str.nl ++ Str.nl
   ++ "Answer:")%string.

Definition no_data : string :=
  "I couldn't find any messages to analyze. The data source may be empty.".

Definition no_key : string :=
  "Error: No LLM API key configured. Please set ANTHROPIC_API_KEY or OPENAI_API_KEY environment variable.".

Definition groq_model : string := "llama-3.3-70b-versatile".
Definition openai_model : string := "gpt-3.5-turbo".

Definition model_names : list string :=
  [ "claude-3-5-sonnet-20241022";
    "claude-3-5-sonnet-20240620";
    "claude-3-5-sonnet";
    "claude-3-opus-20240229";
    "claude-3-sonnet-20240229";
    "claude-3-haiku-20240307" ].

(** The body of the [try] under [if groq_client]; both of its [return]s
    leave the function. *)
Definition groq_attempt (sv : services) (question : string)
           (messages : list Message) : M string :=
  let context := format_messages_for_context messages 20000 in
  if Str.nonempty context
  then
    response <- call_groq sv groq_model system_prompt
                          (user_prompt context question) ;;
    first_choice response
  else ret no_data.

(** The [for model_name in model_names] loop: the message of the first
    model that accepts the call, and the last error seen. *)
Fixpoint try_models (sv : services) (system user : string)
         (names : list string) (last_error : option exn)
  : M (option (list string) * option exn) :=
  match names with
  | [] => ret (None, last_error)
  | model_name :: rest =>
      try_except
        (message <- call_claude sv model_name system user ;;
         ret (Some message, last_error))            (* [break] *)
        (fun e => try_models sv system user rest (Some e))
  end.

(** The body of the [try] under [if claude_client]. *)
Definition claude_attempt (sv : services) (user : string) : M string :=
  found <- try_models sv system_prompt user model_names None ;;
  match found with
  | (Some message, _) => first_block message
  | (None, Some last_error) => raise last_error
  | (None, None) => raise "Failed to find a working Claude model"
  end.

(** The body of the [try] under [elif openai_client]. *)
Definition openai_attempt (sv : services) (user : string) : M string :=
  response <- call_openai sv openai_model system_prompt user ;;
  first_choice response.

(** The function from the second context onwards. *)
Definition answer_with_fallbacks (c : clients) (sv : services)
           (question : string) (messages : list Message) : M string :=
  let context := format_messages_for_context messages 100000 in
  if Str.nonempty context
  then
    let user := user_prompt context question in
    match claude_client c with
    | Some _ =>
        try_except (claude_attempt sv user)
          (fun e => ret ("Error generating answer with Claude: " ++ e)%string)
    | None =>
        match openai_client c with
        | Some _ =>
            try_except (openai_attempt sv user)
              (fun e =>
                 ret ("Error generating answer with OpenAI: " ++ e)%string)
        | None => ret no_key
        end
    end
  else ret no_data.

(** [answer_question_with_llm].  The Groq block yields [Some answer] when
    it returns from the function and [None] when its handler lets control
    go on. *)
Definition answer_question_with_llm (c : clients) (sv : services)
           (question : string) (messages : list Message) : M string :=
  returned <-
    match groq_client c with
    | Some _ =>
        try_except
          (answer <- groq_attempt sv question messages ;; ret (Some answer))
          (fun _ => ret None)
    | None => ret None
    end ;;
  match returned with
  | Some answer => ret answer
  | None => answer_with_fallbacks c sv question messages
  end.

(** The budget of the first context the function builds. *)
Definition first_budget (c : clients) : Z :=
  match groq_client c with
  | Some _ => 20000
  | None => 100000
  end.

Definition provider_name (p : provider) : string :=
  match p with
  | Groq => "Groq"
  | Claude => "Claude"
  | OpenAI => "OpenAI"
  end.

Definition configured (c : clients) (p : provider) : bool :=
  match p with
  | Groq => match groq_client c with Some _ => true | None => false end
  | Claude => match claude_client c with Some _ => true | None => false end
  | OpenAI => match openai_client c with Some _ => true | None => false end
  end.

(** Services whose every call raises: Groq with [eg], Claude with [ec],
    OpenAI with [eo]. *)
Definition failing (eg ec eo : exn) : services :=
  mkServices (fun _ _ _ => Raised eg) (fun _ _ _ => Raised ec)
             (fun _ _ _ => Raised eo).

Definition error_of (eg ec eo : exn) (p : provider) : exn :=
  match p with
  | Groq => eg
  | Claude => ec
  | OpenAI => eo
  end.

Definition layla : Message :=
  mkMessage "1" "u1" "Layla" "2024-01-01T10:00:00"
            "I am flying to London next Friday".

(** The providers whose client exists. *)
Definition active (c : clients) : list provider :=
  filter (configured c) [Groq; Claude; OpenAI].

(** The sentence of the specification on total failure, at the clients
    the initialisation produces and with every provider call raising: the
    answer names a configured provider and carries its error. *)
Definition failure_always_named : Prop :=
  forall GROQ_API_KEY ANTHROPIC_API_KEY OPENAI_API_KEY eg ec eo
         question messages,
    let c := configure GROQ_API_KEY ANTHROPIC_API_KEY OPENAI_API_KEY in
    (exists p, configured c p = true) ->
    messages <> [] ->
    exists p answer,
      configured c p = true /\
      fst (answer_question_with_llm c (failing eg ec eo) question messages)
      = Returned answer /\
      Str.contains (provider_name p) answer = true /\
      Str.contains (error_of eg ec eo p) answer = true.

(** *** Facts on the monad *)

Lemma bind_returned {A B} (a : A) (made : list call) (f : A -> M B) :
  bind (Returned a, made) f = (fst (f a), made ++ snd (f a)).
Proof. unfold bind. now destruct (f a). Qed.

Lemma bind_raised {A B} (e : exn) (made : list call) (f : A -> M B) :
  bind (Raised e, made) f = (Raised e, made).
Proof. reflexivity. Qed.

Lemma try_except_raised {A} (e : exn) (made : list call)
      (handler : exn -> M A) :
  try_except (Raised e, made) handler
  = (fst (handler e), made ++ snd (handler e)).
Proof. unfold try_except. now destruct (handler e). Qed.

(** *** Initialisation *)

Lemma configure_at_most_one g a o :
  List.length (active (configure g a o)) <= 1.
Proof.
  unfold configure, active.
  destruct (truthy g) eqn:Hg; [destruct g; [cbn; lia | discriminate]|].
  destruct (truthy a) eqn:Ha; [destruct a; [cbn; lia | discriminate]|].
  destruct (truthy o) eqn:Ho; [destruct o; [cbn; lia | discriminate]|].
  cbn; lia.
Qed.

Lemma configure_groq g a o :
  truthy g = true -> configure g a o = mkClients g None None (Some "groq").
Proof. intro H. unfold configure. now rewrite H. Qed.

Lemma truthy_some g : truthy g = true -> exists k, g = Some k.
Proof. destruct g; [eauto | discriminate]. Qed.

(** *** The attempts *)

(** A Groq attempt that raises has made its one call, on a context that
    was not empty. *)
Lemma groq_attempt_raised sv question messages e made :
  groq_attempt sv question messages = (Raised e, made) ->
  Str.nonempty (format_messages_for_context messages 20000) = true /\
  made = [mkCall Groq groq_model system_prompt
            (user_prompt (format_messages_for_context messages 20000)
                         question)].
Proof.
  unfold groq_attempt.
  destruct (Str.nonempty _); [|discriminate].
  unfold call_groq. destruct (groq_create _ _ _ _) as [choices|e'].
  - rewrite bind_returned.
    destruct choices as [|[content|] rest]; cbn; intro H; injection H as _ <-;
      now split.
  - rewrite bind_raised. intro H; injection H as _ <-. now split.
Qed.

Lemma groq_create_raises sv question messages e :
  Str.nonempty (format_messages_for_context messages 20000) = true ->
  groq_create sv groq_model system_prompt
    (user_prompt (format_messages_for_context messages 20000) question)
  = Raised e ->
  groq_attempt sv question messages
  = (Raised e,
     [mkCall Groq groq_model system_prompt
        (user_prompt (format_messages_for_context messages 20000) question)]).
Proof.
  intros Hc Hr. unfold groq_attempt, call_groq. now rewrite Hc, Hr.
Qed.

Lemma nonempty_true s : Str.nonempty s = true <-> s <> "".
Proof.
  unfold Str.nonempty. rewrite negb_true_iff. apply String.eqb_neq.
Qed.

Lemma nonempty_false s : Str.nonempty s = false <-> s = "".
Proof.
  unfold Str.nonempty. rewrite negb_false_iff. apply String.eqb_eq.
Qed.

(** When every model is refused the loop ends with no message and the
    error of the last model, having called each model once. *)
Lemma try_models_all_raise sv system user (err : string -> exn) :
  forall names last,
    (forall name, In name names ->
       claude_create sv name system user = Raised (err name)) ->
    try_models sv system user names last
    = (Returned (None, fold_left (fun _ name => Some (err name)) names last),
       map (fun name => mkCall Claude name system user) names).
Proof.
  induction names as [|name rest IH]; intros last H; [reflexivity|].
  cbn [try_models fold_left map]. unfold call_claude.
  rewrite (H name) by now left.
  rewrite bind_raised, try_except_raised.
  rewrite IH by (intros n Hn; apply H; now right).
  reflexivity.
Qed.

Lemma claude_attempt_all_raise sv user (err : string -> exn) :
  (forall name, In name model_names ->
     claude_create sv name system_prompt user = Raised (err name)) ->
  claude_attempt sv user
  = (Raised (err "claude-3-haiku-20240307"),
     map (fun name => mkCall Claude name system_prompt user) model_names).
Proof.
  intro H. unfold claude_attempt.
  rewrite (try_models_all_raise _ _ _ err _ _ H).
  rewrite bind_returned. cbn [fold_left model_names fst snd raise].
  now rewrite app_nil_r.
Qed.

(** *** The orchestrator *)

(** The steps after the Groq block never raise. *)
Lemma answer_with_fallbacks_returns c sv question messages :
  exists answer,
    fst (answer_with_fallbacks c sv question messages) = Returned answer.
Proof.
  unfold answer_with_fallbacks.
  destruct (Str.nonempty _); [|eexists; reflexivity].
  destruct (claude_client c).
  - destruct (claude_attempt _ _) as [[a|e] made]; cbn; eauto.
  - destruct (openai_client c); [|eexists; reflexivity].
    destruct (openai_attempt _ _) as [[a|e] made]; cbn; eauto.
Qed.

(** Without a Groq client, or once the Groq attempt has raised, the answer
    is that of the later steps. *)
Lemma answer_after_groq c sv question messages :
  groq_client c = None
  \/ (exists e, fst (groq_attempt sv question messages) = Raised e) ->
  fst (answer_question_with_llm c sv question messages)
  = fst (answer_with_fallbacks c sv question messages).
Proof.
  unfold answer_question_with_llm. intros [Hn|[e He]].
  - rewrite Hn. unfold ret. rewrite bind_returned. reflexivity.
  - destruct (groq_client c).
    + destruct (groq_attempt sv question messages) as [[a|e'] made];
        [discriminate|].
      rewrite bind_raised, try_except_raised. unfold ret at 1.
      cbn [fst snd]. rewrite bind_returned. reflexivity.
    + unfold ret. rewrite bind_returned. reflexivity.
Qed.

(** With all three keys set only the Groq client exists; when its call
    raises, the answer names no provider and carries no error. *)
Lemma groq_failure_unnamed : ~ failure_always_named.
Proof.
  intro H.
  destruct (H (Some "gsk-key") (Some "sk-ant-key") (Some "sk-key")
              "rate limit exceeded" "overloaded" "quota exhausted"
              "When is Layla planning her trip to London?" [layla])
    as (p & answer & Hp & Ha & Hname & Herr).
  - exists Groq. reflexivity.
  - discriminate.
  - vm_compute in Ha. injection Ha as <-.
    destruct p; vm_compute in Hname; discriminate.
Qed.

(** C1 at the failing input: all three keys are set and every provider
    call raises.  The initialisation has created the Groq client only; the
    one call made is the Groq call, its error is dropped, and the answer is
    the text that says that no key is configured, which names no provider
    and carries no error.  Under the same services and without the Groq key
    the answer names Claude and carries its error. *)
Theorem groq_failure_says_no_key :
  let sv := failing "rate limit exceeded" "overloaded" "quota exhausted" in
  let question := "When is Layla planning her trip to London?" in
  let c := configure (Some "gsk-key") (Some "sk-ant-key") (Some "sk-key") in
  active c = [Groq] /\
  answer_question_with_llm c sv question [layla]
  = (Returned no_key,
     [mkCall Groq groq_model system_prompt
        (user_prompt (format_messages_for_context [layla] 20000) question)])
  /\
  Forall (fun p => Str.contains (provider_name p) no_key = false)
         [Groq; Claude; OpenAI] /\
  Str.contains "rate limit exceeded" no_key = false /\
  fst (answer_question_with_llm
         (configure None (Some "sk-ant-key") (Some "sk-key")) sv question
         [layla])
  = Returned "Error generating answer with Claude: overloaded".
Proof.
  intros sv question c. split; [reflexivity|].
  split; [vm_compute; reflexivity|].
  split; [repeat constructor|].
  split; vm_compute; reflexivity.
Qed.

(** The later providers are named.  The orchestrator always returns a
    string and raises nothing.  When the Groq client is absent or its
    attempt has raised, and the context under the budget of 100000 is not
    empty: if a Claude client exists and its attempt raises [e], the answer
    is [Error generating answer with Claude: e]; if there is no Claude
    client, an OpenAI client exists and its attempt raises [e], the answer
    is [Error generating answer with OpenAI: e]. *)
Theorem last_failure_reported c sv question messages :
  (exists answer,
     fst (answer_question_with_llm c sv question messages) = Returned answer)
  /\
  (groq_client c = None
   \/ (exists e, fst (groq_attempt sv question messages) = Raised e) ->
   format_messages_for_context messages 100000 <> "" ->
   let user :=
     user_prompt (format_messages_for_context messages 100000) question in
   (forall e,
      claude_client c <> None ->
      fst (claude_attempt sv user) = Raised e ->
      fst (answer_question_with_llm c sv question messages)
      = Returned ("Error generating answer with Claude: " ++ e)%string) /\
   (forall e,
      claude_client c = None -> openai_client c <> None ->
      fst (openai_attempt sv user) = Raised e ->
      fst (answer_question_with_llm c sv question messages)
      = Returned ("Error generating answer with OpenAI: " ++ e)%string)).
Proof.
  split.
  - unfold answer_question_with_llm.
    destruct (groq_client c).
    + destruct (groq_attempt sv question messages) as [[a|e] made].
      * rewrite bind_returned. cbn. eauto.
      * rewrite bind_raised, try_except_raised. unfold ret at 1.
        cbn [fst snd]. rewrite bind_returned. cbn [fst].
        apply answer_with_fallbacks_returns.
    + unfold ret. rewrite bind_returned. cbn [fst].
      apply answer_with_fallbacks_returns.
  - intros Hg Hc user. rewrite (answer_after_groq _ _ _ _ Hg).
    apply nonempty_true in Hc. unfold answer_with_fallbacks. rewrite Hc.
    fold user. split.
    + intros e Hcl He. destruct (claude_client c); [|congruence].
      destruct (claude_attempt sv user) as [[a|e'] made]; [discriminate|].
      cbn in He. injection He as ->. reflexivity.
    + intros e Hcl Hop He. rewrite Hcl.
      destruct (openai_client c); [|congruence].
      destruct (openai_attempt sv user) as [[a|e'] made]; [discriminate|].
      cbn in He. injection He as ->. reflexivity.
Qed.

Lemma last_failure_reported_witness :
  let c := configure None (Some "sk-ant-key") (Some "sk-key") in
  let sv := failing "rate limit exceeded" "overloaded" "quota exhausted" in
  format_messages_for_context [layla] 100000 <> "" /\
  claude_client c <> None /\
  answer_question_with_llm c sv "When is Layla planning her trip?" [layla]
  = (Returned "Error generating answer with Claude: overloaded",
     map (fun name =>
            mkCall Claude name system_prompt
              (user_prompt (format_messages_for_context [layla] 100000)
                           "When is Layla planning her trip?"))
         model_names).
Proof.
  intros c sv.
  assert (Hctx : format_messages_for_context [layla] 100000 <> "")
    by (vm_compute; discriminate).
  assert (Hcl : claude_client c <> None) by discriminate.
  split; [exact Hctx|]. split; [exact Hcl|].
  pose proof (proj1 (proj2 (last_failure_reported c sv
                "When is Layla planning her trip?" [layla])
              (or_introl eq_refl) Hctx) "overloaded" Hcl eq_refl) as H.
  destruct (answer_question_with_llm c sv _ [layla]) as [r made] eqn:E.
  cbn [fst] in H. rewrite H. f_equal.
  vm_compute in E. injection E as _ <-. vm_compute. reflexivity.
Defined.

(** C6: when the first context the function builds (budget 20000 with a
    Groq client, 100000 without) is the empty string, the answer is the
    fixed no-data message and no provider has been called. *)
Theorem empty_context_short_circuit c sv question messages :
  format_messages_for_context messages (first_budget c) = "" ->
  answer_question_with_llm c sv question messages = (Returned no_data, []).
Proof.
  unfold first_budget, answer_question_with_llm.
  destruct (groq_client c); intro H.
  - unfold groq_attempt. rewrite (proj2 (nonempty_false _) H). reflexivity.
  - unfold ret at 1. rewrite bind_returned. unfold answer_with_fallbacks.
    rewrite (proj2 (nonempty_false _) H). reflexivity.
Qed.

Lemma empty_context_short_circuit_witness :
  let c := configure (Some "gsk-key") None None in
  let sv := failing "rate limit exceeded" "overloaded" "quota exhausted" in
  format_messages_for_context [] (first_budget c) = "" /\
  answer_question_with_llm c sv "How many cars does Vikram Desai have?" []
  = (Returned no_data, []).
Proof.
  intros c sv. split; [reflexivity|].
  apply empty_context_short_circuit. reflexivity.
Defined.

(** C10: the initialisation leaves at most one client.  With a Groq key
    set, a Groq call that raises is the only provider call made, and the
    answer is the fixed string that begins with
    [Error: No LLM API key configured.], in which Groq is not named. *)
Theorem groq_failure_reports_no_key
        (GROQ_API_KEY ANTHROPIC_API_KEY OPENAI_API_KEY : option string) :
  let c := configure GROQ_API_KEY ANTHROPIC_API_KEY OPENAI_API_KEY in
  List.length (active c) <= 1 /\
  (truthy GROQ_API_KEY = true ->
   active c = [Groq] /\
   forall sv question messages e,
     let context := format_messages_for_context messages 20000 in
     context <> "" ->
     groq_create sv groq_model system_prompt (user_prompt context question)
     = Raised e ->
     answer_question_with_llm c sv question messages
     = (Returned no_key,
        [mkCall Groq groq_model system_prompt
                (user_prompt context question)])) /\
  prefix "Error: No LLM API key configured." no_key = true /\
  Str.contains "groq" (Str.lower no_key) = false.
Proof.
  cbv zeta. split; [apply configure_at_most_one|].
  split; [|split; vm_compute; reflexivity].
  intro Hg. rewrite (configure_groq _ _ _ Hg).
  destruct (truthy_some _ Hg) as [k ->]. split; [reflexivity|].
  intros sv question messages e Hc Hr.
  apply nonempty_true in Hc.
  unfold answer_question_with_llm. cbn [groq_client].
  rewrite (groq_create_raises _ _ _ _ Hc Hr).
  rewrite bind_raised, try_except_raised. unfold ret at 1. cbn [fst snd].
  rewrite bind_returned. unfold answer_with_fallbacks.
  replace (Str.nonempty (format_messages_for_context messages 100000))
    with true.
  - cbn [claude_client openai_client]. cbn. reflexivity.
  - symmetry. apply nonempty_true.
    apply (context_nonempty_monotone messages 20000 100000); [lia|].
    now apply nonempty_true.
Qed.

Lemma groq_failure_reports_no_key_witness :
  let sv := failing "rate limit exceeded" "overloaded" "quota exhausted" in
  let question := "When is Layla planning her trip to London?" in
  truthy (Some "gsk-key") = true /\
  format_messages_for_context [layla] 20000 <> "" /\
  answer_question_with_llm
    (configure (Some "gsk-key") (Some "sk-ant-key") (Some "sk-key"))
    sv question [layla]
  = (Returned no_key,
     [mkCall Groq groq_model system_prompt
        (user_prompt (format_messages_for_context [layla] 20000) question)]).
Proof.
  intros sv question.
  assert (Hc : format_messages_for_context [layla] 20000 <> "")
    by (vm_compute; discriminate).
  split; [reflexivity|]. split; [exact Hc|].
  destruct (groq_failure_reports_no_key
              (Some "gsk-key") (Some "sk-ant-key") (Some "sk-key"))
    as (_ & H & _).
  destruct (H eq_refl) as [_ Hrun].
  exact (Hrun sv question [layla] "rate limit exceeded" Hc eq_refl).
Defined.

End Llm.

(** ** Local fallback: keyword search *)

Module Simple.

Local Open Scope list_scope.

(** [list.sort(reverse=True, key=key)]: a stable sort by descending key.
    An element moves past those with a strictly larger key only, so equal
    keys keep their order; [sort_desc_unique] shows that this fixes the
    result. *)
Section Sort.

Context {A : Type} (key : A -> nat).

Fixpoint insert_desc (x : A) (l : list A) : list A :=
  match l with
  | [] => [x]
  | y :: l' => if key x <? key y then y :: insert_desc x l' else x :: l
  end.

Fixpoint sort_desc (l : list A) : list A :=
  match l with
  | [] => []
  | x :: l' => insert_desc x (sort_desc l')
  end.

(** The first element among those of largest key. *)
Fixpoint first_max (l : list A) : option A :=
  match l with
  | [] => None
  | x :: l' =>
      match first_max l' with
      | Some y => if key x <? key y then Some y else Some x
      | None => Some x
      end
  end.

Definition descending : list A -> Prop :=
  StronglySorted (fun a b => key b <= key a).

Definition with_key (n : nat) (l : list A) : list A :=
  filter (fun a => key a =? n) l.

End Sort.

Definition not_found : string :=
  "I couldn't find relevant information in the messages to answer this question.".

Definition found (top_match : Message) : string :=
  ("Based on the messages, I found that " ++ user_name top_match
   ++ " mentioned: '" ++ message top_match
   ++ "' (on " ++ timestamp top_match ++ ")")%string.

(** [[msg.user_name for msg in messages
      if msg.user_name.lower() in question_lower]]. *)
Definition mentioned_users (question_lower : string)
           (messages : list Message) : list string :=
  map user_name
      (filter (fun msg => Str.contains (Str.lower (user_name msg))
                                       question_lower)
              messages).

Definition relevant_messages (question_lower : string)
           (messages : list Message) : list Message :=
  match mentioned_users question_lower messages with
  | [] => messages
  | mentioned =>
      filter (fun msg => existsb (String.eqb (user_name msg)) mentioned)
             messages
  end.

(** [sum(1 for keyword in keywords
         if keyword in msg_lower and len(keyword) > 3)]. *)
Definition matches (keywords : list string) (msg : Message) : nat :=
  let msg_lower := Str.lower (message msg) in
  List.length
    (filter (fun keyword =>
               Str.contains keyword msg_lower && (3 <? length keyword))
            keywords).

(** The loop over [relevant_messages[:50]]. *)
Fixpoint scan (keywords : list string) (candidates : list Message)
  : list (nat * Message) :=
  match candidates with
  | [] => []
  | msg :: rest =>
      let n := matches keywords msg in
      if 0 <? n then (n, msg) :: scan keywords rest
      else scan keywords rest
  end.

Definition keyword_matches (question : string) (messages : list Message)
  : list (nat * Message) :=
  let question_lower := Str.lower question in
  scan (Str.split question_lower)
       (firstn 50 (relevant_messages question_lower messages)).

Definition ranked (question : string) (messages : list Message)
  : list (nat * Message) :=
  sort_desc fst (keyword_matches question messages).

Definition answer_question_simple (question : string)
           (messages : list Message) : string :=
  match ranked question messages with
  | (_, top_match) :: _ => found top_match
  | [] => not_found
  end.

Definition layla (id user_id : string) : Message :=
  mkMessage id user_id "Layla" "2024-01-01T10:00:00"
            "I am flying to London next Friday".

(** The example of the specification as it stands: the answer would
    contain both the name and the message text. *)
Definition layla_example_cited : Prop :=
  let answer :=
    answer_question_simple "When is Layla planning her trip to London?"
                           [layla "1" "u1"] in
  (exists a b, answer = a ++ "Layla" ++ b)%string /\
  (exists a b, answer = a ++ "flying to London next Friday" ++ b)%string.

(** *** The sort *)

Section SortFacts.

Context {A : Type} (key : A -> nat).

Lemma insert_desc_perm (x : A) (l : list A) :
  Permutation (x :: l) (insert_desc key x l).
Proof.
  induction l as [|y l IH]; cbn [insert_desc]; [reflexivity|].
  destruct (key x <? key y); [|reflexivity].
  rewrite perm_swap. now constructor.
Qed.

Lemma sort_desc_perm (l : list A) : Permutation l (sort_desc key l).
Proof.
  induction l as [|x l IH]; cbn [sort_desc]; [constructor|].
  rewrite <- insert_desc_perm. now constructor.
Qed.

Lemma insert_desc_descending (x : A) (l : list A) :
  descending key l -> descending key (insert_desc key x l).
Proof.
  unfold descending. induction 1 as [|y l Hs IH Hall]; cbn [insert_desc].
  - repeat constructor.
  - destruct (key x <? key y) eqn:E.
    + apply Nat.ltb_lt in E. constructor; [exact IH|].
      apply (Permutation_Forall (insert_desc_perm x l)).
      constructor; [lia | exact Hall].
    + apply Nat.ltb_ge in E. constructor; [now constructor|].
      constructor; [exact E|].
      eapply Forall_impl; [|exact Hall]. cbn. intros; lia.
Qed.

Lemma sort_desc_descending (l : list A) : descending key (sort_desc key l).
Proof.
  induction l as [|x l IH]; cbn [sort_desc]; [constructor|].
  now apply insert_desc_descending.
Qed.

Lemma insert_desc_with_key (n : nat) (x : A) (l : list A) :
  with_key key n (insert_desc key x l) = with_key key n (x :: l).
Proof.
  unfold with_key.
  induction l as [|y l IH]; cbn [insert_desc]; [reflexivity|].
  destruct (key x <? key y) eqn:E; [|reflexivity].
  apply Nat.ltb_lt in E. cbn [filter] in *. rewrite IH.
  destruct (key x =? n) eqn:Ex, (key y =? n) eqn:Ey; try reflexivity.
  apply Nat.eqb_eq in Ex, Ey. lia.
Qed.

(** Stability: the elements of any one key stay in their order. *)
Lemma sort_desc_stable (n : nat) (l : list A) :
  with_key key n (sort_desc key l) = with_key key n l.
Proof.
  induction l as [|x l IH]; cbn [sort_desc]; [reflexivity|].
  rewrite insert_desc_with_key. unfold with_key in *. cbn [filter].
  now rewrite IH.
Qed.

Lemma with_key_head (x : A) (l : list A) :
  with_key key (key x) (x :: l) = x :: with_key key (key x) l.
Proof. unfold with_key. cbn [filter]. now rewrite Nat.eqb_refl. Qed.

Lemma with_key_in (n : nat) (x : A) (l : list A) :
  In x (with_key key n l) <-> In x l /\ key x = n.
Proof.
  unfold with_key. rewrite filter_In, Nat.eqb_eq. reflexivity.
Qed.

(** A list sorted by descending key is determined by its elements of each
    key in their order: two stable descending sorts of one list agree. *)
Lemma sort_desc_unique : forall l1 l2 : list A,
  descending key l1 -> descending key l2 ->
  (forall n, with_key key n l1 = with_key key n l2) ->
  l1 = l2.
Proof.
  unfold descending.
  induction l1 as [|x l1 IH]; intros l2 H1 H2 Hk.
  - destruct l2 as [|y l2]; [reflexivity|].
    specialize (Hk (key y)). rewrite with_key_head in Hk. discriminate.
  - destruct l2 as [|y l2];
      [specialize (Hk (key x)); rewrite with_key_head in Hk; discriminate|].
    inversion H1 as [|? ? Hs1 Hall1]; subst.
    inversion H2 as [|? ? Hs2 Hall2]; subst.
    rewrite Forall_forall in Hall1, Hall2.
    assert (Hxy : key x <= key y).
    { assert (Hin : In x (with_key key (key x) (y :: l2))).
      { rewrite <- Hk, with_key_head. now left. }
      apply with_key_in in Hin as [[->|Hin] _]; [lia | now apply Hall2]. }
    assert (Hyx : key y <= key x).
    { assert (Hin : In y (with_key key (key y) (x :: l1))).
      { rewrite Hk, with_key_head. now left. }
      apply with_key_in in Hin as [[->|Hin] _]; [lia | now apply Hall1]. }
    assert (E : key x = key y) by lia.
    pose proof (Hk (key x)) as Hh. unfold with_key in Hh. cbn [filter] in Hh.
    rewrite <- E, Nat.eqb_refl in Hh. injection Hh as <- _.
    f_equal. apply IH; [assumption | assumption |].
    intro n. specialize (Hk n). unfold with_key in *. cbn [filter] in Hk.
    destruct (key x =? n); [now injection Hk | exact Hk].
Qed.

Lemma insert_desc_head (x : A) (l : list A) :
  hd_error (insert_desc key x l)
  = match hd_error l with
    | Some y => if key x <? key y then Some y else Some x
    | None => Some x
    end.
Proof.
  destruct l as [|y l]; cbn [insert_desc hd_error]; [reflexivity|].
  now destruct (key x <? key y).
Qed.

(** The sorted list starts with the first element of largest key. *)
Lemma sort_desc_head (l : list A) :
  hd_error (sort_desc key l) = first_max key l.
Proof.
  induction l as [|x l IH]; cbn [sort_desc first_max]; [reflexivity|].
  now rewrite insert_desc_head, IH.
Qed.

(** [first_max] is the first element of largest key: all before it have a
    smaller key, none after it has a larger one. *)
Lemma first_max_spec : forall (l : list A) (x : A),
  first_max key l = Some x ->
  exists before after,
    l = before ++ x :: after /\
    Forall (fun y => key y < key x) before /\
    Forall (fun y => key y <= key x) after.
Proof.
  induction l as [|z l IH]; intros x; cbn [first_max]; [discriminate|].
  destruct (first_max key l) as [y|] eqn:E.
  - destruct (IH y eq_refl) as (before & after & -> & Hb & Ha).
    destruct (key z <? key y) eqn:C; intro H; injection H as <-.
    + apply Nat.ltb_lt in C. exists (z :: before), after.
      repeat split; [now constructor | exact Ha].
    + apply Nat.ltb_ge in C. exists [], (before ++ y :: after).
      repeat split; [constructor|].
      apply Forall_app. split.
      * eapply Forall_impl; [|exact Hb]. cbn; intros; lia.
      * constructor; [exact C|].
        eapply Forall_impl; [|exact Ha]. cbn; intros; lia.
  - intro H; injection H as <-. destruct l as [|w l].
    + exists [], []. repeat split; constructor.
    + cbn [first_max] in E. destruct (first_max key l) as [y|];
        [destruct (key w <? key y)|]; discriminate.
Qed.

Lemma first_max_none (l : list A) : first_max key l = None -> l = [].
Proof.
  destruct l as [|x l]; [reflexivity|]. cbn [first_max].
  destruct (first_max key l) as [y|]; [destruct (key x <? key y)|];
    discriminate.
Qed.

End SortFacts.

(** *** The answer *)

Lemma answer_by_first_max question messages :
  answer_question_simple question messages
  = match first_max fst (keyword_matches question messages) with
    | Some (_, top_match) => found top_match
    | None => not_found
    end.
Proof.
  unfold answer_question_simple, ranked.
  rewrite <- sort_desc_head.
  now destruct (sort_desc fst (keyword_matches question messages))
    as [|[n top] rest].
Qed.

(** Every candidate scanned has at least one match. *)
Lemma scan_positive keywords candidates :
  Forall (fun c => 0 < fst c) (scan keywords candidates).
Proof.
  induction candidates as [|msg rest IH]; cbn [scan]; [constructor|].
  destruct (0 <? matches keywords msg) eqn:E; [|exact IH].
  constructor; [|exact IH]. now apply Nat.ltb_lt in E.
Qed.

(** C8: the answer is a function of the question and the messages.  The
    candidates are ranked by descending match count with ties in their
    input order: the ranking is a permutation of the candidates, descending,
    keeps the candidates of each count in order, and is the only list that
    does so.  The answer cites the first candidate of largest count, and is
    the fixed not-found message when there is no candidate. *)
Theorem answer_question_simple_deterministic question messages :
  (forall question' messages',
     question' = question -> messages' = messages ->
     answer_question_simple question' messages'
     = answer_question_simple question messages) /\
  Permutation (keyword_matches question messages) (ranked question messages)
  /\
  descending fst (ranked question messages) /\
  (forall n, with_key fst n (ranked question messages)
             = with_key fst n (keyword_matches question messages)) /\
  (forall other,
     descending fst other ->
     (forall n, with_key fst n other
                = with_key fst n (keyword_matches question messages)) ->
     other = ranked question messages) /\
  match keyword_matches question messages with
  | [] => answer_question_simple question messages = not_found
  | _ :: _ =>
      exists before n top_match after,
        keyword_matches question messages
        = before ++ (n, top_match) :: after /\
        Forall (fun c => fst c < n) before /\
        Forall (fun c => fst c <= n) after /\
        answer_question_simple question messages = found top_match
  end.
Proof.
  split; [intros ? ? -> ->; reflexivity|].
  split; [apply sort_desc_perm|].
  split; [apply sort_desc_descending|].
  split; [intro n; apply sort_desc_stable|].
  split.
  - intros other Hd Hk. apply (sort_desc_unique fst); [exact Hd| |].
    + apply sort_desc_descending.
    + intro n. unfold ranked. now rewrite Hk, sort_desc_stable.
  - rewrite answer_by_first_max.
    destruct (keyword_matches question messages) as [|c rest] eqn:E;
      [reflexivity|].
    destruct (first_max fst (c :: rest)) as [[n top]|] eqn:F.
    + destruct (first_max_spec fst _ _ F) as (before & after & El & Hb & Ha).
      exists before, n, top, after. now repeat split.
    + apply first_max_none in F. discriminate.
Qed.

Lemma answer_question_simple_deterministic_witness :
  let question := "When is Layla planning her trip to London" in
  let messages :=
    [ mkMessage "1" "u1" "Layla" "2024-01-02T09:00:00" "London is lovely";
      layla "2" "u1";
      mkMessage "3" "u2" "Amira" "2024-01-03T09:00:00" "My trip to London" ]
  in
  question = question /\ messages = messages /\
  answer_question_simple question messages
  = found (mkMessage "1" "u1" "Layla" "2024-01-02T09:00:00"
                     "London is lovely").
Proof.
  intros question messages. split; [reflexivity|]. split; [reflexivity|].
  etransitivity;
    [exact (proj1 (answer_question_simple_deterministic question messages)
                  question messages eq_refl eq_refl)|].
  vm_compute. reflexivity.
Defined.

(** The token [london?] keeps its question mark and occurs nowhere in the
    message, so nothing matches. *)
Lemma layla_example_not_cited : ~ layla_example_cited.
Proof.
  intros [Hname _]. apply Str.contains_spec in Hname.
  vm_compute in Hname. discriminate.
Qed.

(** C7 (amended): for the single message of Layla and the question
    [When is Layla planning her trip to London?] the keywords are the
    whitespace-separated tokens, the last of them [london?]; no token longer
    than three characters occurs in the message and the answer is the fixed
    not-found message.  For the same question without the question mark the
    answer cites the message and contains both [Layla] and
    [flying to London next Friday]. *)
Theorem layla_example (id user_id : string) :
  Str.split (Str.lower "When is Layla planning her trip to London?")
  = ["when"; "is"; "layla"; "planning"; "her"; "trip"; "to"; "london?"] /\
  answer_question_simple "When is Layla planning her trip to London?"
                         [layla id user_id]
  = not_found /\
  let answer :=
    answer_question_simple "When is Layla planning her trip to London"
                           [layla id user_id] in
  answer = found (layla id user_id) /\
  (exists a b, answer = a ++ "Layla" ++ b)%string /\
  (exists a b, answer = a ++ "flying to London next Friday" ++ b)%string.
Proof.
  split; [vm_compute; reflexivity|].
  split; [vm_compute; reflexivity|].
  cbv zeta.
  assert (E : answer_question_simple
                "When is Layla planning her trip to London" [layla id user_id]
              = found (layla id user_id)) by (vm_compute; reflexivity).
  rewrite E. split; [reflexivity|].
  split; apply Str.contains_spec; vm_compute; reflexivity.
Qed.

End Simple.

(** ** More on the orchestrator: order of the attempts and the calls made *)

Module Orchestration.

Import Context Llm.

Local Open Scope list_scope.

Definition claude_call (user model_name : string) : call :=
  mkCall Claude model_name system_prompt user.

Definition groq_call (question : string) (messages : list Message) : call :=
  mkCall Groq groq_model system_prompt
    (user_prompt (format_messages_for_context messages 20000) question).

(** The user prompt of the Claude and OpenAI attempts. *)
Definition later_prompt (question : string) (messages : list Message)
  : string :=
  user_prompt (format_messages_for_context messages 100000) question.

(** The function returns and never raises. *)
Lemma answer_returns c sv question messages :
  exists answer,
    fst (answer_question_with_llm c sv question messages) = Returned answer.
Proof.
  unfold answer_question_with_llm.
  destruct (groq_client c).
  - destruct (groq_attempt sv question messages) as [[a|e] made].
    + rewrite bind_returned. cbn. eauto.
    + rewrite bind_raised, try_except_raised. unfold ret at 1.
      cbn [fst snd]. rewrite bind_returned. cbn [fst].
      apply answer_with_fallbacks_returns.
  - unfold ret. rewrite bind_returned. cbn [fst].
    apply answer_with_fallbacks_returns.
Qed.

(** The model loop stops at the first model that accepts the call. *)
Lemma try_models_first_accepting sv system user (err : string -> exn)
      (accepted : string) (later : list string) (content : list string) :
  forall (refused : list string) (last : option exn),
    (forall name, In name refused ->
       claude_create sv name system user = Raised (err name)) ->
    claude_create sv accepted system user = Returned content ->
    try_models sv system user (refused ++ accepted :: later) last
    = (Returned (Some content,
                 fold_left (fun _ name => Some (err name)) refused last),
       map (fun name => mkCall Claude name system user)
           (refused ++ [accepted])).
Proof.
  induction refused as [|name refused IH]; intros last Href Hacc.
  - cbn [app try_models fold_left map]. unfold call_claude. rewrite Hacc.
    reflexivity.
  - cbn [app try_models fold_left map]. unfold call_claude.
    rewrite (Href name) by now left.
    rewrite bind_raised, try_except_raised.
    rewrite IH by (try assumption; intros n Hn; apply Href; now right).
    reflexivity.
Qed.

(** Every call of the model loop goes to Claude, one per model at most. *)
Lemma try_models_calls sv system user : forall names last,
  Forall (fun made => target made = Claude)
         (snd (try_models sv system user names last)) /\
  List.length (snd (try_models sv system user names last))
  <= List.length names.
Proof.
  induction names as [|name names IH]; intros last.
  - cbn. split; [constructor | lia].
  - cbn [try_models]. unfold call_claude.
    destruct (claude_create sv name system user) as [content|e].
    + cbn. split; [repeat constructor | lia].
    + rewrite bind_raised, try_except_raised. cbn [snd].
      destruct (IH (Some e)) as [Hall Hlen]. split.
      * constructor; [reflexivity | exact Hall].
      * cbn [List.length app]. lia.
Qed.

Lemma claude_attempt_calls sv user :
  Forall (fun made => target made = Claude) (snd (claude_attempt sv user)) /\
  List.length (snd (claude_attempt sv user)) <= 6.
Proof.
  unfold claude_attempt.
  destruct (try_models_calls sv system_prompt user model_names None)
    as [Hall Hlen].
  destruct (try_models sv system_prompt user model_names None)
    as [[[[content|] last]|e] made]; cbn [snd] in *.
  - rewrite bind_returned. cbn [snd].
    destruct content as [|text rest]; cbn [first_block raise ret snd];
      rewrite app_nil_r; split; [exact Hall | exact Hlen
                               | exact Hall | exact Hlen].
  - rewrite bind_returned. cbn [snd].
    destruct last; cbn [raise snd]; rewrite app_nil_r;
      split; [exact Hall | exact Hlen | exact Hall | exact Hlen].
  - rewrite bind_raised. cbn [snd]. split; [exact Hall | exact Hlen].
Qed.

Lemma groq_attempt_calls sv question messages :
  Forall (fun made => target made = Groq)
         (snd (groq_attempt sv question messages)) /\
  List.length (snd (groq_attempt sv question messages)) <= 1.
Proof.
  unfold groq_attempt. destruct (Str.nonempty _).
  - unfold call_groq. destruct (groq_create _ _ _ _) as [choices|e].
    + rewrite bind_returned.
      destruct choices as [|[content|] rest]; cbn;
        (split; [repeat constructor | lia]).
    + rewrite bind_raised. cbn. split; [repeat constructor | lia].
  - cbn. split; [constructor | lia].
Qed.

Lemma openai_attempt_calls sv user :
  Forall (fun made => target made = OpenAI) (snd (openai_attempt sv user)) /\
  List.length (snd (openai_attempt sv user)) <= 1.
Proof.
  unfold openai_attempt, call_openai.
  destruct (openai_create _ _ _ _) as [choices|e].
  - rewrite bind_returned.
    destruct choices as [|[content|] rest]; cbn;
      (split; [repeat constructor | lia]).
  - rewrite bind_raised. cbn. split; [repeat constructor | lia].
Qed.

Lemma run_no_groq c sv question messages :
  groq_client c = None ->
  answer_question_with_llm c sv question messages
  = answer_with_fallbacks c sv question messages.
Proof.
  intro Hg. unfold answer_question_with_llm. rewrite Hg.
  unfold ret at 1. rewrite bind_returned. cbn [app].
  now destruct (answer_with_fallbacks c sv question messages).
Qed.

Lemma run_groq_returned c sv question messages key answer made :
  groq_client c = Some key ->
  groq_attempt sv question messages = (Returned answer, made) ->
  answer_question_with_llm c sv question messages = (Returned answer, made).
Proof.
  intros Hg Ha. unfold answer_question_with_llm. rewrite Hg, Ha.
  rewrite bind_returned. cbn. now rewrite !app_nil_r.
Qed.

Lemma run_groq_raised c sv question messages key e made :
  groq_client c = Some key ->
  groq_attempt sv question messages = (Raised e, made) ->
  answer_question_with_llm c sv question messages
  = (fst (answer_with_fallbacks c sv question messages),
     made ++ snd (answer_with_fallbacks c sv question messages)).
Proof.
  intros Hg Ha. unfold answer_question_with_llm. rewrite Hg, Ha.
  rewrite bind_raised, try_except_raised. unfold ret at 1.
  cbn [fst snd]. rewrite bind_returned. now rewrite app_nil_r.
Qed.

(** The calls a run may make, given the clients: only to providers whose
    client exists, and not to OpenAI when there is a Claude client. *)
Definition allowed (c : clients) (made : call) : Prop :=
  configured c (target made) = true /\
  (claude_client c <> None -> target made <> OpenAI).

Lemma fallbacks_calls c sv question messages :
  Forall (allowed c) (snd (answer_with_fallbacks c sv question messages)) /\
  List.length (snd (answer_with_fallbacks c sv question messages)) <= 6.
Proof.
  unfold answer_with_fallbacks.
  destruct (Str.nonempty _); [|cbn; split; [constructor | lia]].
  destruct (claude_client c) as [k|] eqn:Hc.
  - destruct (claude_attempt_calls sv
                (user_prompt (format_messages_for_context messages 100000)
                             question)) as [Hall Hlen].
    destruct (claude_attempt sv _) as [[a|e] made]; cbn [snd] in *.
    + cbn [try_except snd]. split; [|exact Hlen].
      eapply Forall_impl; [|exact Hall]. intros m Hm. split.
      * rewrite Hm. cbn. now rewrite Hc.
      * intros _. rewrite Hm. discriminate.
    + rewrite try_except_raised. cbn [ret snd]. rewrite app_nil_r.
      split; [|exact Hlen].
      eapply Forall_impl; [|exact Hall]. intros m Hm. split.
      * rewrite Hm. cbn. now rewrite Hc.
      * intros _. rewrite Hm. discriminate.
  - destruct (openai_client c) as [k|] eqn:Ho;
      [|cbn; split; [constructor | lia]].
    destruct (openai_attempt_calls sv
                (user_prompt (format_messages_for_context messages 100000)
                             question)) as [Hall Hlen].
    destruct (openai_attempt sv _) as [[a|e] made]; cbn [snd] in *.
    + cbn [try_except snd]. split; [|lia].
      eapply Forall_impl; [|exact Hall]. intros m Hm. split.
      * rewrite Hm. cbn. now rewrite Ho.
      * intro H. now elim H.
    + rewrite try_except_raised. cbn [ret snd]. rewrite app_nil_r.
      split; [|lia].
      eapply Forall_impl; [|exact Hall]. intros m Hm. split.
      * rewrite Hm. cbn. now rewrite Ho.
      * intro H. now elim H.
Qed.

(** X8: whatever the services do, a run calls only providers whose client
    exists, never calls OpenAI when a Claude client exists, and makes at
    most seven calls: one to Groq and one per Claude model, or one to Groq
    and one to OpenAI. *)
Theorem provider_calls_disciplined c sv question messages :
  let made := snd (answer_question_with_llm c sv question messages) in
  Forall (fun m => configured c (target m) = true) made /\
  (claude_client c <> None -> Forall (fun m => target m <> OpenAI) made) /\
  List.length made <= 7.
Proof.
  cbv zeta.
  assert (H : Forall (allowed c)
                (snd (answer_question_with_llm c sv question messages)) /\
              List.length
                (snd (answer_question_with_llm c sv question messages)) <= 7).
  { destruct (fallbacks_calls c sv question messages) as [Hf Hflen].
    destruct (groq_client c) as [k|] eqn:Hg.
    - destruct (groq_attempt_calls sv question messages) as [Hall Hlen].
      assert (Hgroq : Forall (allowed c)
                        (snd (groq_attempt sv question messages))).
      { eapply Forall_impl; [|exact Hall]. intros m Hm. split.
        - rewrite Hm. cbn. now rewrite Hg.
        - intros _. rewrite Hm. discriminate. }
      destruct (groq_attempt sv question messages) as [[a|e] made] eqn:Ha;
        cbn [snd] in *.
      + rewrite (run_groq_returned _ _ _ _ _ _ _ Hg Ha). cbn [snd].
        split; [exact Hgroq | lia].
      + rewrite (run_groq_raised _ _ _ _ _ _ _ Hg Ha). cbn [snd]. split.
        * apply Forall_app. now split.
        * rewrite length_app. lia.
    - rewrite (run_no_groq _ _ _ _ Hg). split; [exact Hf | lia]. }
  destruct H as [Hall Hlen]. split; [|split; [|exact Hlen]].
  - eapply Forall_impl; [|exact Hall]. intros m [Hm _]. exact Hm.
  - intro Hc. eapply Forall_impl; [|exact Hall]. intros m [_ Hm]. now apply Hm.
Qed.

Lemma provider_calls_disciplined_witness :
  let c := mkClients None (Some "sk-ant-key") (Some "sk-key") None in
  let sv := failing "rate limit exceeded" "overloaded" "quota exhausted" in
  claude_client c <> None /\
  Forall (fun m => target m <> OpenAI)
         (snd (answer_question_with_llm c sv "Who flies to London?" [layla])).
Proof.
  intros c sv.
  assert (Hc : claude_client c <> None) by discriminate.
  split; [exact Hc|].
  exact (proj1 (proj2 (provider_calls_disciplined c sv
                         "Who flies to London?" [layla])) Hc).
Defined.

(** X9: with a Groq client and a context that is not empty, a Groq
    completion whose first choice has a content ends the run: the answer is
    that content stripped, the Groq call is the only call, and the other
    clients play no part. *)
Theorem groq_answer_ends_run c sv question messages key content rest :
  groq_client c = Some key ->
  format_messages_for_context messages 20000 <> "" ->
  groq_create sv groq_model system_prompt
    (user_prompt (format_messages_for_context messages 20000) question)
  = Returned (Some content :: rest) ->
  answer_question_with_llm c sv question messages
  = (Returned (Str.strip content), [groq_call question messages]).
Proof.
  intros Hg Hctx Hok. apply nonempty_true in Hctx.
  unfold answer_question_with_llm, groq_attempt, call_groq.
  rewrite Hg, Hctx, Hok. reflexivity.
Qed.

Definition groq_answers (content : string) : services :=
  mkServices (fun _ _ _ => Returned [Some content])
             (fun _ _ _ => Raised "overloaded")
             (fun _ _ _ => Raised "quota exhausted").

Lemma groq_answer_ends_run_witness :
  let c := configure (Some "gsk-key") (Some "sk-ant-key") None in
  let sv := groq_answers "  Layla flies next Friday. " in
  groq_client c = Some "gsk-key" /\
  format_messages_for_context [layla] 20000 <> "" /\
  answer_question_with_llm c sv "When does Layla fly?" [layla]
  = (Returned "Layla flies next Friday.",
     [groq_call "When does Layla fly?" [layla]]).
Proof.
  intros c sv.
  assert (Hctx : format_messages_for_context [layla] 20000 <> "")
    by (vm_compute; discriminate).
  split; [reflexivity|]. split; [exact Hctx|].
  exact (groq_answer_ends_run c sv "When does Layla fly?" [layla]
           "gsk-key" "  Layla flies next Friday. " [] eq_refl Hctx eq_refl).
Defined.

(** X10: without a Groq client and with a Claude client, the models are
    tried in the order of [model_names]; the first that accepts the call
    gives the answer (the stripped text of its first content block, or the
    Claude error text for an empty content), and no later model is called. *)
Theorem claude_first_accepting_model
        c sv question messages refused accepted later err content :
  groq_client c = None -> claude_client c <> None ->
  format_messages_for_context messages 100000 <> "" ->
  model_names = refused ++ accepted :: later ->
  (forall name, In name refused ->
     claude_create sv name system_prompt (later_prompt question messages)
     = Raised (err name)) ->
  claude_create sv accepted system_prompt (later_prompt question messages)
  = Returned content ->
  answer_question_with_llm c sv question messages
  = (Returned
       match content with
       | text :: _ => Str.strip text
       | [] => "Error generating answer with Claude: list index out of range"
       end,
     map (claude_call (later_prompt question messages))
         (refused ++ [accepted])).
Proof.
  intros Hg Hc Hctx Hnames Href Hacc. apply nonempty_true in Hctx.
  unfold answer_question_with_llm. rewrite Hg.
  unfold ret at 1. rewrite bind_returned. cbn [fst snd app].
  unfold answer_with_fallbacks. rewrite Hctx.
  destruct (claude_client c); [|congruence].
  fold (later_prompt question messages).
  unfold claude_attempt. rewrite Hnames.
  rewrite (try_models_first_accepting _ _ _ err _ _ _ _ _ Href Hacc).
  rewrite bind_returned. destruct content as [|text rest].
  - cbn [first_block raise fst snd]. rewrite try_except_raised.
    cbn [ret fst snd]. now rewrite !app_nil_r.
  - cbn [first_block ret fst snd try_except]. now rewrite app_nil_r.
Qed.

Definition opus_only (text : string) : services :=
  mkServices (fun _ _ _ => Raised "rate limit exceeded")
             (fun model_name _ _ =>
                if (model_name =? "claude-3-opus-20240229")%string
                then Returned [text]
                else Raised ("not_found: " ++ model_name)%string)
             (fun _ _ _ => Raised "quota exhausted").

Lemma claude_first_accepting_model_witness :
  let c := configure None (Some "sk-ant-key") None in
  let sv := opus_only " Next Friday. " in
  let question := "When does Layla fly?" in
  format_messages_for_context [layla] 100000 <> "" /\
  answer_question_with_llm c sv question [layla]
  = (Returned "Next Friday.",
     map (claude_call (later_prompt question [layla]))
         ["claude-3-5-sonnet-20241022"; "claude-3-5-sonnet-20240620";
          "claude-3-5-sonnet"; "claude-3-opus-20240229"]).
Proof.
  intros c sv question.
  assert (Hctx : format_messages_for_context [layla] 100000 <> "")
    by (vm_compute; discriminate).
  split; [exact Hctx|].
  refine (claude_first_accepting_model c sv question [layla]
            ["claude-3-5-sonnet-20241022"; "claude-3-5-sonnet-20240620";
             "claude-3-5-sonnet"]
            "claude-3-opus-20240229"
            ["claude-3-sonnet-20240229"; "claude-3-haiku-20240307"]
            (fun name => ("not_found: " ++ name)%string) [" Next Friday. "]
            eq_refl _ Hctx eq_refl _ eq_refl).
  - discriminate.
  - intros name [<-|[<-|[<-|[]]]]; reflexivity.
Defined.

End Orchestration.

(** ** The endpoints: [/stats], [/ask], [/health] *)

Module Service.

Import Llm.

Local Open Scope list_scope.

(** The dict [users] of [stats]: names to counts, in insertion order. *)
Definition counts := list (string * nat).

(** [users[name]], [None] standing for a [KeyError]. *)
Fixpoint dict_get (users : counts) (name : string) : option nat :=
  match users with
  | [] => None
  | (k, v) :: rest => if (k =? name)%string then Some v else dict_get rest name
  end.

(** [name in users]. *)
Definition dict_has (users : counts) (name : string) : bool :=
  match dict_get users name with
  | Some _ => true
  | None => false
  end.

(** [users[name] = v]: in place for a key that exists, at the end for a new
    one. *)
Fixpoint dict_set (users : counts) (name : string) (v : nat) : counts :=
  match users with
  | [] => [(name, v)]
  | (k, w) :: rest =>
      if (k =? name)%string then (k, v) :: rest
      else (k, w) :: dict_set rest name v
  end.

(** [str(KeyError(name))], for a name that [repr] leaves as it is. *)
Definition key_error (name : string) : exn := ("'" ++ name ++ "'")%string.

(** The body of the [for msg in messages] loop of [stats]. *)
Definition count_user (users : counts) (msg : Message) : outcome counts :=
  let users1 :=
    if negb (dict_has users (user_name msg))
    then dict_set users (user_name msg) 0
    else users in
  match dict_get users1 (user_name msg) with
  | Some n => Returned (dict_set users1 (user_name msg) (n + 1))
  | None => Raised (key_error (user_name msg))
  end.

Fixpoint count_users (users : counts) (messages : list Message)
  : outcome counts :=
  match messages with
  | [] => Returned users
  | msg :: rest =>
      match count_user users msg with
      | Returned users' => count_users users' rest
      | Raised e => Raised e
      end
  end.

(** The JSON object [stats] returns. *)
Inductive stats_response :=
| Stats (total_messages unique_users : nat) (users : counts)
| StatsError (error : string).

(** [stats], with the cursors it requested; [None] when the fetch is still
    going after [fuel] iterations. *)
Definition stats (fuel : nat) (api : Fetch.oracle)
  : option (stats_response * list Z) :=
  match Fetch.run fuel api with
  | None => None
  | Some (messages, sent) =>
      Some (match count_users [] messages with
            | Returned users =>
                Stats (List.length messages) (List.length users) users
            | Raised e => StatsError e
            end, sent)
  end.

(** The names of a list in the order of their first appearance. *)
Definition first_seen (names : list string) : list string :=
  fold_left (fun seen name =>
               if existsb (String.eqb name) seen then seen
               else seen ++ [name])
            names [].

Definition occurrences (names : list string) (name : string) : nat :=
  count_occ string_dec names name.

(** What an endpoint sends back. *)
Inductive http_response :=
| OK (answer : string)
| HTTPException (status_code : nat) (detail : string).

(** [groq_client or claude_client or openai_client]. *)
Definition any_client (c : clients) : bool :=
  configured c Groq || configured c Claude || configured c OpenAI.

(** [ask_question]: the response, the cursors requested from the message
    source and the provider calls made; [None] when the fetch is still
    going after [fuel] iterations. *)
Definition ask_question (fuel : nat) (api : Fetch.oracle) (c : clients)
           (sv : services) (question : string)
  : option (http_response * list Z * list call) :=
  if negb (Str.nonempty question) || negb (Str.nonempty (Str.strip question))
  then Some (HTTPException 400 "Question parameter is required", [], [])
  else
    match Fetch.run fuel api with
    | None => None
    | Some ([], sent) =>
        Some (OK "No messages found in the data source.", sent, [])
    | Some (messages, sent) =>
        if any_client c
        then
          match answer_question_with_llm c sv question messages with
          | (Returned answer, made) => Some (OK answer, sent, made)
          | (Raised e, made) =>
              Some (HTTPException 500
                      ("Error processing question: " ++ e)%string,
                    sent, made)
          end
        else
          Some (OK (Simple.answer_question_simple question messages),
                sent, [])
    end.

(** [ask_question_post]: the same handler on [request.question]. *)
Definition ask_question_post (fuel : nat) (api : Fetch.oracle) (c : clients)
           (sv : services) (request_question : string) :=
  ask_question fuel api c sv request_question.

(** The JSON object [health] returns. *)
Record health_response := mkHealth {
  status : string;
  reported_provider : string;
  groq_configured : bool;
  claude_configured : bool;
  openai_configured : bool
}.

Definition health (c : clients) : health_response :=
  mkHealth "healthy"
           match llm_provider c with
           | Some name => if Str.nonempty name then name else "none"
           | None => "none"
           end
           (configured c Groq) (configured c Claude) (configured c OpenAI).

(** A string made of whitespace only (the empty string included). *)
Fixpoint blank (s : string) : bool :=
  match s with
  | EmptyString => true
  | String ch rest => Str.isspace ch && blank rest
  end.

(** A small data set with two authors. *)
Definition crowd : list Message :=
  [ mkMessage "1" "u1" "Layla" "2024-01-01T10:00:00"
              "I am flying to London next Friday";
    mkMessage "2" "u2" "Amira" "2024-01-02T11:30:00"
              "Dinner at the new restaurant was lovely";
    mkMessage "3" "u1" "Layla" "2024-01-03T08:15:00"
              "Please book a car for the airport" ].

(** *** The dict operations *)

Lemma dict_get_set_same users name v :
  dict_get (dict_set users name v) name = Some v.
Proof.
  induction users as [|[k w] rest IH]; cbn [dict_set dict_get].
  - now rewrite String.eqb_refl.
  - destruct (k =? name)%string eqn:E; cbn [dict_get]; rewrite E;
      [reflexivity | exact IH].
Qed.

Lemma dict_get_set_other users name v other :
  name <> other ->
  dict_get (dict_set users name v) other = dict_get users other.
Proof.
  intro Hne. induction users as [|[k w] rest IH]; cbn [dict_set dict_get].
  - now rewrite (proj2 (String.eqb_neq name other) Hne).
  - destruct (k =? name)%string eqn:E; cbn [dict_get].
    + apply String.eqb_eq in E. subst k.
      now rewrite (proj2 (String.eqb_neq name other) Hne).
    + now rewrite IH.
Qed.

Lemma dict_has_keys users name :
  existsb (String.eqb name) (map fst users) = dict_has users name.
Proof.
  unfold dict_has.
  induction users as [|[k w] rest IH]; cbn [map fst existsb dict_get];
    [reflexivity|].
  rewrite String.eqb_sym. destruct (k =? name)%string; [reflexivity|].
  exact IH.
Qed.

Lemma dict_set_keys users name v :
  map fst (dict_set users name v)
  = if dict_has users name then map fst users else map fst users ++ [name].
Proof.
  unfold dict_has.
  induction users as [|[k w] rest IH]; cbn [dict_set dict_get map fst];
    [reflexivity|].
  destruct (k =? name)%string eqn:E; cbn [map fst]; [reflexivity|].
  rewrite IH. now destruct (dict_get rest name).
Qed.

Lemma dict_set_sum users name v :
  list_sum (map snd (dict_set users name v))
  + match dict_get users name with Some n => n | None => 0 end
  = list_sum (map snd users) + v.
Proof.
  induction users as [|[k w] rest IH]; cbn [dict_set dict_get].
  - cbn. lia.
  - unfold list_sum in *.
    destruct (k =? name)%string; cbn [map snd fold_right] in *; lia.
Qed.

(** *** Names in the order of first appearance *)

Lemma first_seen_snoc names name :
  first_seen (names ++ [name])
  = if existsb (String.eqb name) (first_seen names) then first_seen names
    else first_seen names ++ [name].
Proof. unfold first_seen. now rewrite fold_left_app. Qed.

Lemma existsb_eqb_In name (l : list string) :
  existsb (String.eqb name) l = true <-> In name l.
Proof.
  rewrite existsb_exists. split.
  - intros (x & Hin & E). apply String.eqb_eq in E. now subst.
  - intro Hin. exists name. split; [exact Hin | apply String.eqb_refl].
Qed.

Lemma first_seen_spec names :
  NoDup (first_seen names) /\
  forall name, In name (first_seen names) <-> In name names.
Proof.
  induction names as [|name names IH] using rev_ind.
  - split; [constructor | reflexivity].
  - destruct IH as [Hnd Hin]. rewrite first_seen_snoc.
    destruct (existsb (String.eqb name) (first_seen names)) eqn:E.
    + apply existsb_eqb_In in E. split; [exact Hnd|].
      intro x. rewrite in_app_iff, Hin. cbn. split; [tauto|].
      intros [H|[<-|[]]]; [exact H | now apply Hin].
    + assert (Hnot : ~ In name (first_seen names)).
      { intro H. apply existsb_eqb_In in H. congruence. }
      split.
      * apply NoDup_app; [exact Hnd | repeat constructor; intros [] |].
        intros x Hx [<-|[]]. now apply Hnot.
      * intro x. rewrite !in_app_iff, Hin. reflexivity.
Qed.

Lemma occurrences_snoc names name other :
  occurrences (names ++ [name]) other
  = occurrences names other + (if string_dec name other then 1 else 0).
Proof.
  unfold occurrences. rewrite count_occ_app. cbn [count_occ].
  now destruct (string_dec name other).
Qed.

Lemma occurrences_pos names name :
  0 < occurrences names name <-> In name names.
Proof. unfold occurrences. symmetry. apply count_occ_In. Qed.

(** *** The counting loop *)

(** What the loop has built after the names [seen]. *)
Definition tallied (users : counts) (seen : list string) : Prop :=
  map fst users = first_seen seen /\
  list_sum (map snd users) = List.length seen /\
  forall name,
    dict_get users name
    = if occurrences seen name =? 0 then None
      else Some (occurrences seen name).

Lemma tallied_has users seen name :
  tallied users seen ->
  dict_has users name = negb (occurrences seen name =? 0).
Proof.
  intros (_ & _ & Hget). unfold dict_has. rewrite Hget.
  now destruct (occurrences seen name =? 0).
Qed.

Lemma count_user_tallied users seen msg :
  tallied users seen ->
  exists users',
    count_user users msg = Returned users' /\
    tallied users' (seen ++ [user_name msg]).
Proof.
  intros Ht. pose proof Ht as (Hkeys & Hsum & Hget).
  set (name := user_name msg).
  assert (Hocc : forall other,
            occurrences (seen ++ [name]) other
            = occurrences seen other + (if string_dec name other then 1 else 0))
    by (intro; apply occurrences_snoc).
  unfold count_user. fold name.
  rewrite (tallied_has _ _ name Ht), negb_involutive.
  destruct (occurrences seen name =? 0) eqn:E.
  - (* a new name *)
    rewrite dict_get_set_same. eexists. split; [reflexivity|].
    assert (Hnone : dict_get users name = None) by now rewrite Hget, E.
    assert (Hhas : dict_has users name = false)
      by (unfold dict_has; now rewrite Hnone).
    repeat split.
    + rewrite dict_set_keys.
      replace (dict_has (dict_set users name 0) name) with true
        by (unfold dict_has; now rewrite dict_get_set_same).
      rewrite dict_set_keys, Hhas, first_seen_snoc, <- Hkeys.
      now rewrite dict_has_keys, Hhas.
    + pose proof (dict_set_sum (dict_set users name 0) name (0 + 1)) as H1.
      rewrite dict_get_set_same in H1.
      pose proof (dict_set_sum users name 0) as H0. rewrite Hnone in H0.
      rewrite length_app. cbn [List.length]. lia.
    + intro other. rewrite Hocc. destruct (string_dec name other) as [<-|Hne].
      * rewrite dict_get_set_same. apply Nat.eqb_eq in E. rewrite E.
        reflexivity.
      * rewrite !dict_get_set_other by assumption. rewrite Hget.
        now rewrite Nat.add_0_r.
  - (* a name seen before *)
    rewrite Hget, E. eexists. split; [reflexivity|].
    assert (Hsome : dict_get users name = Some (occurrences seen name))
      by now rewrite Hget, E.
    assert (Hhas : dict_has users name = true)
      by (unfold dict_has; now rewrite Hsome).
    repeat split.
    + rewrite dict_set_keys, Hhas, first_seen_snoc, <- Hkeys.
      now rewrite dict_has_keys, Hhas.
    + pose proof (dict_set_sum users name (occurrences seen name + 1)) as H1.
      rewrite Hsome in H1. rewrite length_app. cbn [List.length]. lia.
    + intro other. rewrite Hocc. destruct (string_dec name other) as [<-|Hne].
      * rewrite dict_get_set_same.
        replace (occurrences seen name + 1 =? 0) with false
          by (symmetry; apply Nat.eqb_neq; lia).
        reflexivity.
      * rewrite dict_get_set_other by assumption. rewrite Hget.
        now rewrite Nat.add_0_r.
Qed.

Lemma count_users_tallied messages : forall users seen,
  tallied users seen ->
  exists users',
    count_users users messages = Returned users' /\
    tallied users' (seen ++ map user_name messages).
Proof.
  induction messages as [|msg rest IH]; intros users seen Ht.
  - exists users. cbn. now rewrite app_nil_r.
  - destruct (count_user_tallied users seen msg Ht) as (users1 & E1 & Ht1).
    destruct (IH users1 _ Ht1) as (users' & E & Ht').
    exists users'. cbn [count_users map]. rewrite E1. split; [exact E|].
    now rewrite <- app_assoc in Ht'.
Qed.

Lemma stats_tallied fuel api response sent :
  stats fuel api = Some (response, sent) ->
  exists messages users,
    Fetch.run fuel api = Some (messages, sent) /\
    response = Stats (List.length messages) (List.length users) users /\
    tallied users (map user_name messages).
Proof.
  unfold stats. destruct (Fetch.run fuel api) as [[messages sent']|];
    [|discriminate].
  destruct (count_users_tallied messages [] [])
    as (users & E & Ht).
  { repeat split. }
  rewrite E. intro H. injection H as <- <-.
  exists messages, users.
  split; [reflexivity|]. split; [reflexivity | exact Ht].
Qed.

(** X1: whenever the fetch returns, [/stats] answers with the statistics
    and not with an error: [total_messages] is the number of messages
    fetched, the counts add up to it, and [unique_users] is the number of
    keys of [users], which are the distinct author names. *)
Theorem stats_totals fuel api response sent :
  stats fuel api = Some (response, sent) ->
  exists messages users,
    Fetch.run fuel api = Some (messages, sent) /\
    response = Stats (List.length messages) (List.length users) users /\
    list_sum (map snd users) = List.length messages /\
    NoDup (map fst users) /\
    (forall name,
       In name (map fst users) <-> In name (map user_name messages)) /\
    List.length users <= List.length messages.
Proof.
  intro H. destruct (stats_tallied _ _ _ _ H)
    as (messages & users & Hrun & Hresp & Hkeys & Hsum & _).
  destruct (first_seen_spec (map user_name messages)) as [Hnd Hin].
  exists messages, users.
  split; [exact Hrun|]. split; [exact Hresp|].
  split; [now rewrite Hsum, length_map|].
  rewrite Hkeys. split; [exact Hnd|]. split; [exact Hin|].
  rewrite <- (length_map fst users), Hkeys,
          <- (length_map user_name messages).
  apply NoDup_incl_length; [exact Hnd|]. intros x Hx. now apply Hin.
Qed.

Lemma stats_totals_witness :
  stats 2 (Fetch.paged crowd)
  = Some (Stats 3 2 [("Layla", 2); ("Amira", 1)], [0%Z]) /\
  list_sum (map snd [("Layla", 2); ("Amira", 1)]) = 3.
Proof.
  assert (E : stats 2 (Fetch.paged crowd)
              = Some (Stats 3 2 [("Layla", 2); ("Amira", 1)], [0%Z]))
    by (vm_compute; reflexivity).
  split; [exact E|].
  destruct (stats_totals _ _ _ _ E)
    as (messages & users & Hrun & Hresp & Hsum & _).
  injection Hresp as _ _ <-. rewrite Hsum.
  vm_compute in Hrun. injection Hrun as <-. reflexivity.
Defined.

(** X2: the keys of [users] are the author names in the order in which
    they first appear among the fetched messages, and the count of a name
    is the number of fetched messages of that author (at least one). *)
Theorem stats_per_user fuel api total unique users sent :
  stats fuel api = Some (Stats total unique users, sent) ->
  exists messages,
    Fetch.run fuel api = Some (messages, sent) /\
    map fst users = first_seen (map user_name messages) /\
    forall name,
      dict_get users name
      = if occurrences (map user_name messages) name =? 0 then None
        else Some (occurrences (map user_name messages) name).
Proof.
  intro H. destruct (stats_tallied _ _ _ _ H)
    as (messages & users' & Hrun & Hresp & Hkeys & _ & Hget).
  injection Hresp as _ _ ->. now exists messages.
Qed.

Lemma stats_per_user_witness :
  stats 2 (Fetch.paged crowd)
  = Some (Stats 3 2 [("Layla", 2); ("Amira", 1)], [0%Z]) /\
  dict_get [("Layla", 2); ("Amira", 1)] "Layla"
  = Some (occurrences (map user_name crowd) "Layla").
Proof.
  assert (E : stats 2 (Fetch.paged crowd)
              = Some (Stats 3 2 [("Layla", 2); ("Amira", 1)], [0%Z]))
    by (vm_compute; reflexivity).
  split; [exact E|].
  destruct (stats_per_user _ _ _ _ _ _ E) as (messages & Hrun & _ & Hget).
  vm_compute in Hrun. injection Hrun as <-.
  rewrite (Hget "Layla"). reflexivity.
Defined.

(** *** Blank questions *)

Lemma lstrip_blank s : blank (Str.lstrip s) = blank s.
Proof.
  induction s as [|ch s IH]; [reflexivity|].
  cbn [Str.lstrip blank]. destruct (Str.isspace ch) eqn:E.
  - exact IH.
  - cbn [blank]. now rewrite E.
Qed.

Lemma rstrip_empty s : Str.rstrip s = "" <-> blank s = true.
Proof.
  induction s as [|ch s IH]; [now split|].
  cbn [Str.rstrip blank]. rewrite andb_true_iff, <- IH.
  destruct (Str.rstrip s) as [|d r].
  - destruct (Str.isspace ch); split; try tauto; try discriminate.
    intros [H _]; discriminate.
  - split; [discriminate | intros [_ H]; discriminate].
Qed.

(** [not question or not question.strip()] holds exactly of the blank
    strings. *)
Lemma rejected_iff_blank question :
  negb (Str.nonempty question) || negb (Str.nonempty (Str.strip question))
  = blank question.
Proof.
  assert (Hs : negb (Str.nonempty (Str.strip question)) = blank question).
  { unfold Str.strip. rewrite <- lstrip_blank.
    destruct (blank (Str.lstrip question)) eqn:E.
    - apply rstrip_empty in E. now rewrite E.
    - destruct (Str.rstrip (Str.lstrip question)) eqn:R; [|reflexivity].
      apply rstrip_empty in R. congruence. }
  rewrite Hs. destruct question; reflexivity.
Qed.

Lemma ask_question_blank fuel api c sv question :
  blank question = true ->
  ask_question fuel api c sv question
  = Some (HTTPException 400 "Question parameter is required", [], []).
Proof. intro H. unfold ask_question. now rewrite rejected_iff_blank, H. Qed.

Lemma ask_question_not_blank fuel api c sv question :
  blank question = false ->
  ask_question fuel api c sv question
  = match Fetch.run fuel api with
    | None => None
    | Some ([], sent) =>
        Some (OK "No messages found in the data source.", sent, [])
    | Some (messages, sent) =>
        if any_client c
        then
          match answer_question_with_llm c sv question messages with
          | (Returned answer, made) => Some (OK answer, sent, made)
          | (Raised e, made) =>
              Some (HTTPException 500
                      ("Error processing question: " ++ e)%string,
                    sent, made)
          end
        else
          Some (OK (Simple.answer_question_simple question messages),
                sent, [])
    end.
Proof. intro H. unfold ask_question. now rewrite rejected_iff_blank, H. Qed.

(** X3: a question that is empty or made of whitespace only is rejected
    with status 400 before anything else happens: no request goes to the
    message source and no provider is called; and status 400 is given to
    such questions only. *)
Theorem ask_rejects_blank_question fuel api c sv question :
  (blank question = true ->
   ask_question fuel api c sv question
   = Some (HTTPException 400 "Question parameter is required", [], [])) /\
  (forall detail sent made,
     ask_question fuel api c sv question
     = Some (HTTPException 400 detail, sent, made) ->
     blank question = true).
Proof.
  split; [apply ask_question_blank|].
  intros detail sent made H.
  destruct (blank question) eqn:E; [reflexivity|].
  rewrite (ask_question_not_blank _ _ _ _ _ E) in H.
  destruct (Fetch.run fuel api) as [[[|m ms] sent']|]; try discriminate.
  destruct (any_client c); [|discriminate].
  destruct (answer_question_with_llm c sv question (m :: ms)) as [[a|e] md];
    discriminate.
Qed.

Lemma ask_rejects_blank_question_witness :
  blank "   " = true /\
  ask_question 0 Fetch.refusing (configure None None None)
               (failing "a" "b" "c") "   "
  = Some (HTTPException 400 "Question parameter is required", [], []).
Proof.
  split; [reflexivity|].
  apply (proj1 (ask_rejects_blank_question 0 Fetch.refusing
                  (configure None None None) (failing "a" "b" "c") "   ")).
  reflexivity.
Defined.

(** X4: for a question that is not blank, whenever the fetch returns the
    endpoint answers with status 200: no failure of the message source or
    of a provider becomes a status 500. *)
Theorem ask_never_fails fuel api c sv question messages sent :
  blank question = false ->
  Fetch.run fuel api = Some (messages, sent) ->
  exists answer made,
    ask_question fuel api c sv question = Some (OK answer, sent, made).
Proof.
  intros Hq Hrun. rewrite (ask_question_not_blank _ _ _ _ _ Hq), Hrun.
  destruct messages as [|m ms]; [eauto|].
  destruct (any_client c); [|eauto].
  destruct (Orchestration.answer_returns c sv question (m :: ms))
    as [answer Ha].
  destruct (answer_question_with_llm c sv question (m :: ms)) as [r made].
  cbn [fst] in Ha. subst r. eauto.
Qed.

Lemma ask_never_fails_witness :
  blank "When is Layla flying?" = false /\
  exists answer made,
    ask_question 2 (Fetch.paged crowd) (configure (Some "gsk-key") None None)
                 (failing "rate limit exceeded" "overloaded" "quota")
                 "When is Layla flying?"
    = Some (OK answer, [0%Z], made).
Proof.
  split; [reflexivity|].
  apply (ask_never_fails 2 (Fetch.paged crowd) _ _ _ crowd); reflexivity.
Defined.

(** X5: when the fetch returns no message, whatever the question asks and
    whichever clients exist, the answer is the fixed no-messages text and
    no provider is called. *)
Theorem ask_without_messages fuel api c sv question sent :
  blank question = false ->
  Fetch.run fuel api = Some ([], sent) ->
  ask_question fuel api c sv question
  = Some (OK "No messages found in the data source.", sent, []).
Proof.
  intros Hq Hrun. now rewrite (ask_question_not_blank _ _ _ _ _ Hq), Hrun.
Qed.

Lemma ask_without_messages_witness :
  blank "When is Layla flying?" = false /\
  exists sent,
    Fetch.run 5 Fetch.refusing = Some ([], sent) /\
    List.length sent = 15 /\
    ask_question 5 Fetch.refusing (configure (Some "gsk-key") None None)
                 (failing "rate limit exceeded" "overloaded" "quota")
                 "When is Layla flying?"
    = Some (OK "No messages found in the data source.", sent, []).
Proof.
  split; [reflexivity|].
  assert (E : exists sent, Fetch.run 5 Fetch.refusing = Some ([], sent) /\
                           List.length sent = 15)
    by (eexists; split; vm_compute; reflexivity).
  destruct E as (sent & Hrun & Hlen). exists sent.
  split; [exact Hrun|]. split; [exact Hlen|].
  apply ask_without_messages; [reflexivity | exact Hrun].
Defined.

Lemma any_client_configure g a o :
  any_client (configure g a o) = truthy g || truthy a || truthy o.
Proof.
  unfold configure, any_client.
  destruct (truthy g) eqn:Hg; [destruct g; [reflexivity | discriminate]|].
  destruct (truthy a) eqn:Ha; [destruct a; [reflexivity | discriminate]|].
  destruct (truthy o) eqn:Ho; [destruct o; [reflexivity | discriminate]|].
  reflexivity.
Qed.

(** X6: with the clients of the initialisation and messages fetched, the
    keyword search answers exactly when none of the three keys is set (an
    empty key counts as not set), and then no provider is called; once a
    key is set the answer is that of [answer_question_with_llm], also when
    every provider call fails. *)
Theorem ask_chooses_backend
        fuel api GROQ_API_KEY ANTHROPIC_API_KEY OPENAI_API_KEY sv
        question msg rest sent :
  let c := configure GROQ_API_KEY ANTHROPIC_API_KEY OPENAI_API_KEY in
  let messages := msg :: rest in
  blank question = false ->
  Fetch.run fuel api = Some (messages, sent) ->
  (truthy GROQ_API_KEY || truthy ANTHROPIC_API_KEY || truthy OPENAI_API_KEY
   = false ->
   ask_question fuel api c sv question
   = Some (OK (Simple.answer_question_simple question messages), sent, []))
  /\
  (truthy GROQ_API_KEY || truthy ANTHROPIC_API_KEY || truthy OPENAI_API_KEY
   = true ->
   exists answer made,
     answer_question_with_llm c sv question messages
     = (Returned answer, made) /\
     ask_question fuel api c sv question = Some (OK answer, sent, made)).
Proof.
  intros c messages Hq Hrun.
  rewrite (ask_question_not_blank _ _ _ _ _ Hq), Hrun.
  unfold c. rewrite any_client_configure. fold c. split; intros ->.
  - reflexivity.
  - destruct (Orchestration.answer_returns c sv question messages)
      as [answer Ha].
    fold messages.
    destruct (answer_question_with_llm c sv question messages) as [r made].
    cbn [fst] in Ha. subst r. eauto.
Qed.

Lemma ask_chooses_backend_witness :
  let sv := failing "rate limit exceeded" "overloaded" "quota" in
  let question := "Who is flying to London" in
  blank question = false /\
  Fetch.run 2 (Fetch.paged crowd) = Some (crowd, [0%Z]) /\
  ask_question 2 (Fetch.paged crowd) (configure (Some "") None None) sv
               question
  = Some (OK (Simple.answer_question_simple question crowd), [0%Z], []) /\
  exists made,
    ask_question 2 (Fetch.paged crowd) (configure (Some "gsk-key") None None)
                 sv question
    = Some (OK no_key, [0%Z], made).
Proof.
  intros sv question.
  assert (Hq : blank question = false) by reflexivity.
  assert (Hrun : Fetch.run 2 (Fetch.paged crowd) = Some (crowd, [0%Z]))
    by (vm_compute; reflexivity).
  split; [exact Hq|]. split; [exact Hrun|]. split.
  - apply (proj1 (ask_chooses_backend 2 (Fetch.paged crowd) (Some "") None
                    None sv question _ _ [0%Z] Hq Hrun)).
    reflexivity.
  - destruct (proj2 (ask_chooses_backend 2 (Fetch.paged crowd)
                       (Some "gsk-key") None None sv question _ _ [0%Z]
                       Hq Hrun) eq_refl)
      as (answer & made & Ha & Hask).
    exists made. rewrite Hask. vm_compute in Ha. injection Ha as <- _.
    reflexivity.
Defined.

(** X7: on the clients of the initialisation [/health] is consistent: the
    provider it names is one of groq, claude, openai and none; it is none
    exactly when no flag is set; and a flag is set exactly when its
    provider is the one named, which is the first of Groq, Claude, OpenAI
    whose key is set. *)
Theorem health_consistent (GROQ_API_KEY ANTHROPIC_API_KEY OPENAI_API_KEY
                           : option string) :
  let h := health (configure GROQ_API_KEY ANTHROPIC_API_KEY OPENAI_API_KEY) in
  status h = "healthy" /\
  groq_configured h = truthy GROQ_API_KEY /\
  claude_configured h
  = negb (truthy GROQ_API_KEY) && truthy ANTHROPIC_API_KEY /\
  openai_configured h
  = negb (truthy GROQ_API_KEY) && negb (truthy ANTHROPIC_API_KEY)
    && truthy OPENAI_API_KEY /\
  reported_provider h
  = (if groq_configured h then "groq"
     else if claude_configured h then "claude"
     else if openai_configured h then "openai"
     else "none").
Proof.
  cbv zeta. unfold configure.
  destruct (truthy GROQ_API_KEY) eqn:Hg;
    [destruct GROQ_API_KEY; [now repeat split | discriminate]|].
  destruct (truthy ANTHROPIC_API_KEY) eqn:Ha;
    [destruct ANTHROPIC_API_KEY; [now repeat split | discriminate]|].
  destruct (truthy OPENAI_API_KEY) eqn:Ho;
    [destruct OPENAI_API_KEY; [now repeat split | discriminate]|].
  now repeat split.
Qed.

End Service.

(** ** More on the fetcher: what is requested and what is returned *)

Module Pagination.

Import Fetch.

Local Open Scope list_scope.

(** The pages arrived in this order: each is the answer to a request of
    the run, and the requests follow one another. *)
Fixpoint arrivals (api : oracle) (sent : list Z) (from : nat)
         (pages : list (list Message)) : Prop :=
  match pages with
  | [] => True
  | items :: rest =>
      exists n s total,
        from <= n /\ nth_error sent n = Some s /\
        api n s = Page items total /\ items <> [] /\
        arrivals api sent (S n) rest
  end.

(** Each request is for the cursor of the one before it or for the next
    page. *)
Fixpoint chain (sent : list Z) : Prop :=
  match sent with
  | a :: (b :: _) as rest => (b = a \/ b = (a + limit)%Z) /\ chain rest
  | _ => True
  end.

(** The requests so far form a chain from cursor 0 that the cursor of [l]
    continues. *)
Definition on_track (l : locals) : Prop :=
  chain (requests l) /\
  (skip l = last (requests l) (skip l)
   \/ skip l = (last (requests l) (skip l) + limit)%Z) /\
  hd (skip l) (requests l) = 0%Z.

(** What an iteration adds to the requests: one to three requests for the
    cursor it started with. *)
Definition sent_of (f : flow) : list Z :=
  match f with
  | Return _ sent => sent
  | Continue l => requests l
  end.

(** A source that holds [D] and serves it, except that every request for
    the cursor [lost] fails. *)
Definition loses (D : list Message) (lost : Z) (api : oracle) : Prop :=
  forall n s, (0 <= s)%Z ->
    if (s =? lost)%Z
    then match api n s with
         | Page _ _ => False
         | _ => True
         end
    else api n s = Page (slice D s) (TotalInt (Z.of_nat (List.length D))).

(** The source [paged D] with the page at cursor 100 out of order. *)
Definition second_page_down (D : list Message) : oracle :=
  fun n s => if (s =? 100)%Z then HTTPError "500 Internal Server Error"
             else paged D n s.

(** A source whose every answer has a body that is not JSON. *)
Definition garbled : oracle := fun _ _ => Unexpected "Expecting value".

(** A source that fails once and then answers with bodies that are not
    JSON. *)
Definition garbled_late : oracle :=
  fun n _ => if n =? 0 then HTTPError "503 Service Unavailable"
             else Unexpected "Expecting value".

(** A source that fails once, then answers once with a page whose total
    is not a number, and then refuses. *)
Definition untyped_late : oracle :=
  fun n _ => if n =? 1 then Page [Fetch.lone] TotalUnordered
             else HTTPError "503 Service Unavailable".

(** *** The shape of an iteration *)

Lemma iteration_unexpected api l k e :
  k < max_retries ->
  transient api (List.length (requests l)) (skip l) k ->
  api (List.length (requests l) + k) (skip l) = Unexpected e ->
  iteration api l
  = Some (if max_consecutive_failures <=? S (consecutive_failures l)
          then Return (all_messages l)
                      (requests l ++ repeat (skip l) (S k))
          else Continue (mkLocals (all_messages l) (skip l + limit)
                           (S (consecutive_failures l)) max_retries false
                           (requests l ++ repeat (skip l) (S k)))).
Proof.
  intros Hk Htr He.
  unfold iteration. rewrite (iteration_after_transient api l k Hk Htr).
  destruct (max_retries - k) as [|fuel] eqn:F; [lia|].
  rewrite retry_loop_step.
  2:{ cbn [retry_count success]. apply andb_true_iff. split; [|reflexivity].
      now apply Nat.ltb_lt. }
  unfold attempt. cbn [requests skip retry_count all_messages
                       consecutive_failures success].
  rewrite length_sent, He.
  rewrite retry_loop_exit by reflexivity.
  cbn [requests skip retry_count all_messages consecutive_failures
       success negb].
  rewrite sent_again. destruct (_ <=? _); reflexivity.
Qed.

(** An iteration sends between one and three requests, all for the cursor
    it started with, and leaves the cursor where it was or one page on. *)
Lemma iteration_shape api l f :
  iteration api l = Some f ->
  exists j,
    1 <= j <= max_retries /\
    sent_of f = requests l ++ repeat (skip l) j /\
    match f with
    | Return _ _ => True
    | Continue l' => skip l' = skip l \/ skip l' = (skip l + limit)%Z
    end.
Proof.
  intro Hit.
  destruct (page_cases api l) as [Hf|(k & items & total & Hp)].
  - destruct (iteration_fails _ _ Hf) as (j & Hj & Hit').
    rewrite Hit' in Hit. exists j. split; [exact Hj|].
    destruct (_ <=? _); injection Hit as <-; cbn; auto.
  - pose proof (iteration_arrives _ _ _ _ _ Hp) as Hit'. cbv zeta in Hit'.
    rewrite Hit' in Hit. destruct Hp as (Hk & _ & _).
    exists (S k). split; [lia|].
    destruct items as [|m items]; [injection Hit as <-; cbn; auto|].
    destruct (total_or_default total) as [t|];
      [destruct (_ <=? _)%Z|]; injection Hit as <-; cbn; auto.
Qed.

(** *** The chain of requests *)

Lemma chain_repeat s j : chain (repeat s j).
Proof.
  induction j as [|[|j] IH]; cbn [repeat chain] in *; auto.
Qed.

Lemma chain_app (q : list Z) (b : Z) (t : list Z) :
  chain q -> chain (b :: t) ->
  (b = last q b \/ b = (last q b + limit)%Z) ->
  chain (q ++ b :: t).
Proof.
  induction q as [|a [|a' q] IH]; intros Hq Ht Hb.
  - exact Ht.
  - cbn [app last] in *. cbn [chain]. split; [exact Hb | exact Ht].
  - change ((a :: a' :: q) ++ b :: t) with (a :: (a' :: q) ++ b :: t).
    destruct Hq as [Hstep Hq].
    change (chain (a :: a' :: (q ++ b :: t))).
    cbn [chain]. split; [exact Hstep|].
    apply (IH Hq Ht). exact Hb.
Qed.

Lemma last_app_repeat (q : list Z) (s d : Z) (j : nat) :
  1 <= j -> last (q ++ repeat s j) d = s.
Proof.
  intro Hj. destruct j as [|j]; [lia|]. cbn [repeat].
  rewrite repeat_cons, app_assoc. apply last_last.
Qed.

Lemma on_track_step api l l' :
  on_track l -> iteration api l = Some (Continue l') -> on_track l'.
Proof.
  intros (Hc & Hlast & Hhd) Hit.
  destruct (iteration_shape _ _ _ Hit) as (j & Hj & Hsent & Hskip).
  cbn [sent_of] in Hsent. unfold on_track. rewrite Hsent.
  destruct j as [|j]; [lia|]. cbn [repeat]. split; [|split].
  - apply chain_app; [exact Hc | apply (chain_repeat (skip l) (S j))|].
    destruct (requests l) as [|a q]; [cbn; auto|]. exact Hlast.
  - change (skip l :: repeat (skip l) j) with (repeat (skip l) (S j)).
    rewrite last_app_repeat by lia. destruct Hskip as [->| ->]; auto.
  - destruct (requests l) as [|a q]; cbn [app hd] in *; exact Hhd.
Qed.

Lemma on_track_return api l r sent :
  on_track l -> iteration api l = Some (Return r sent) ->
  chain sent /\ hd_error sent = Some 0%Z.
Proof.
  intros (Hc & Hlast & Hhd) Hit.
  destruct (iteration_shape _ _ _ Hit) as (j & Hj & Hsent & _).
  cbn [sent_of] in Hsent. rewrite Hsent.
  destruct j as [|j]; [lia|]. cbn [repeat]. split.
  - apply chain_app; [exact Hc | apply (chain_repeat (skip l) (S j))|].
    destruct (requests l) as [|a q]; [cbn; auto|]. exact Hlast.
  - destruct (requests l) as [|a q]; cbn [app hd hd_error] in *;
      now rewrite Hhd.
Qed.

Lemma fetch_loop_on_track api : forall fuel l r sent,
  on_track l -> fetch_loop fuel api l = Some (r, sent) ->
  chain sent /\ hd_error sent = Some 0%Z.
Proof.
  induction fuel as [|fuel IH]; intros l r sent Ht; [discriminate|].
  cbn [fetch_loop].
  destruct (iteration api l) as [[r' sent'|l']|] eqn:Hit; try discriminate.
  - intro H; injection H as <- <-. exact (on_track_return _ _ _ _ Ht Hit).
  - intro H. exact (IH _ _ _ (on_track_step _ _ _ Ht Hit) H).
Qed.

Lemma chain_multiples : forall (q : list Z) (a : Z),
  chain (a :: q) -> (0 <= a)%Z -> (limit | a)%Z ->
  Forall (fun s => (0 <= s)%Z /\ (limit | s)%Z) (a :: q).
Proof.
  induction q as [|b q IH]; intros a Hc Ha Hd.
  - repeat constructor; assumption.
  - destruct Hc as [Hstep Hc]. constructor; [now split|].
    apply IH; [exact Hc | |].
    + unfold limit in *. destruct Hstep as [->| ->]; lia.
    + destruct Hstep as [->| ->]; [exact Hd|].
      apply Z.divide_add_r; [exact Hd | apply Z.divide_refl].
Qed.

Lemma chain_sorted : forall (q : list Z) (a : Z),
  chain (a :: q) -> Sorted Z.le (a :: q).
Proof.
  induction q as [|b q IH]; intros a Hc.
  - repeat constructor.
  - destruct Hc as [Hstep Hc]. constructor; [now apply IH|].
    constructor. unfold limit in *. destruct Hstep as [->| ->]; lia.
Qed.

(** X11: the cursors a run requests start at 0, and each request is either
    for the same cursor as the one before (a retry) or for the next page;
    so they never go back, never skip a page without asking for it, and
    are all multiples of [limit]. *)
Theorem requests_walk_the_pages fuel api result sent :
  run fuel api = Some (result, sent) ->
  hd_error sent = Some 0%Z /\
  chain sent /\
  Sorted Z.le sent /\
  Forall (fun s => (0 <= s)%Z /\ (limit | s)%Z) sent.
Proof.
  intro Hrun.
  destruct (fetch_loop_on_track api fuel initial result sent) as [Hc Hhd].
  - unfold on_track, initial; cbn. auto.
  - exact Hrun.
  - split; [exact Hhd|]. split; [exact Hc|].
    destruct sent as [|a q]; [discriminate|]. injection Hhd as ->.
    split; [now apply chain_sorted|].
    apply chain_multiples; [exact Hc | lia | apply Z.divide_0_r].
Qed.

Lemma requests_walk_the_pages_witness :
  run 5 flaky = Some (map sample (seq 0 150), [0; 0; 0; 100]%Z) /\
  chain [0; 0; 0; 100]%Z.
Proof.
  assert (E : run 5 flaky = Some (map sample (seq 0 150), [0; 0; 0; 100]%Z))
    by (vm_compute; reflexivity).
  split; [exact E|].
  exact (proj1 (proj2 (requests_walk_the_pages 5 flaky _ _ E))).
Defined.

(** X12: an exception other than [httpx.HTTPError] ends the attempts of
    the iteration: the request on which it occurs, after [k < 3] transient
    failures, is the last of the iteration.  Raised before the page is
    accepted, it gives the page up: one more consecutive failure, nothing
    appended, and the cursor moves on, unless the ceiling is reached and
    the fetch returns.  Raised by the comparison with a total that is not a
    number, after the page was appended, it leaves the items appended, the
    counter at 1 and the cursor where it was, and the next iteration asks
    for the same cursor again. *)
Theorem other_exceptions_end_the_attempts api l k :
  k < max_retries ->
  transient api (List.length (requests l)) (skip l) k ->
  (forall e,
     api (List.length (requests l) + k) (skip l) = Unexpected e ->
     exists f,
       iteration api l = Some f /\
       sent_of f = requests l ++ repeat (skip l) (S k) /\
       match f with
       | Return result _ =>
           max_consecutive_failures <= S (consecutive_failures l) /\
           result = all_messages l
       | Continue l' =>
           S (consecutive_failures l) < max_consecutive_failures /\
           consecutive_failures l' = S (consecutive_failures l) /\
           all_messages l' = all_messages l /\
           skip l' = (skip l + limit)%Z
       end) /\
  (forall items,
     items <> [] ->
     api (List.length (requests l) + k) (skip l) = Page items TotalUnordered ->
     exists l',
       iteration api l = Some (Continue l') /\
       requests l' = requests l ++ repeat (skip l) (S k) /\
       all_messages l' = all_messages l ++ items /\
       consecutive_failures l' = 1 /\
       skip l' = skip l /\
       exists f j,
         iteration api l' = Some f /\ 1 <= j /\
         sent_of f = requests l' ++ repeat (skip l) j).
Proof.
  intros Hk Htr. split.
  - intros e He. rewrite (iteration_unexpected _ _ _ _ Hk Htr He).
    destruct (max_consecutive_failures <=? S (consecutive_failures l)) eqn:C;
      eexists; (split; [reflexivity|]); (split; [reflexivity|]).
    + apply Nat.leb_le in C. now split.
    + apply Nat.leb_gt in C. now repeat split.
  - intros items Hne Hp.
    pose proof (iteration_arrives api l k items TotalUnordered
                  (conj Hk (conj Htr Hp))) as Hit.
    cbv zeta in Hit. destruct items as [|m items]; [congruence|].
    cbn [total_or_default] in Hit.
    eexists. split; [exact Hit|]. cbn [requests all_messages
                                        consecutive_failures skip].
    repeat split.
    set (l' := mkLocals _ _ _ _ _ _).
    assert (Hsome : exists f, iteration api l' = Some f).
    { destruct (page_cases api l') as [Hf|(k' & items' & total' & Hp')].
      - destruct (iteration_fails _ _ Hf) as (j & _ & E). eauto.
      - rewrite (iteration_arrives _ _ _ _ _ Hp'). eauto. }
    destruct Hsome as [f Hf].
    destruct (iteration_shape _ _ _ Hf) as (j & Hj & Hsent & _).
    exists f, j. split; [exact Hf|]. split; [lia | exact Hsent].
Qed.

Lemma other_exceptions_end_the_attempts_witness :
  transient garbled_late 0 0 1 /\
  transient untyped_late 0 0 1 /\
  (exists f,
     iteration garbled_late initial = Some f /\ sent_of f = [0; 0]%Z) /\
  run 5 garbled_late = Some ([], [0; 0; 100; 200; 300; 400]%Z) /\
  exists l',
    iteration untyped_late initial = Some (Continue l') /\
    requests l' = [0; 0]%Z /\
    all_messages l' = [Fetch.lone] /\
    consecutive_failures l' = 1 /\
    skip l' = 0%Z.
Proof.
  assert (Hg : transient garbled_late 0 0 1).
  { intros i Hi. assert (i = 0) as -> by lia. eexists. reflexivity. }
  assert (Hu : transient untyped_late 0 0 1).
  { intros i Hi. assert (i = 0) as -> by lia. eexists. reflexivity. }
  assert (H3 : 1 < max_retries) by (unfold max_retries; lia).
  split; [exact Hg|]. split; [exact Hu|]. split; [|split].
  - destruct (proj1 (other_exceptions_end_the_attempts garbled_late initial
                       1 H3 Hg) "Expecting value" eq_refl)
      as (f & Hit & Hsent & _).
    exists f. split; [exact Hit | exact Hsent].
  - vm_compute. reflexivity.
  - destruct (proj2 (other_exceptions_end_the_attempts untyped_late initial
                       1 H3 Hu) [Fetch.lone])
      as (l' & Hit & Hreq & Hall & Hc & Hskip & _);
      [discriminate | reflexivity |].
    exists l'. repeat split; assumption.
Defined.

(** *** Where the returned messages come from *)

Lemma arrivals_more api sent more : forall pages from,
  arrivals api sent from pages -> arrivals api (sent ++ more) from pages.
Proof.
  induction pages as [|items rest IH]; intros from; cbn [arrivals]; [auto|].
  intros (n & s & total & Hfrom & Hn & Hp & Hne & Hrest).
  exists n, s, total. repeat split; try assumption.
  - rewrite nth_error_app1; [exact Hn|]. apply nth_error_Some. congruence.
  - now apply IH.
Qed.

Lemma arrivals_snoc api sent more items n s total : forall pages from,
  arrivals api sent from pages ->
  from <= n -> List.length sent <= n ->
  nth_error (sent ++ more) n = Some s ->
  api n s = Page items total -> items <> [] ->
  arrivals api (sent ++ more) from (pages ++ [items]).
Proof.
  induction pages as [|page rest IH]; intros from Ha Hfrom Hlen Hn Hp Hne.
  - cbn [app arrivals]. exists n, s, total. repeat split; assumption.
  - cbn [app arrivals] in *.
    destruct Ha as (n0 & s0 & total0 & Hfrom0 & Hn0 & Hp0 & Hne0 & Hrest).
    assert (Hlt : n0 < List.length sent)
      by (apply nth_error_Some; congruence).
    exists n0, s0, total0. repeat split; try assumption.
    + rewrite nth_error_app1; [exact Hn0 | exact Hlt].
    + apply IH; try assumption; lia.
Qed.

Lemma arrivals_length api sent : forall pages from,
  arrivals api sent from pages ->
  List.length pages <= List.length sent - from.
Proof.
  induction pages as [|items rest IH]; intros from; cbn [arrivals List.length];
    [lia|].
  intros (n & s & total & Hfrom & Hn & _ & _ & Hrest).
  assert (Hlt : n < List.length sent) by (apply nth_error_Some; congruence).
  specialize (IH _ Hrest). lia.
Qed.

(** The messages collected are the pages that arrived, in order. *)
Definition assembled (api : oracle) (sent : list Z)
           (messages : list Message) : Prop :=
  exists pages, messages = List.concat pages /\ arrivals api sent 0 pages.

Lemma assembled_step api l f :
  assembled api (requests l) (all_messages l) ->
  iteration api l = Some f ->
  match f with
  | Return result sent => assembled api sent result
  | Continue l' => assembled api (requests l') (all_messages l')
  end.
Proof.
  intros (pages & Hall & Harr) Hit.
  destruct (page_cases api l) as [Hf|(k & items & total & Hp)].
  - destruct (iteration_fails _ _ Hf) as (j & _ & Hit'). rewrite Hit' in Hit.
    destruct (_ <=? _); injection Hit as <-; cbn [all_messages requests];
      exists pages; (split; [exact Hall | now apply arrivals_more]).
  - pose proof (iteration_arrives _ _ _ _ _ Hp) as Hit'. cbv zeta in Hit'.
    rewrite Hit' in Hit. destruct Hp as (Hk & _ & Hp).
    destruct items as [|m items].
    + injection Hit as <-. exists pages.
      split; [exact Hall | now apply arrivals_more].
    + assert (Hnew : assembled api (requests l ++ repeat (skip l) (S k))
                               (all_messages l ++ m :: items)).
      { exists (pages ++ [m :: items]). split.
        - rewrite concat_app, Hall. cbn [List.concat]. now rewrite app_nil_r.
        - apply (arrivals_snoc api (requests l) _ (m :: items)
                   (List.length (requests l) + k) (skip l) total);
            try assumption; try lia; try discriminate.
          rewrite nth_error_app2 by lia.
            replace (List.length (requests l) + k - List.length (requests l))
              with k by lia.
            apply nth_error_repeat. lia. }
      destruct (total_or_default total) as [t|];
        [destruct (_ <=? _)%Z|]; injection Hit as <-; exact Hnew.
Qed.

Lemma fetch_loop_assembled api : forall fuel l result sent,
  assembled api (requests l) (all_messages l) ->
  fetch_loop fuel api l = Some (result, sent) ->
  assembled api sent result.
Proof.
  induction fuel as [|fuel IH]; intros l result sent Ha; [discriminate|].
  cbn [fetch_loop].
  destruct (iteration api l) as [[r' sent'|l']|] eqn:Hit; try discriminate;
    pose proof (assembled_step _ _ _ Ha Hit) as Hs.
  - intro H; injection H as <- <-. exact Hs.
  - intro H. exact (IH _ _ _ Hs H).
Qed.

(** X13: the list a run returns is assembled from the source's answers and
    from nothing else: it is the concatenation of non-empty pages, each the
    items of the answer to one request of the run, in the order of those
    requests. *)
Theorem result_is_pages_in_order fuel api result sent :
  run fuel api = Some (result, sent) ->
  exists pages,
    result = List.concat pages /\
    arrivals api sent 0 pages /\
    List.length pages <= List.length sent.
Proof.
  intro Hrun.
  destruct (fetch_loop_assembled api fuel initial result sent)
    as (pages & Hres & Harr).
  - exists []. split; [reflexivity | exact I].
  - exact Hrun.
  - exists pages. split; [exact Hres|]. split; [exact Harr|].
    pose proof (arrivals_length _ _ _ _ Harr). lia.
Qed.

Lemma result_is_pages_in_order_witness :
  run 5 flaky = Some (map sample (seq 0 150), [0; 0; 0; 100]%Z) /\
  exists pages,
    map sample (seq 0 150) = List.concat pages /\
    arrivals flaky [0; 0; 0; 100]%Z 0 pages.
Proof.
  assert (E : run 5 flaky = Some (map sample (seq 0 150), [0; 0; 0; 100]%Z))
    by (vm_compute; reflexivity).
  split; [exact E|].
  destruct (result_is_pages_in_order 5 flaky _ _ E) as (pages & H1 & H2 & _).
  now exists pages.
Defined.

(** *** A page that is given up *)

Lemma slice_at (D : list Message) (n : nat) :
  slice D (Z.of_nat n) = firstn 100 (skipn n D).
Proof. unfold slice. now rewrite Nat2Z.id. Qed.

(** The iteration at a cursor that the source serves from [D]. *)
Lemma iteration_served api l D (n : nat) :
  skip l = Z.of_nat n ->
  api (List.length (requests l)) (skip l)
  = Page (slice D (skip l)) (TotalInt (Z.of_nat (List.length D))) ->
  iteration api l
  = Some
      match firstn 100 (skipn n D) with
      | [] => Return (all_messages l) (requests l ++ [skip l])
      | page =>
          if List.length D <=? List.length (all_messages l ++ page)
          then Return (all_messages l ++ page) (requests l ++ [skip l])
          else Continue (mkLocals (all_messages l ++ page) (skip l + limit)
                                  0 0 true (requests l ++ [skip l]))
      end.
Proof.
  intros Hs Hp.
  rewrite (iteration_arrives api l 0 (slice D (skip l))
             (TotalInt (Z.of_nat (List.length D)))).
  - cbv zeta. cbn [total_or_default repeat]. rewrite Hs, slice_at.
    destruct (firstn 100 (skipn n D)) as [|m page]; [reflexivity|].
    destruct (List.length D <=? _) eqn:C.
    + apply Nat.leb_le in C.
      replace (_ <=? _)%Z with true by (symmetry; apply Z.leb_le; lia).
      reflexivity.
    + apply Nat.leb_gt in C.
      replace (_ <=? _)%Z with false by (symmetry; apply Z.leb_gt; lia).
      reflexivity.
  - unfold page_arrives. split; [unfold max_retries; lia|]. split.
    + intros i Hi; lia.
    + now rewrite Nat.add_0_r.
Qed.

Lemma loses_serves D lost api n s :
  loses D lost api -> (0 <= s)%Z -> s <> lost ->
  api n s = Page (slice D s) (TotalInt (Z.of_nat (List.length D))).
Proof.
  intros Hl Hs Hne. specialize (Hl n s Hs).
  now rewrite (proj2 (Z.eqb_neq s lost) Hne) in Hl.
Qed.

Lemma loses_fails D lost api l :
  loses D lost api -> (0 <= lost)%Z -> skip l = lost -> page_fails api l.
Proof.
  intros Hl H0 Hs.
  destruct (page_cases api l) as [Hf|(k & items & total & _ & _ & Hp)];
    [exact Hf|].
  specialize (Hl (List.length (requests l) + k) (skip l)).
  rewrite Hs, Z.eqb_refl in Hl. rewrite Hs in Hp. rewrite Hp in Hl.
  now elim (Hl H0).
Qed.

Lemma firstn_empty_skipn (E : list Message) (a : nat) :
  firstn 100 (skipn a E) = [] -> firstn a E = E.
Proof.
  intro H. apply firstn_all2.
  assert (Hlen : List.length (firstn 100 (skipn a E)) = 0) by now rewrite H.
  rewrite length_firstn, length_skipn in Hlen. lia.
Qed.

(** After the lost page: the rest of [D] is collected page by page and
    the reported total is never reached. *)
Lemma fetch_loop_after_loss D j api :
  loses D (Z.of_nat (100 * j)) api ->
  forall n l m,
    skip l = Z.of_nat (100 * j + 100 + 100 * m) ->
    all_messages l
    = firstn (100 * j) D ++ firstn (100 * m) (skipn (100 * j + 100) D) ->
    List.length (skipn (100 * j + 100) D) - 100 * m < n ->
    exists fuel sent,
      fetch_loop fuel api l
      = Some (firstn (100 * j) D ++ skipn (100 * j + 100) D, sent).
Proof.
  intro Hl. set (P := firstn (100 * j) D). set (E := skipn (100 * j + 100) D).
  induction n as [|n IH]; intros l m Hs Hall Hn; [lia|].
  assert (Hserved : api (List.length (requests l)) (skip l)
                    = Page (slice D (skip l))
                           (TotalInt (Z.of_nat (List.length D))))
    by (apply (loses_serves D _ api _ _ Hl); lia).
  pose proof (iteration_served api l D _ Hs Hserved) as Hit.
  replace (skipn (100 * j + 100 + 100 * m) D) with (skipn (100 * m) E) in Hit
    by (unfold E; rewrite skipn_skipn; f_equal; lia).
  destruct (firstn 100 (skipn (100 * m) E)) as [|x page] eqn:Hpage;
    cbv zeta in Hit.
  - exists 1. eexists. rewrite (fetch_loop_return _ _ _ _ _ Hit).
    now rewrite Hall, (firstn_empty_skipn E _ Hpage).
  - assert (Hnext : all_messages l ++ x :: page
                    = P ++ firstn (100 * (S m)) E).
    { rewrite Hall, <- app_assoc, <- Hpage. f_equal.
      replace (100 * S m) with (100 * m + 100) by lia.
      apply (firstn_then_slice E). }
    assert (HE : 100 * m < List.length E).
    { assert (Hlen : List.length (firstn 100 (skipn (100 * m) E)) <> 0)
        by now rewrite Hpage.
      rewrite length_firstn, length_skipn in Hlen. lia. }
    assert (Hshort : List.length (all_messages l ++ x :: page)
                     < List.length D).
    { rewrite Hnext, length_app. unfold P.
      rewrite !length_firstn. unfold E in *. rewrite length_skipn in *. lia. }
    replace (List.length D <=? _) with false in Hit
      by (symmetry; apply Nat.leb_gt; exact Hshort).
    destruct (IH (mkLocals (all_messages l ++ x :: page) (skip l + limit)
                           0 0 true (requests l ++ [skip l])) (S m))
      as (fuel & sent & Hrun).
    + cbn [skip]. rewrite Hs. unfold limit. lia.
    + exact Hnext.
    + lia.
    + exists (S fuel), sent.
      now rewrite (fetch_loop_continue _ _ _ _ Hit).
Qed.

(** Up to the lost page: as against a well-formed source. *)
Lemma fetch_loop_until_loss D j api :
  loses D (Z.of_nat (100 * j)) api ->
  forall n l i,
    skip l = Z.of_nat (100 * i) -> i <= j -> j - i < n ->
    all_messages l = firstn (100 * i) D ->
    (100 * i < List.length D \/ i = 0) ->
    consecutive_failures l = 0 ->
    exists fuel sent,
      fetch_loop fuel api l
      = Some (firstn (100 * j) D ++ skipn (100 * j + 100) D, sent).
Proof.
  intro Hl. induction n as [|n IH]; intros l i Hs Hij Hn Hall Hmore Hcf; [lia|].
  destruct (Nat.eq_dec i j) as [->|Hne].
  - (* the lost page *)
    assert (Hf : page_fails api l)
      by (apply (loses_fails D _ api l Hl); [lia | exact Hs]).
    destruct (iteration_fails _ _ Hf) as (k & _ & Hit).
    rewrite Hcf in Hit. change (max_consecutive_failures <=? 1)
      with false in Hit. cbn iota in Hit.
    destruct (fetch_loop_after_loss D j api Hl
                (S (List.length (skipn (100 * j + 100) D)))
                (mkLocals (all_messages l) (skip l + limit) 1 max_retries
                          false (requests l ++ repeat (skip l) k)) 0)
      as (fuel & sent & Hrun).
    + cbn [skip]. rewrite Hs. unfold limit. lia.
    + cbn [all_messages]. replace (100 * 0) with 0 by lia. cbn [firstn].
      now rewrite app_nil_r.
    + lia.
    + exists (S fuel), sent. now rewrite (fetch_loop_continue _ _ _ _ Hit).
  - assert (Hserved : api (List.length (requests l)) (skip l)
                      = Page (slice D (skip l))
                             (TotalInt (Z.of_nat (List.length D))))
      by (apply (loses_serves D _ api _ _ Hl); lia).
    pose proof (iteration_served api l D _ Hs Hserved) as Hit.
    destruct (firstn 100 (skipn (100 * i) D)) as [|x page] eqn:Hpage;
      cbv zeta in Hit.
    + (* nothing at this cursor: [D] is empty *)
      pose proof (firstn_empty_skipn D _ Hpage) as HD.
      exists 1. eexists. rewrite (fetch_loop_return _ _ _ _ _ Hit).
      rewrite Hall, HD. f_equal.
      assert (Hlen : List.length D <= 100 * i)
        by (rewrite <- HD at 1; rewrite length_firstn; lia).
      rewrite (firstn_all2 (n := 100 * j)) by lia.
      rewrite (skipn_all2 (n := 100 * j + 100)) by lia.
      now rewrite app_nil_r.
    + assert (Hnext : all_messages l ++ x :: page
                      = firstn (100 * (S i)) D).
      { rewrite Hall, <- Hpage.
        replace (100 * S i) with (100 * i + 100) by lia.
        apply firstn_then_slice. }
      destruct (List.length D <=? _) eqn:C.
      * apply Nat.leb_le in C.
        assert (HD : firstn (100 * S i) D = D)
          by (apply firstn_whole; now rewrite <- Hnext).
        exists 1. eexists. rewrite (fetch_loop_return _ _ _ _ _ Hit).
        rewrite Hnext, HD. f_equal.
        assert (Hlen : List.length D <= 100 * S i)
          by (rewrite <- HD at 1; rewrite length_firstn; lia).
        rewrite (firstn_all2 (n := 100 * j)) by lia.
        rewrite (skipn_all2 (n := 100 * j + 100)) by lia.
        now rewrite app_nil_r.
      * apply Nat.leb_gt in C.
        destruct (IH (mkLocals (all_messages l ++ x :: page)
                               (skip l + limit) 0 0 true
                               (requests l ++ [skip l])) (S i))
          as (fuel & sent & Hrun); cbn [skip all_messages consecutive_failures];
          try lia; try reflexivity.
        -- rewrite Hs. unfold limit. lia.
        -- exact Hnext.
        -- left. rewrite Hnext, length_firstn in C. lia.
        -- exists (S fuel), sent.
           now rewrite (fetch_loop_continue _ _ _ _ Hit).
Qed.

(** X14: data loss is confined to the page that is given up.  Against a
    source that serves the data set [D] except that every request for the
    cursor [100 * j] fails, the fetch still returns, and returns [D] without
    the items at positions [100 * j .. 100 * j + 99]: everything before and
    everything after the lost page, in order. *)
Theorem given_up_page_is_lost (D : list Message) (j : nat) (api : oracle) :
  loses D (Z.of_nat (100 * j)) api ->
  exists fuel sent,
    run fuel api
    = Some (firstn (100 * j) D ++ skipn (100 * j + 100) D, sent) /\
    fetch_all_messages fuel api
    = Some (firstn (100 * j) D ++ skipn (100 * j + 100) D).
Proof.
  intro Hl.
  destruct (fetch_loop_until_loss D j api Hl (S j) initial 0)
    as (fuel & sent & Hrun); try reflexivity; try lia.
  exists fuel, sent. unfold fetch_all_messages, run. now rewrite Hrun.
Qed.

Lemma given_up_page_is_lost_witness :
  let D := map sample (seq 0 250) in
  loses D (Z.of_nat (100 * 1)) (second_page_down D) /\
  exists fuel sent,
    run fuel (second_page_down D)
    = Some (map sample (seq 0 100 ++ seq 200 50), sent).
Proof.
  intro D.
  assert (Hl : loses D (Z.of_nat (100 * 1)) (second_page_down D)).
  { intros n s Hs. unfold second_page_down.
    change (Z.of_nat (100 * 1)) with 100%Z.
    destruct (s =? 100)%Z; [exact I | reflexivity]. }
  split; [exact Hl|].
  destruct (given_up_page_is_lost D 1 (second_page_down D) Hl)
    as (fuel & sent & Hrun & _).
  exists fuel, sent. rewrite Hrun. vm_compute. reflexivity.
Defined.

End Pagination.

(** ** More on the context builder and on the keyword search *)

Module Budget.

Import Context.

Local Open Scope list_scope.

(** All the lines, none dropped. *)
Definition whole (messages : list Message) : string :=
  Str.join "" (map formatted messages).

Lemma taken_all max_chars messages : forall count,
  (Z.of_nat (count + length (whole messages)) <= max_chars)%Z ->
  taken max_chars count messages = List.length messages.
Proof.
  unfold whole.
  induction messages as [|msg rest IH]; intros count H;
    cbn [taken List.length map]; [reflexivity|].
  cbn [map] in H. rewrite Str.join_empty_cons, Str.length_app in H.
  replace (max_chars <? _)%Z with false by (symmetry; apply Z.ltb_ge; lia).
  f_equal. apply IH. lia.
Qed.

(** X15: when the lines of all messages together fit the budget, nothing is
    dropped; and, for a budget that is not negative, the context holds all
    the messages only in that case. *)
Theorem nothing_dropped_when_all_fits messages max_chars :
  (0 <= max_chars)%Z ->
  (format_messages_for_context messages max_chars = whole messages
   <-> (Z.of_nat (length (whole messages)) <= max_chars)%Z).
Proof.
  intro H0. rewrite format_messages_taken. split.
  - intro E. pose proof (taken_within max_chars messages 0 H0) as Hw.
    cbn [Nat.add] in Hw. now rewrite E in Hw.
  - intro Hfit. rewrite (taken_all max_chars messages 0) by exact Hfit.
    now rewrite firstn_all.
Qed.

Lemma nothing_dropped_when_all_fits_witness :
  (0 <= 8000)%Z /\
  format_messages_for_context Service.crowd 8000 = whole Service.crowd.
Proof.
  split; [lia|].
  apply (nothing_dropped_when_all_fits Service.crowd 8000); [lia|].
  vm_compute. discriminate.
Defined.

(** X16: a larger budget only adds lines at the end: the context under the
    smaller budget is a prefix of the context under the larger one.  So the
    context Groq is given (20000) is a prefix of the one Claude and OpenAI
    are given (100000). *)
Theorem larger_budget_extends messages small large :
  (small <= large)%Z ->
  exists more,
    format_messages_for_context messages large
    = (format_messages_for_context messages small ++ more)%string.
Proof.
  intro Hle. rewrite !format_messages_taken.
  pose proof (taken_monotone small large messages 0 Hle) as Hk.
  set (k1 := taken small 0 messages) in *.
  set (k2 := taken large 0 messages) in *.
  exists (Str.join "" (map formatted (firstn (k2 - k1) (skipn k1 messages)))).
  rewrite <- Str.join_empty_app, <- map_app, Fetch.firstn_then_slice.
  do 3 f_equal. lia.
Qed.

Lemma larger_budget_extends_witness :
  (20000 <= 100000)%Z /\
  exists more,
    format_messages_for_context Service.crowd 100000
    = (format_messages_for_context Service.crowd 20000 ++ more)%string.
Proof.
  split; [lia|].
  apply (larger_budget_extends Service.crowd 20000 100000). lia.
Defined.

End Budget.

Module Search.

Import Simple.

Local Open Scope list_scope.

(** The messages the scan looks at. *)
Definition candidates (question : string) (messages : list Message)
  : list Message :=
  firstn 50 (relevant_messages (Str.lower question) messages).

Definition keywords (question : string) : list string :=
  Str.split (Str.lower question).

Lemma scan_in kw : forall cands n msg,
  In (n, msg) (scan kw cands) <->
  In msg cands /\ n = matches kw msg /\ 0 < n.
Proof.
  induction cands as [|c rest IH]; intros n msg; cbn [scan In].
  - tauto.
  - destruct (0 <? matches kw c) eqn:E; cbn [In]; rewrite IH.
    + apply Nat.ltb_lt in E. split.
      * intros [H|H]; [injection H as <- <-; auto | tauto].
      * intros ([->|H] & -> & Hpos); [now left | right; auto].
    + apply Nat.ltb_ge in E. split; [tauto|].
      intros ([->|H] & -> & Hpos); [lia | auto].
Qed.

Lemma scan_nil kw cands :
  scan kw cands = [] <-> Forall (fun msg => matches kw msg = 0) cands.
Proof.
  induction cands as [|c rest IH]; cbn [scan].
  - split; [constructor | reflexivity].
  - destruct (0 <? matches kw c) eqn:E.
    + apply Nat.ltb_lt in E. split; [discriminate|].
      intro H. inversion H; subst. lia.
    + apply Nat.ltb_ge in E. rewrite IH. split.
      * intro H. constructor; [lia | exact H].
      * intro H. now inversion H.
Qed.

Lemma found_is_not_not_found top : found top <> not_found.
Proof. unfold found, not_found. cbn. discriminate. Qed.

Lemma answer_not_found_iff question messages :
  answer_question_simple question messages = not_found
  <-> keyword_matches question messages = [].
Proof.
  rewrite answer_by_first_max. split.
  - destruct (first_max fst (keyword_matches question messages))
      as [[n top]|] eqn:F.
    + intro H. now apply found_is_not_not_found in H.
    + intros _. now apply first_max_none in F.
  - intros ->. reflexivity.
Qed.

Lemma relevant_in question_lower messages msg :
  In msg (relevant_messages question_lower messages) ->
  In msg messages /\
  (mentioned_users question_lower messages <> [] ->
   In (user_name msg) (mentioned_users question_lower messages)).
Proof.
  unfold relevant_messages.
  destruct (mentioned_users question_lower messages) as [|u us] eqn:E.
  - intro H. split; [exact H | congruence].
  - rewrite filter_In. intros [Hin Hex]. split; [exact Hin|]. intros _.
    apply existsb_exists in Hex as (x & Hx & Heq).
    apply String.eqb_eq in Heq. now rewrite Heq.
Qed.

Lemma mentioned_in question_lower messages name :
  In name (mentioned_users question_lower messages) ->
  Str.contains (Str.lower name) question_lower = true.
Proof.
  unfold mentioned_users. rewrite in_map_iff.
  intros (msg & <- & Hin). now apply filter_In in Hin.
Qed.

Lemma matches_short kw msg :
  Forall (fun keyword => length keyword <= 3) kw -> matches kw msg = 0.
Proof.
  intro Hshort. unfold matches.
  replace (filter _ kw) with (@nil string); [reflexivity|].
  symmetry. induction Hshort as [|k ks Hk _ IH]; [reflexivity|].
  cbn [filter].
  replace (3 <? length k) with false by (symmetry; apply Nat.ltb_ge; lia).
  rewrite andb_false_r. exact IH.
Qed.

(** X17: the answer is the fixed not-found text exactly when none of the
    messages scanned (the first 50 of the relevant ones) contains a keyword
    of the question longer than three characters.  In particular a question
    whose words all have at most three characters finds nothing, whatever
    the messages say. *)
Theorem not_found_iff_no_match question messages :
  (answer_question_simple question messages = not_found
   <-> Forall (fun msg => matches (keywords question) msg = 0)
              (candidates question messages)) /\
  (Forall (fun keyword => length keyword <= 3) (keywords question) ->
   answer_question_simple question messages = not_found).
Proof.
  assert (Hiff : answer_question_simple question messages = not_found
                 <-> Forall (fun msg => matches (keywords question) msg = 0)
                            (candidates question messages)).
  { rewrite answer_not_found_iff. unfold keyword_matches. apply scan_nil. }
  split; [exact Hiff|].
  intro Hshort. apply Hiff. apply Forall_forall. intros msg _.
  now apply matches_short.
Qed.

Lemma not_found_iff_no_match_witness :
  Forall (fun keyword => length keyword <= 3) (keywords "Who is it?") /\
  answer_question_simple "Who is it?" Service.crowd = not_found.
Proof.
  assert (H : Forall (fun keyword => length keyword <= 3)
                     (keywords "Who is it?"))
    by (vm_compute; repeat constructor).
  split; [exact H|].
  exact (proj2 (not_found_iff_no_match "Who is it?" Service.crowd) H).
Defined.

(** X18: an answer that is not the not-found text cites one of the given
    messages, taken from the first 50 relevant ones, in which at least one
    keyword of the question occurs; and when the name of some author occurs
    in the question, the name of the cited author occurs in it too. *)
Theorem cited_message_is_relevant question messages :
  answer_question_simple question messages <> not_found ->
  exists top_match,
    answer_question_simple question messages = found top_match /\
    In top_match messages /\
    In top_match (candidates question messages) /\
    0 < matches (keywords question) top_match /\
    ((exists msg,
        In msg messages /\
        Str.contains (Str.lower (user_name msg)) (Str.lower question) = true)
     -> Str.contains (Str.lower (user_name top_match)) (Str.lower question)
        = true).
Proof.
  intro Hne. rewrite answer_by_first_max in *.
  destruct (first_max fst (keyword_matches question messages))
    as [[n top]|] eqn:F; [|congruence].
  destruct (first_max_spec fst _ _ F) as (before & after & Hl & _ & _).
  assert (Hin : In (n, top) (keyword_matches question messages))
    by (rewrite Hl; apply in_elt).
  unfold keyword_matches in Hin. apply scan_in in Hin as (Hc & Hn & Hpos).
  assert (Hrel : In top (relevant_messages (Str.lower question) messages)).
  { revert Hc. generalize 50.
    generalize (relevant_messages (Str.lower question) messages).
    induction l as [|x l IH]; intros [|k]; cbn [firstn In]; try tauto.
    intros [->|H]; [now left | right; now apply (IH k)]. }
  destruct (relevant_in _ _ _ Hrel) as [Hmsg Hmention].
  exists top. split; [reflexivity|]. split; [exact Hmsg|].
  split; [exact Hc|]. split; [subst n; exact Hpos|].
  intros (msg & Hm & Hcontains).
  apply (mentioned_in _ messages). apply Hmention.
  intro Hnil.
  assert (Him : In (user_name msg)
                   (mentioned_users (Str.lower question) messages)).
  { unfold mentioned_users. apply in_map, filter_In. now split. }
  rewrite Hnil in Him. exact Him.
Qed.

Lemma cited_message_is_relevant_witness :
  let question := "Did Amira book a restaurant or a car" in
  answer_question_simple question Service.crowd <> not_found /\
  exists top_match,
    answer_question_simple question Service.crowd = found top_match /\
    In top_match Service.crowd /\
    Str.contains (Str.lower (user_name top_match)) (Str.lower question)
    = true.
Proof.
  intro question.
  assert (Hne : answer_question_simple question Service.crowd <> not_found)
    by (vm_compute; discriminate).
  split; [exact Hne|].
  destruct (cited_message_is_relevant question Service.crowd Hne)
    as (top & E & Hin & _ & _ & Hname).
  exists top. split; [exact E|]. split; [exact Hin|].
  apply Hname.
  exists (mkMessage "2" "u2" "Amira" "2024-01-02T11:30:00"
                    "Dinner at the new restaurant was lovely").
  split; [right; left; reflexivity | vm_compute; reflexivity].
Defined.

End Search.

(** ** The analysis script [analysis.py] *)

Module Analysis.

Local Open Scope list_scope.

(** A Python [float], an IEEE binary64: a zero, an infinity, the NaN of
    the JSON decoder, or the number [(-1)^s * m * 2^e]. *)
Inductive float :=
| FZero (negative : bool)
| FInfinity (negative : bool)
| FNaN
| FFinite (negative : bool) (m : positive) (e : Z).

(** A decoded JSON value, as [response.json()] hands it over: [None], a
    [bool], an [int], a [float], a [str], a [list] or a [dict] with string
    keys. *)
#[warnings="-register-all"]
Inductive value :=
| VNone
| VBool (b : bool)
| VInt (n : Z)
| VFloat (f : float)
| VStr (s : string)
| VList (elements : list value)
| VDict (entries : list (string * value)).

(** An item as [analyze_data] reads it: for each of the five keys, the
    value, or [None] when the key is absent. *)
Record item := mkItem {
  item_id : option value;
  item_user_id : option value;
  item_user_name : option value;
  item_timestamp : option value;
  item_message : option value
}.

(** [msg.get(key, default)]. *)
Definition get (field : option value) (default : value) : value :=
  match field with
  | Some v => v
  | None => default
  end.

(** Truth value: [None], [False], zero, the empty string, the empty list
    and the empty dict are false. *)
Definition truthy (v : value) : bool :=
  match v with
  | VNone => false
  | VBool b => b
  | VInt n => negb (n =? 0)%Z
  | VFloat (FZero _) => false
  | VFloat _ => true
  | VStr s => Str.nonempty s
  | VList [] => false
  | VList _ => true
  | VDict [] => false
  | VDict _ => true
  end.

(** [type(v).__name__]. *)
Definition type_name (v : value) : string :=
  match v with
  | VNone => "NoneType"
  | VBool _ => "bool"
  | VInt _ => "int"
  | VFloat _ => "float"
  | VStr _ => "str"
  | VList _ => "list"
  | VDict _ => "dict"
  end.

(** What a [set] or a [dict] tells hashable values apart by: values that
    are equal in Python ([1], [1.0] and [True]; [0], [0.0], [-0.0] and
    [False]) have the same key.  A number is kept as [m * 2^e] with [m]
    odd, or as [0 * 2^0]. *)
Inductive key :=
| KNone
| KStr (s : string)
| KNum (m e : Z)
| KInf (negative : bool)
| KNaN.

Definition key_eqb (a b : key) : bool :=
  match a, b with
  | KNone, KNone => true
  | KStr s, KStr t => (s =? t)%string
  | KNum m e, KNum m' e' => (m =? m')%Z && (e =? e')%Z
  | KInf s, KInf s' => Bool.eqb s s'
  | KNaN, KNaN => true
  | _, _ => false
  end.

(** [m * 2^e] with the factors 2 of [m] moved into the exponent. *)
Fixpoint odd_part (m : positive) (e : Z) : positive * Z :=
  match m with
  | xO m' => odd_part m' (e + 1)
  | _ => (m, e)
  end.

Definition number (negative : bool) (m : positive) (e : Z) : key :=
  let (m', e') := odd_part m e in
  KNum (if negative then Zneg m' else Zpos m') e'.

Definition int_key (n : Z) : key :=
  match n with
  | Z0 => KNum 0 0
  | Zpos m => number false m 0
  | Zneg m => number true m 0
  end.

Definition float_key (f : float) : key :=
  match f with
  | FZero _ => KNum 0 0
  | FInfinity negative => KInf negative
  | FNaN => KNaN
  | FFinite negative m e => number negative m e
  end.

(** The key of a value; a [list] and a [dict] are unhashable. *)
Definition key_of (v : value) : option key :=
  match v with
  | VNone => Some KNone
  | VBool b => Some (int_key (if b then 1 else 0))
  | VInt n => Some (int_key n)
  | VFloat f => Some (float_key f)
  | VStr s => Some (KStr s)
  | VList _ | VDict _ => None
  end.

(** [str(e)] of the three exceptions [analyze_data] can raise. *)
Definition unhashable (v : value) : Llm.exn :=
  ("unhashable type: '" ++ type_name v ++ "'")%string.

Definition no_strip (v : value) : Llm.exn :=
  ("'" ++ type_name v ++ "' object has no attribute 'strip'")%string.

Definition not_iterable (v : value) : Llm.exn :=
  ("argument of type '" ++ type_name v ++ "' is not iterable")%string.

(** *** Its own [fetch_all_messages] *)

(** The outcome of one request: any exception, or the page. *)
Inductive response :=
| Failed (e : string)
| Page (items : list item) (total : Fetch.total_field).

Definition oracle := nat -> Z -> response.

Definition limit : Z := 100.

(** [while True] with its [break]s; [sent] records the cursors requested. *)
Fixpoint fetch_loop (fuel : nat) (api : oracle) (all_messages : list item)
         (skip : Z) (sent : list Z) : option (list item * list Z) :=
  match fuel with
  | 0 => None
  | S fuel' =>
      let sent' := sent ++ [skip] in
      match api (List.length sent) skip with
      | Failed _ => Some (all_messages, sent')
      | Page [] _ => Some (all_messages, sent')
      | Page items total =>
          let all := all_messages ++ items in
          match Fetch.total_or_default total with
          | Some t =>
              if (t <=? Z.of_nat (List.length all))%Z
              then Some (all, sent')
              else fetch_loop fuel' api all (skip + limit) sent'
          | None => Some (all, sent')      (* TypeError: [except], [break] *)
          end
      end
  end.

Definition run (fuel : nat) (api : oracle) : option (list item * list Z) :=
  fetch_loop fuel api [] 0 [].

Definition fetch_all_messages (fuel : nat) (api : oracle)
  : option (list item) :=
  option_map fst (run fuel api).

(** [D[skip : skip + limit]]. *)
Definition slice (D : list item) (skip : Z) : list item :=
  firstn 100 (skipn (Z.to_nat skip) D).

(** The cursors of the first [k] pages. *)
Definition cursors (k : nat) : list Z :=
  map (fun i => (limit * Z.of_nat i)%Z) (seq 0 k).

(** Beyond the cursor [bound] a request fails or yields no items. *)
Definition dry_beyond (bound : Z) (api : oracle) : Prop :=
  forall n s, (bound < s)%Z ->
    match api n s with
    | Page (_ :: _) _ => False
    | _ => True
    end.

(** The source serves [D] at every cursor below [100 * j]. *)
Definition serves_below (D : list item) (j : nat) (api : oracle) : Prop :=
  forall n i, i < j ->
    api n (limit * Z.of_nat i)%Z
    = Page (slice D (limit * Z.of_nat i))
           (Fetch.TotalInt (Z.of_nat (List.length D))).

Definition an_item (n : nat) : item :=
  mkItem (Some (VStr (NilZero.string_of_uint (Nat.to_uint n))))
         (Some (VStr "u1")) (Some (VStr "Layla"))
         (Some (VStr "2024-01-01T10:00:00")) (Some (VStr "hello")).

(** A source that serves [D] and fails whenever it is asked for the
    cursor [lost]. *)
Definition broken_at (lost : Z) (D : list item) : oracle :=
  fun _ s =>
    if (s =? lost)%Z then Failed "503 Service Unavailable"
    else Page (slice D s) (Fetch.TotalInt (Z.of_nat (List.length D))).

(** A source whose totals are not numbers and that has nothing beyond the
    first page. *)
Definition untyped_total : oracle :=
  fun _ s => if (s =? 0)%Z then Page [an_item 0] Fetch.TotalUnordered
             else Page [] Fetch.TotalAbsent.

(** *** [analyze_data] *)

(** A [set], as the keys of its members in the order of insertion (only
    its size and its members are observed). *)
Definition set_add (x : key) (s : list key) : list key :=
  if existsb (key_eqb x) s then s else s ++ [x].

(** A [defaultdict(set)], keys in the order of insertion. *)
Definition groups := list (key * list key).

(** [d[k].add(x)]. *)
Fixpoint group_add (k x : key) (d : groups) : groups :=
  match d with
  | [] => [(k, set_add x [])]
  | (k', s) :: rest =>
      if key_eqb k' k then (k', set_add x s) :: rest
      else (k', s) :: group_add k x rest
  end.

(** [d[k]] read without inserting: the empty set for a missing key. *)
Fixpoint group_get (d : groups) (k : key) : list key :=
  match d with
  | [] => []
  | (k', s) :: rest => if key_eqb k' k then s else group_get rest k
  end.

Definition user_id_of (msg : item) : value :=
  get (item_user_id msg) (VStr "").

Definition user_name_of (msg : item) : value :=
  get (item_user_name msg) (VStr "").

Definition id_of (msg : item) : value := get (item_id msg) (VStr "").

Definition timestamp_of (msg : item) : value :=
  get (item_timestamp msg) (VStr "").

(** The body of the first loop on [users_by_id] and [users_by_name]:
    [users_by_id[user_id]] hashes the id, [.add(user_name)] the name. *)
Definition group_user (d : groups * groups) (msg : item)
  : Llm.outcome (groups * groups) :=
  let user_id := user_id_of msg in
  let user_name := user_name_of msg in
  match key_of user_id, key_of user_name with
  | None, _ => Llm.Raised (unhashable user_id)
  | Some _, None => Llm.Raised (unhashable user_name)
  | Some i, Some n =>
      Llm.Returned (group_add i n (fst d), group_add n i (snd d))
  end.

(** The first loop: names by user id, ids by user name. *)
Fixpoint group_users (d : groups * groups) (messages : list item)
  : Llm.outcome (groups * groups) :=
  match messages with
  | [] => Llm.Returned d
  | msg :: rest =>
      match group_user d msg with
      | Llm.Returned d' => group_users d' rest
      | Llm.Raised e => Llm.Raised e
      end
  end.

(** The keys with more than one member. *)
Definition inconsistent (d : groups) : groups :=
  filter (fun entry => 1 <? List.length (snd entry)) d.

(** The variables of the second loop. *)
Record checks := mkChecks {
  message_ids : list key;
  duplicate_ids : list value;
  empty_messages : list value;
  null_fields : list string
}.

Definition note (present : option value) (field : string)
           (fields : list string) : list string :=
  if negb (truthy (get present VNone)) then fields ++ [field] else fields.

(** The [if]/[elif]/[else] on the id; [msg_id in message_ids] hashes it. *)
Definition check_id (st : checks) (msg_id : value) : Llm.outcome checks :=
  if negb (truthy msg_id)
  then Llm.Returned
         (mkChecks (message_ids st) (duplicate_ids st) (empty_messages st)
                   (null_fields st ++ ["id"]))
  else match key_of msg_id with
       | None => Llm.Raised (unhashable msg_id)
       | Some k =>
           if existsb (key_eqb k) (message_ids st)
           then Llm.Returned
                  (mkChecks (message_ids st) (duplicate_ids st ++ [msg_id])
                            (empty_messages st) (null_fields st))
           else Llm.Returned
                  (mkChecks (set_add k (message_ids st)) (duplicate_ids st)
                            (empty_messages st) (null_fields st))
       end.

(** The body of the second loop; only a [str] has [.strip()]. *)
Definition check_message (st : checks) (msg : item) : Llm.outcome checks :=
  let msg_id := id_of msg in
  match check_id st msg_id with
  | Llm.Raised e => Llm.Raised e
  | Llm.Returned st1 =>
      match get (item_message msg) (VStr "") with
      | VStr body =>
          let empty :=
            if negb (Str.nonempty (Str.strip body))
            then empty_messages st1 ++ [msg_id] else empty_messages st1 in
          Llm.Returned
            (mkChecks (message_ids st1) (duplicate_ids st1) empty
               (note (item_timestamp msg) "timestamp"
                  (note (item_user_name msg) "user_name"
                     (note (item_user_id msg) "user_id" (null_fields st1)))))
      | other => Llm.Raised (no_strip other)
      end
  end.

Fixpoint check_messages (st : checks) (messages : list item)
  : Llm.outcome checks :=
  match messages with
  | [] => Llm.Returned st
  | msg :: rest =>
      match check_message st msg with
      | Llm.Returned st' => check_messages st' rest
      | Llm.Raised e => Llm.Raised e
      end
  end.

(** The body of the third loop on [invalid_timestamps]: a timestamp that
    is false is recorded; on any other, ["T" in timestamp] needs a [str],
    a [list] or a [dict].  (The format counts are only printed.) *)
Definition check_timestamp (invalid : list value) (msg : item)
  : Llm.outcome (list value) :=
  let timestamp := timestamp_of msg in
  if negb (truthy timestamp)
  then Llm.Returned (invalid ++ [get (item_id msg) (VStr "unknown")])
  else match timestamp with
       | VStr _ | VList _ | VDict _ => Llm.Returned invalid
       | other => Llm.Raised (not_iterable other)
       end.

Fixpoint check_timestamps (invalid : list value) (messages : list item)
  : Llm.outcome (list value) :=
  match messages with
  | [] => Llm.Returned invalid
  | msg :: rest =>
      match check_timestamp invalid msg with
      | Llm.Returned invalid' => check_timestamps invalid' rest
      | Llm.Raised e => Llm.Raised e
      end
  end.

(** The dict [analyze_data] returns. *)
Record report := mkReport {
  total_messages : nat;
  unique_users : nat;
  inconsistent_users : nat;
  inconsistent_names : nat;
  duplicates : nat;
  empties : nat;
  invalid_timestamps : nat
}.

(** The three loops in their order, then the dict.  (What lies between
    them prints; the lengths of section 4 are taken of bodies that the
    second loop has found to be strings.) *)
Definition analyze_data (messages : list item) : Llm.outcome report :=
  match group_users ([], []) messages with
  | Llm.Raised e => Llm.Raised e
  | Llm.Returned (users_by_id, users_by_name) =>
      match check_messages (mkChecks [] [] [] []) messages with
      | Llm.Raised e => Llm.Raised e
      | Llm.Returned st =>
          match check_timestamps [] messages with
          | Llm.Raised e => Llm.Raised e
          | Llm.Returned invalid =>
              Llm.Returned
                (mkReport (List.length messages)
                          (List.length users_by_name)
                          (List.length (inconsistent users_by_id))
                          (List.length (inconsistent users_by_name))
                          (List.length (duplicate_ids st))
                          (List.length (empty_messages st))
                          (List.length invalid))
          end
      end
  end.

(** The keys of the ids that are set, in the order of the messages. *)
Definition ids_set (messages : list item) : list (option key) :=
  map key_of (filter truthy (map id_of messages)).

(** The body of a message is missing, empty or blank. *)
Definition no_body (msg : item) : bool :=
  match get (item_message msg) (VStr "") with
  | VStr body => negb (Str.nonempty (Str.strip body))
  | _ => false
  end.

Definition hashable (v : value) : bool :=
  match key_of v with
  | Some _ => true
  | None => false
  end.

(** What each loop needs of a message so as not to raise. *)
Definition keyed (msg : item) : bool :=
  hashable (user_id_of msg) && hashable (user_name_of msg).

Definition id_ok (msg : item) : bool :=
  negb (truthy (id_of msg)) || hashable (id_of msg).

Definition body_ok (msg : item) : bool :=
  match get (item_message msg) (VStr "") with
  | VStr _ => true
  | _ => false
  end.

Definition timestamp_ok (msg : item) : bool :=
  negb (truthy (timestamp_of msg))
  || match timestamp_of msg with
     | VStr _ | VList _ | VDict _ => true
     | _ => false
     end.

Definition clean (msg : item) : bool :=
  keyed msg && (id_ok msg && body_ok msg) && timestamp_ok msg.

(** The user id and the user name of a message as keys. *)
Definition pair_of (msg : item) : option (key * key) :=
  match key_of (user_id_of msg), key_of (user_name_of msg) with
  | Some i, Some n => Some (i, n)
  | _, _ => None
  end.

Definition pairs (messages : list item) : list (key * key) :=
  flat_map (fun msg => match pair_of msg with
                       | Some p => [p]
                       | None => []
                       end) messages.

Definition swap (p : key * key) : key * key := (snd p, fst p).

(** What the groups hold after the pairs [seen]. *)
Definition grouped (d : groups) (seen : list (key * key)) : Prop :=
  NoDup (map fst d) /\
  (forall k, NoDup (group_get d k)) /\
  (forall k x, In x (group_get d k) <-> In (k, x) seen) /\
  (forall k, In k (map fst d) <-> In k (map fst seen)).

(** What the second loop holds after the messages [seen]. *)
Definition checked (st : checks) (seen : list item) : Prop :=
  NoDup (message_ids st) /\
  (forall v, In v (map Some (message_ids st)) <-> In v (ids_set seen)) /\
  List.length (message_ids st) + List.length (duplicate_ids st)
  = List.length (ids_set seen) /\
  List.length (empty_messages st) = List.length (filter no_body seen).

Definition entry (id user_id user_name timestamp body : string) : item :=
  mkItem (Some (VStr id)) (Some (VStr user_id)) (Some (VStr user_name))
         (Some (VStr timestamp)) (Some (VStr body)).

(** A data set with a repeated id, a user id under two names, a blank body
    and a missing timestamp. *)
Definition messy : list item :=
  [ entry "1" "u1" "Layla" "2024-01-01T10:00:00" "I am flying to London";
    entry "2" "u1" "Leila" "2024-01-02T10:00:00" "   ";
    entry "1" "u2" "Amira" "" "Dinner was lovely";
    mkItem None (Some (VStr "u2")) (Some (VStr "Amira")) (Some VNone)
           None ].

(** A data set whose ids and user ids are numbers: the ids [7], [7.0]
    ([7 * 2^0] and [7 * 2^50 * 2^-50]) are the same key, and so are the user
    ids [1] and [True]. *)
Definition numeric : list item :=
  [ mkItem (Some (VInt 7)) (Some (VInt 1)) (Some (VStr "Layla"))
           (Some (VStr "2024-01-01T10:00:00")) (Some (VStr "hello"));
    mkItem (Some (VFloat (FFinite false (7 * 2 ^ 50)%positive (-50))))
           (Some (VBool true)) (Some (VStr "Leila"))
           (Some (VList [VStr "2024"])) (Some (VStr "hello again")) ].

(** A message whose body is an explicit [null], and one whose body is a
    number. *)
Definition null_body : item :=
  mkItem (Some (VStr "9")) (Some (VStr "u3")) (Some (VStr "Omar"))
         (Some (VStr "2024-01-03T10:00:00")) (Some VNone).

Definition number_body : item :=
  mkItem (Some (VStr "10")) (Some (VStr "u3")) (Some (VStr "Omar"))
         (Some (VStr "2024-01-03T10:00:00")) (Some (VInt 5)).

Lemma cursors_snoc k : cursors (S k) = cursors k ++ [(limit * Z.of_nat k)%Z].
Proof. unfold cursors. now rewrite seq_S, map_app. Qed.

Lemma cursors_length k : List.length (cursors k) = k.
Proof. unfold cursors. now rewrite length_map, length_seq. Qed.

Lemma slice_cursor (D : list item) (i : nat) :
  slice D (limit * Z.of_nat i) = firstn 100 (skipn (100 * i) D).
Proof. unfold slice, limit. do 2 f_equal. lia. Qed.

Lemma firstn_slice (D : list item) (n m : nat) :
  firstn n D ++ firstn m (skipn n D) = firstn (n + m) D.
Proof.
  revert D; induction n as [|n IH]; intros D; [reflexivity|].
  destruct D as [|x D]; cbn [firstn skipn Nat.add app].
  - now rewrite firstn_nil.
  - now rewrite IH.
Qed.

(** The loop against a source that serves [D] below the cursor [100 * j]
    and fails there. *)
Lemma fetch_loop_serves_below (D : list item) (j : nat) (api : oracle) :
  serves_below D j api ->
  (100 * j < List.length D ->
   forall n, exists e, api n (limit * Z.of_nat j)%Z = Failed e) ->
  (0 < j \/ 100 * j < List.length D) ->
  forall m i,
    i <= j -> j - i < m -> (100 * i < List.length D \/ i = 0) ->
    exists fuel k,
      k <= S j /\
      fetch_loop fuel api (firstn (100 * i) D) (limit * Z.of_nat i)
                 (cursors i)
      = Some (firstn (100 * j) D, cursors k).
Proof.
  intros Hserved Hfail Hj. induction m as [|m IH]; intros i Hij Hm Hmore; [lia|].
  destruct (Nat.eq_dec i j) as [->|Hne].
  - exists 1, (S j). split; [lia|]. cbn [fetch_loop].
    rewrite cursors_length.
    destruct (Hfail ltac:(lia) j) as [e ->].
    now rewrite cursors_snoc.
  - assert (Hpage : api i (limit * Z.of_nat i)%Z
                    = Page (slice D (limit * Z.of_nat i))
                           (Fetch.TotalInt (Z.of_nat (List.length D))))
      by (apply Hserved; lia).
    rewrite slice_cursor in Hpage.
    destruct (firstn 100 (skipn (100 * i) D)) as [|x page] eqn:Hslice.
    + exists 1, (S i). split; [lia|]. cbn [fetch_loop].
      rewrite cursors_length, Hpage, cursors_snoc. do 2 f_equal.
      assert (Hlen : List.length (firstn 100 (skipn (100 * i) D)) = 0)
        by now rewrite Hslice.
      rewrite length_firstn, length_skipn in Hlen.
      rewrite !firstn_all2 by lia. reflexivity.
    + assert (Hnext : firstn (100 * i) D ++ x :: page
                      = firstn (100 * S i) D).
      { rewrite <- Hslice, firstn_slice. f_equal. lia. }
      destruct (Z.of_nat (List.length D)
                <=? Z.of_nat (List.length (firstn (100 * i) D ++ x :: page)))%Z
        eqn:C.
      * exists 1, (S i). split; [lia|]. cbn [fetch_loop].
        rewrite cursors_length, Hpage. cbn [Fetch.total_or_default].
        rewrite C, cursors_snoc, Hnext. do 2 f_equal.
        apply Z.leb_le in C. rewrite Hnext, length_firstn in C.
        rewrite !firstn_all2 by lia. reflexivity.
      * destruct (IH (S i)) as (fuel & k & Hk & Hrun); try lia.
        { left. apply Z.leb_gt in C. rewrite Hnext, length_firstn in C. lia. }
        exists (S fuel), k. split; [exact Hk|]. cbn [fetch_loop].
        rewrite cursors_length, Hpage. cbn [Fetch.total_or_default].
        rewrite C, Hnext, <- cursors_snoc.
        replace (limit * Z.of_nat i + limit)%Z with (limit * Z.of_nat (S i))%Z
          by (unfold limit; lia).
        exact Hrun.
Qed.

(** X19: against a source that serves the data set [D] at every cursor, the
    script's fetch returns [D], with one request per page and none
    repeated. *)
Theorem analysis_fetch_complete (D : list item) (api : oracle) :
  (forall n i,
     api n (limit * Z.of_nat i)%Z
     = Page (slice D (limit * Z.of_nat i))
            (Fetch.TotalInt (Z.of_nat (List.length D)))) ->
  exists fuel k,
    run fuel api = Some (D, cursors k) /\
    fetch_all_messages fuel api = Some D.
Proof.
  intro Hs.
  destruct (fetch_loop_serves_below D (S (List.length D)) api) with
    (m := S (S (List.length D))) (i := 0)
    as (fuel & k & Hk & Hrun); try lia.
  - intros n i _. apply Hs.
  - replace (100 * 0) with 0 in Hrun by lia. cbn [firstn] in Hrun.
    change (limit * Z.of_nat 0)%Z with 0%Z in Hrun.
    rewrite firstn_all2 in Hrun by lia.
    exists fuel, k. unfold fetch_all_messages, run.
    change (cursors 0) with (@nil Z) in Hrun. now rewrite Hrun.
Qed.

Lemma analysis_fetch_complete_witness :
  let D := map an_item (seq 0 250) in
  (forall n i,
     broken_at (-1) D n (limit * Z.of_nat i)%Z
     = Page (slice D (limit * Z.of_nat i))
            (Fetch.TotalInt (Z.of_nat (List.length D)))) /\
  exists fuel k, run fuel (broken_at (-1) D) = Some (D, cursors k).
Proof.
  intro D.
  assert (Hs : forall n i,
            broken_at (-1) D n (limit * Z.of_nat i)%Z
            = Page (slice D (limit * Z.of_nat i))
                   (Fetch.TotalInt (Z.of_nat (List.length D)))).
  { intros n i. unfold broken_at.
    replace (_ =? _)%Z with false
      by (symmetry; apply Z.eqb_neq; unfold limit; lia).
    reflexivity. }
  split; [exact Hs|].
  destruct (analysis_fetch_complete D _ Hs) as (fuel & k & Hrun & _).
  now exists fuel, k.
Defined.

(** X20: the script's fetch has no retry and no skipping: against a source
    that serves [D] below the cursor [100 * j] and fails at that cursor,
    with data still to come there, the fetch stops at the failure and
    returns the first [100 * j] items only, after one request for each of
    the cursors [0, 100, ..., 100 * j]. *)
Theorem analysis_fetch_stops_at_failure (D : list item) (j : nat)
        (api : oracle) :
  serves_below D j api ->
  100 * j < List.length D ->
  (forall n, exists e, api n (limit * Z.of_nat j)%Z = Failed e) ->
  exists fuel,
    run fuel api = Some (firstn (100 * j) D, cursors (S j)).
Proof.
  intros Hs Hlt Hfail.
  assert (Hgen : forall m i,
            i <= j -> j - i < m ->
            exists fuel,
              fetch_loop fuel api (firstn (100 * i) D) (limit * Z.of_nat i)
                         (cursors i)
              = Some (firstn (100 * j) D, cursors (S j))).
  { induction m as [|m IH]; intros i Hij Hm; [lia|].
    destruct (Nat.eq_dec i j) as [->|Hne].
    - exists 1. cbn [fetch_loop]. rewrite cursors_length.
      destruct (Hfail j) as [e ->]. now rewrite cursors_snoc.
    - assert (Hpage : api i (limit * Z.of_nat i)%Z
                      = Page (slice D (limit * Z.of_nat i))
                             (Fetch.TotalInt (Z.of_nat (List.length D))))
        by (apply Hs; lia).
      rewrite slice_cursor in Hpage.
      assert (Hnext : firstn (100 * i) D ++ firstn 100 (skipn (100 * i) D)
                      = firstn (100 * S i) D)
        by (rewrite firstn_slice; f_equal; lia).
      destruct (firstn 100 (skipn (100 * i) D)) as [|x page] eqn:Hslice.
      + assert (Hlen : List.length (firstn 100 (skipn (100 * i) D)) = 0)
          by now rewrite Hslice.
        rewrite length_firstn, length_skipn in Hlen. lia.
      + destruct (IH (S i)) as (fuel & Hrun); try lia.
        exists (S fuel). cbn [fetch_loop].
        rewrite cursors_length, Hpage. cbn [Fetch.total_or_default].
        replace (_ <=? _)%Z with false.
        * rewrite Hnext, <- cursors_snoc.
          replace (limit * Z.of_nat i + limit)%Z
            with (limit * Z.of_nat (S i))%Z by (unfold limit; lia).
          exact Hrun.
        * symmetry. apply Z.leb_gt. rewrite Hnext, length_firstn. lia. }
  destruct (Hgen (S j) 0) as (fuel & Hrun); try lia.
  exists fuel. unfold run.
  replace (100 * 0) with 0 in Hrun by lia. exact Hrun.
Qed.

Lemma analysis_fetch_stops_at_failure_witness :
  let D := map an_item (seq 0 250) in
  serves_below D 1 (broken_at 100 D) /\
  100 * 1 < List.length D /\
  exists fuel,
    run fuel (broken_at 100 D) = Some (map an_item (seq 0 100), [0; 100]%Z).
Proof.
  intro D.
  assert (Hs : serves_below D 1 (broken_at 100 D)).
  { intros n i Hi. assert (i = 0) as -> by lia. reflexivity. }
  assert (Hlt : 100 * 1 < List.length D) by (vm_compute; lia).
  split; [exact Hs|]. split; [exact Hlt|].
  destruct (analysis_fetch_stops_at_failure D 1 (broken_at 100 D) Hs Hlt)
    as (fuel & Hrun).
  - intro n. eexists. reflexivity.
  - exists fuel. rewrite Hrun. vm_compute. reflexivity.
Defined.

(** The loop returns at once beyond the bound and moves the cursor on
    below it. *)
Lemma fetch_loop_returns_when_dry api bound : dry_beyond bound api ->
  forall m all skip sent,
    Z.to_nat (bound + 1 - skip) <= m ->
    exists result, fetch_loop (S m) api all skip sent = Some result.
Proof.
  intro Hdry. induction m as [|m IH]; intros all skip sent Hm.
  - cbn [fetch_loop]. pose proof (Hdry (List.length sent) skip) as Hd.
    destruct (api (List.length sent) skip) as [e|[|x items] total]; eauto.
    now elim Hd; lia.
  - remember (S m) as fuel. cbn [fetch_loop].
    destruct (api (List.length sent) skip) as [e|[|x items] total] eqn:Hp;
      eauto.
    destruct (Fetch.total_or_default total) as [t|]; eauto.
    destruct (_ <=? _)%Z; eauto.
    subst fuel. apply IH.
    destruct (Z_lt_le_dec bound skip) as [Hb|Hb].
    + pose proof (Hdry (List.length sent) skip Hb) as Hd.
      rewrite Hp in Hd. contradiction.
    + unfold limit. lia.
Qed.

(** X21: the script's fetch returns for every source that runs dry beyond
    some cursor [bound], whatever totals it reports (a total that is not a
    number ends the loop through the [except] branch), and does so within
    [bound + 2] requests. *)
Theorem analysis_fetch_terminates api bound :
  dry_beyond bound api ->
  exists result sent,
    run (S (Z.to_nat (bound + 1))) api = Some (result, sent).
Proof.
  intro Hdry.
  destruct (fetch_loop_returns_when_dry api bound Hdry (Z.to_nat (bound + 1))
              [] 0%Z []) as [[result sent] Hrun]; [lia|].
  now exists result, sent.
Qed.

Lemma analysis_fetch_terminates_witness :
  dry_beyond 0 untyped_total /\
  run 2 untyped_total = Some ([an_item 0], [0%Z]).
Proof.
  assert (Hd : dry_beyond 0 untyped_total).
  { intros n s Hs. unfold untyped_total.
    destruct (s =? 0)%Z eqn:E; [apply Z.eqb_eq in E; lia | exact I]. }
  split; [exact Hd|].
  destruct (analysis_fetch_terminates untyped_total 0 Hd)
    as (result & sent & Hrun).
  change (S (Z.to_nat (0 + 1))) with 2 in Hrun.
  rewrite Hrun. vm_compute in Hrun. injection Hrun as <- <-. reflexivity.
Defined.

(** *** Keys *)

Lemma key_eqb_eq a b : key_eqb a b = true <-> a = b.
Proof.
  destruct a as [|s|m e|s|], b as [|t|m' e'|s'|]; cbn;
    split; try congruence; try reflexivity.
  - intro H. apply String.eqb_eq in H. now subst.
  - intro H. injection H as ->. apply String.eqb_refl.
  - intro H. apply andb_true_iff in H as [Hm He].
    apply Z.eqb_eq in Hm, He. now subst.
  - intro H. injection H as -> ->. now rewrite !Z.eqb_refl.
  - intro H. apply Bool.eqb_prop in H. now subst.
  - intro H. injection H as ->. apply Bool.eqb_reflx.
Qed.

Lemma key_eqb_refl a : key_eqb a a = true.
Proof. now apply key_eqb_eq. Qed.

Lemma key_eqb_neq a b : key_eqb a b = false <-> a <> b.
Proof.
  rewrite <- key_eqb_eq. destruct (key_eqb a b); split; congruence.
Qed.

Lemma key_eq_dec (a b : key) : {a = b} + {a <> b}.
Proof.
  destruct (key_eqb a b) eqn:E;
    [left; now apply key_eqb_eq | right; now apply key_eqb_neq].
Qed.

(** [odd_part] keeps the number and leaves an odd mantissa. *)
Lemma odd_part_spec m : forall e m' e',
  odd_part m e = (m', e') ->
  (e <= e')%Z /\ Zpos m = (Zpos m' * 2 ^ (e' - e))%Z /\ Z.odd (Zpos m') = true.
Proof.
  induction m as [m IH|m IH|]; intros e m' e' H; cbn [odd_part] in H.
  - injection H as <- <-. rewrite Z.sub_diag. cbn. split; [lia|].
    split; [lia | reflexivity].
  - apply IH in H as (Hle & Hm & Hodd). split; [lia|]. split; [|exact Hodd].
    replace (e' - e)%Z with (Z.succ (e' - (e + 1)))%Z by lia.
    rewrite Z.pow_succ_r by lia. lia.
  - injection H as <- <-. rewrite Z.sub_diag. cbn. split; [lia|].
    split; [lia | reflexivity].
Qed.

(** Two odd mantissas with their exponents give the same number only when
    they are the same. *)
Lemma odd_mantissa_unique (a b : positive) (i j : Z) :
  Z.odd (Zpos a) = true -> Z.odd (Zpos b) = true ->
  (0 <= i)%Z -> (0 <= j)%Z ->
  (Zpos a * 2 ^ i = Zpos b * 2 ^ j)%Z -> a = b /\ i = j.
Proof.
  intros Ha Hb Hi Hj H.
  assert (Hgen : forall (a b : positive) (i j : Z),
            Z.odd (Zpos a) = true -> (0 <= i)%Z -> (i < j)%Z ->
            (Zpos a * 2 ^ i = Zpos b * 2 ^ j)%Z -> False).
  { clear. intros a b i j Ha Hi Hij H.
    replace j with (i + Z.succ (j - i - 1))%Z in H by lia.
    rewrite Z.pow_add_r, Z.pow_succ_r in H by lia.
    assert (Hp : (0 < 2 ^ i)%Z) by (apply Z.pow_pos_nonneg; lia).
    assert (E : Zpos a = (2 * (Zpos b * 2 ^ (j - i - 1)))%Z) by nia.
    rewrite E, Z.odd_mul in Ha. discriminate. }
  destruct (Z.lt_trichotomy i j) as [Hlt|[->|Hgt]].
  - elim (Hgen a b i j Ha Hi Hlt H).
  - assert (Hp : (0 < 2 ^ j)%Z) by (apply Z.pow_pos_nonneg; lia).
    split; [|reflexivity]. assert (Zpos a = Zpos b) by nia. congruence.
  - elim (Hgen b a j i Hb Hj Hgt (eq_sym H)).
Qed.

(** Two [int]s have the same key only when they are the same number. *)
Lemma int_key_injective a b : int_key a = int_key b -> a = b.
Proof.
  assert (Hpos : forall s s' p q,
            number s p 0 = number s' q 0 -> s = s' /\ p = q).
  { intros s s' p q. unfold number.
    destruct (odd_part p 0) as [p' i] eqn:Ep.
    destruct (odd_part q 0) as [q' j] eqn:Eq.
    apply odd_part_spec in Ep as (Hi & Hp & Hop).
    apply odd_part_spec in Eq as (Hj & Hq & Hoq).
    rewrite Z.sub_0_r in Hp, Hq.
    intro H. injection H as Hm He. subst j.
    assert (p' = q') as -> by (destruct s, s'; congruence).
    split; [destruct s, s'; congruence|].
    assert (Zpos p = Zpos q) by congruence. congruence. }
  assert (Hzero : forall s p, number s p 0 <> KNum 0 0).
  { intros s p. unfold number. destruct (odd_part p 0) as [p' i].
    destruct s; discriminate. }
  destruct a as [|p|p], b as [|q|q]; cbn [int_key]; intro H;
    try reflexivity;
    try (now elim (Hzero _ _ H));
    try (now elim (Hzero _ _ (eq_sym H)));
    apply Hpos in H as [Hs ->]; try discriminate; reflexivity.
Qed.

(** A finite [float] and an [int] have the same key exactly when they are
    the same number: [(-1)^s * m * 2^e = n], stated without fractions. *)
Lemma float_key_int negative m e n :
  float_key (FFinite negative m e) = int_key n
  <-> (if (0 <=? e)%Z
       then n = ((if negative then Zneg m else Zpos m) * 2 ^ e)%Z
       else (n * 2 ^ (- e))%Z = (if negative then Zneg m else Zpos m)).
Proof.
  cbn [float_key].
  assert (Hnum : forall s p i q j,
            number s p i = number s q j
            <-> exists c k, odd_part p i = (c, k) /\ odd_part q j = (c, k)).
  { intros s p i q j. unfold number.
    destruct (odd_part p i) as [c k], (odd_part q j) as [c' k'].
    split.
    - intro H. exists c, k. split; [reflexivity|].
      destruct s; injection H as -> ->; reflexivity.
    - intros (c0 & k0 & E1 & E2).
      injection E1 as -> ->. injection E2 as -> ->. reflexivity. }
  assert (Hzero : forall s p i, number s p i <> KNum 0 0).
  { intros s p i. unfold number. destruct (odd_part p i) as [p' i'].
    destruct s; discriminate. }
  assert (Hsign : forall s s' p i q j,
            number s p i = number s' q j -> s = s').
  { intros s s' p i q j. unfold number.
    destruct (odd_part p i), (odd_part q j).
    destruct s, s'; congruence. }
  assert (Hmain : forall q,
            number negative m e = number negative q 0
            <-> (if (0 <=? e)%Z then Zpos q = (Zpos m * 2 ^ e)%Z
                 else (Zpos q * 2 ^ (- e))%Z = Zpos m)).
  { intro q. rewrite Hnum. split.
    - intros (c & k & E1 & E2).
      apply odd_part_spec in E1 as (H1 & Hm & _).
      apply odd_part_spec in E2 as (H2 & Hq & _).
      rewrite Z.sub_0_r in Hq. rewrite Hm, Hq.
      destruct (0 <=? e)%Z eqn:C.
      + apply Z.leb_le in C. rewrite <- Z.mul_assoc, <- Z.pow_add_r by lia.
        f_equal; f_equal; lia.
      + apply Z.leb_gt in C. rewrite <- Z.mul_assoc, <- Z.pow_add_r by lia.
        f_equal; f_equal; lia.
    - intro H.
      destruct (odd_part m e) as [c k] eqn:E1.
      destruct (odd_part q 0) as [c' k'] eqn:E2.
      exists c, k. split; [reflexivity|].
      apply odd_part_spec in E1 as (H1 & Hm & Hc).
      apply odd_part_spec in E2 as (H2 & Hq & Hc').
      rewrite Z.sub_0_r in Hq.
      destruct (0 <=? e)%Z eqn:C.
      + apply Z.leb_le in C.
        rewrite Hm, Hq, <- Z.mul_assoc, <- Z.pow_add_r in H by lia.
        apply odd_mantissa_unique in H as [-> Hk]; try assumption; try lia.
        f_equal; lia.
      + apply Z.leb_gt in C.
        rewrite Hm, Hq, <- Z.mul_assoc, <- Z.pow_add_r in H by lia.
        apply odd_mantissa_unique in H as [-> Hk]; try assumption; try lia.
        f_equal; lia. }
  assert (Hpow : forall i, (0 <= i)%Z -> (0 < 2 ^ i)%Z)
    by (intros; apply Z.pow_pos_nonneg; lia).
  destruct n as [|q|q]; cbn [int_key].
  - split; [intro H; now elim (Hzero _ _ _ H)|].
    destruct (0 <=? e)%Z eqn:C.
    + apply Z.leb_le in C. pose proof (Hpow e C).
      destruct negative; intro H'; exfalso; nia.
    + rewrite Z.mul_0_l. destruct negative; discriminate.
  - destruct negative; [|apply Hmain].
    split; [intro H; apply Hsign in H; discriminate|].
    destruct (0 <=? e)%Z eqn:C.
    + apply Z.leb_le in C. pose proof (Hpow e C). intro; exfalso; nia.
    + apply Z.leb_gt in C. pose proof (Hpow (- e)%Z ltac:(lia)).
      intro; exfalso; nia.
  - destruct negative.
    + rewrite Hmain. rewrite <- !Pos2Z.opp_pos, !Z.mul_opp_l.
      destruct (0 <=? e)%Z; split; intro H; lia.
    + split; [intro H; apply Hsign in H; discriminate|].
      destruct (0 <=? e)%Z eqn:C.
      * apply Z.leb_le in C. pose proof (Hpow e C). intro; exfalso; nia.
      * apply Z.leb_gt in C. pose proof (Hpow (- e)%Z ltac:(lia)).
        intro; exfalso; nia.
Qed.

(** On strings and [None] the key tells the value. *)
Lemma key_of_str v s : key_of v = Some (KStr s) <-> v = VStr s.
Proof.
  split; [|now intros ->].
  destruct v as [|b|n|f|t|l|d]; cbn [key_of]; try discriminate.
  - destruct b; cbn [int_key]; unfold number; cbn; discriminate.
  - destruct n; cbn [int_key]; unfold number;
      try destruct (odd_part _ _); discriminate.
  - destruct f as [s0|s0| |s0 m e]; cbn [float_key]; unfold number;
      try destruct (odd_part _ _); try destruct s0; discriminate.
  - congruence.
Qed.

(** *** Sets and groups *)

Lemma existsb_key_In x (s : list key) :
  existsb (key_eqb x) s = true <-> In x s.
Proof.
  rewrite existsb_exists. split.
  - intros (y & Hy & E). apply key_eqb_eq in E. now subst.
  - intro H. exists x. split; [exact H | apply key_eqb_refl].
Qed.

Lemma set_add_In x s y : In y (set_add x s) <-> y = x \/ In y s.
Proof.
  unfold set_add. destruct (existsb (key_eqb x) s) eqn:E.
  - apply existsb_key_In in E. split; [tauto|]. intros [->|H]; assumption.
  - rewrite in_app_iff. cbn. split; [intros [H|[<-|[]]]; tauto|].
    intros [->|H]; tauto.
Qed.

Lemma set_add_NoDup x s : NoDup s -> NoDup (set_add x s).
Proof.
  intro H. unfold set_add. destruct (existsb (key_eqb x) s) eqn:E;
    [exact H|].
  assert (Hnot : ~ In x s)
    by (intro Hin; apply existsb_key_In in Hin; congruence).
  apply NoDup_app; [exact H | repeat constructor; intros [] |].
  intros y Hy [<-|[]]. now apply Hnot.
Qed.

Lemma set_add_length x s :
  List.length (set_add x s)
  = if existsb (key_eqb x) s then List.length s else S (List.length s).
Proof.
  unfold set_add. destruct (existsb (key_eqb x) s); [reflexivity|].
  rewrite length_app. cbn. lia.
Qed.

Lemma group_get_add k x k' : forall d,
  group_get (group_add k x d) k'
  = if key_eqb k k' then set_add x (group_get d k) else group_get d k'.
Proof.
  induction d as [|[k0 s] rest IH]; cbn [group_add group_get].
  - now destruct (key_eqb k k').
  - destruct (key_eqb k0 k) eqn:E0; cbn [group_get].
    + apply key_eqb_eq in E0. subst k0.
      now destruct (key_eqb k k').
    + rewrite IH. destruct (key_eqb k0 k') eqn:E1; [|reflexivity].
      apply key_eqb_eq in E1. subst k'.
      apply key_eqb_neq in E0.
      now rewrite (proj2 (key_eqb_neq k k0)) by congruence.
Qed.

Lemma group_add_keys k x : forall d,
  map fst (group_add k x d)
  = if existsb (key_eqb k) (map fst d) then map fst d
    else map fst d ++ [k].
Proof.
  induction d as [|[k0 s] rest IH]; cbn [group_add map fst existsb];
    [reflexivity|].
  destruct (key_eqb k0 k) eqn:E0; cbn [map fst].
  - apply key_eqb_eq in E0. subst k0. now rewrite key_eqb_refl.
  - rewrite IH.
    replace (key_eqb k k0) with false.
    + cbn [orb]. now destruct (existsb (key_eqb k) (map fst rest)).
    + symmetry. apply key_eqb_neq. apply key_eqb_neq in E0. congruence.
Qed.

Lemma group_get_missing k : forall d,
  ~ In k (map fst d) -> group_get d k = [].
Proof.
  induction d as [|[k0 s] rest IH]; cbn [group_get map fst In]; [reflexivity|].
  intro H. destruct (key_eqb k0 k) eqn:E.
  - apply key_eqb_eq in E. tauto.
  - apply IH. tauto.
Qed.

Lemma group_entry_get k s : forall d,
  NoDup (map fst d) -> In (k, s) d -> group_get d k = s.
Proof.
  induction d as [|[k0 s0] rest IH]; cbn [group_get map fst In]; [tauto|].
  intros Hnd [H|H].
  - injection H as -> ->. now rewrite key_eqb_refl.
  - inversion Hnd as [|? ? Hnot Hrest]; subst.
    destruct (key_eqb k0 k) eqn:E.
    + apply key_eqb_eq in E. subst k0.
      elim Hnot. apply in_map_iff. now exists (k, s).
    + now apply IH.
Qed.

Lemma group_get_entry k : forall d,
  In k (map fst d) -> In (k, group_get d k) d.
Proof.
  induction d as [|[k0 s0] rest IH]; cbn [group_get map fst In]; [tauto|].
  intro H. destruct (key_eqb k0 k) eqn:E.
  - apply key_eqb_eq in E. subst k0. now left.
  - right. apply IH. destruct H as [H|H]; [|exact H].
    apply key_eqb_neq in E. congruence.
Qed.

(** No key has more than one member exactly when every lookup gives at
    most one. *)
Lemma inconsistent_nil d :
  NoDup (map fst d) ->
  (inconsistent d = [] <-> forall k, List.length (group_get d k) <= 1).
Proof.
  intro Hnd. unfold inconsistent. split.
  - intros Hnil k. destruct (in_dec key_eq_dec k (map fst d)) as [Hin|Hout].
    + apply group_get_entry in Hin.
      assert (Hf : In (k, group_get d k)
                      (filter (fun e => 1 <? List.length (snd e)) d) -> False)
        by (rewrite Hnil; intros []).
      destruct (1 <? List.length (group_get d k)) eqn:E.
      * elim Hf. apply filter_In. now split.
      * now apply Nat.ltb_ge in E.
    + rewrite (group_get_missing _ _ Hout). cbn. lia.
  - intro Hall.
    destruct (filter (fun e => 1 <? List.length (snd e)) d) as [|[k s] rest]
      eqn:F; [reflexivity|].
    assert (Hin : In (k, s) (filter (fun e => 1 <? List.length (snd e)) d))
      by (rewrite F; now left).
    apply filter_In in Hin as [Hin Hlen]. cbn [snd] in Hlen.
    apply Nat.ltb_lt in Hlen.
    rewrite <- (group_entry_get _ _ _ Hnd Hin) in Hlen.
    specialize (Hall k). lia.
Qed.

Lemma grouped_add d seen k x :
  grouped d seen -> grouped (group_add k x d) (seen ++ [(k, x)]).
Proof.
  intros (Hnd & Hsets & Hmem & Hkeys). repeat split.
  - rewrite group_add_keys.
    destruct (existsb (key_eqb k) (map fst d)) eqn:E; [exact Hnd|].
    assert (Hnot : ~ In k (map fst d))
      by (intro Hin; apply existsb_key_In in Hin; congruence).
    apply NoDup_app; [exact Hnd | repeat constructor; intros [] |].
    intros y Hy [<-|[]]. now apply Hnot.
  - intro k'. rewrite group_get_add.
    destruct (key_eqb k k'); [apply set_add_NoDup|]; apply Hsets.
  - rewrite group_get_add, in_app_iff. cbn [In].
    destruct (key_eqb k k0) eqn:E.
    + apply key_eqb_eq in E. subst k0. rewrite set_add_In, Hmem.
      intros [->|H]; [right; now left | now left].
    + rewrite Hmem. intro H. now left.
  - rewrite group_get_add, in_app_iff. cbn [In].
    destruct (key_eqb k k0) eqn:E.
    + apply key_eqb_eq in E. subst k0. rewrite set_add_In, Hmem.
      intros [H|[H|[]]]; [now right | injection H as ->; now left].
    + apply key_eqb_neq in E. rewrite Hmem.
      intros [H|[H|[]]]; [exact H | injection H as -> _; congruence].
  - rewrite group_add_keys, map_app, in_app_iff. cbn [map fst In].
    destruct (existsb (key_eqb k) (map fst d)) eqn:E.
    + rewrite Hkeys. now left.
    + rewrite in_app_iff, Hkeys. cbn [In]. tauto.
  - rewrite group_add_keys, map_app, in_app_iff. cbn [map fst In].
    destruct (existsb (key_eqb k) (map fst d)) eqn:E.
    + apply existsb_key_In in E.
      intros [H|[<-|[]]]; [now apply Hkeys | exact E].
    + rewrite in_app_iff, Hkeys. cbn [In]. tauto.
Qed.

(** With the groups of the pairs [seen]: no key is inconsistent exactly
    when the first component determines the second. *)
Lemma inconsistent_functional d seen :
  grouped d seen ->
  (List.length (inconsistent d) = 0
   <-> forall k x y, In (k, x) seen -> In (k, y) seen -> x = y).
Proof.
  intros (Hnd & Hsets & Hmem & _).
  rewrite length_zero_iff_nil, (inconsistent_nil d Hnd). split.
  - intros Hall k x y Hx Hy. apply Hmem in Hx, Hy. specialize (Hall k).
    destruct (group_get d k) as [|a [|b rest]]; cbn in *; try lia; try tauto.
    destruct Hx as [<-|[]], Hy as [<-|[]]. reflexivity.
  - intros Hfun k. specialize (Hsets k).
    destruct (group_get d k) as [|a [|b rest]] eqn:E; cbn; try lia.
    assert (a = b).
    { apply (Hfun k); apply Hmem; rewrite E; cbn; auto. }
    subst b. inversion Hsets as [|? ? Hnot _]; subst. elim Hnot. now left.
Qed.

(** *** The first loop *)

Lemma pairs_In messages p :
  In p (pairs messages)
  <-> exists msg, In msg messages /\ pair_of msg = Some p.
Proof.
  unfold pairs. rewrite in_flat_map. split.
  - intros (msg & Hin & Hp). exists msg. split; [exact Hin|].
    destruct (pair_of msg) as [q|]; [|contradiction].
    destruct Hp as [<-|[]]. reflexivity.
  - intros (msg & Hin & Hp). exists msg. split; [exact Hin|].
    rewrite Hp. now left.
Qed.

Lemma pairs_length messages :
  List.length (pairs messages) <= List.length messages.
Proof.
  induction messages as [|msg rest IH]; [cbn; lia|].
  unfold pairs. cbn [flat_map]. fold (pairs rest). rewrite length_app.
  destruct (pair_of msg); cbn [List.length]; lia.
Qed.

Lemma pairs_app xs ys : pairs (xs ++ ys) = pairs xs ++ pairs ys.
Proof. unfold pairs. apply flat_map_app. Qed.

Lemma keyed_pair msg :
  keyed msg = true <-> exists p, pair_of msg = Some p.
Proof.
  unfold keyed, hashable, pair_of.
  destruct (key_of (user_id_of msg)), (key_of (user_name_of msg)); cbn;
    split; try discriminate; eauto; intros [p H]; discriminate.
Qed.

Lemma group_user_keyed d msg :
  keyed msg = true ->
  exists i n,
    pair_of msg = Some (i, n) /\
    group_user d msg
    = Llm.Returned (group_add i n (fst d), group_add n i (snd d)).
Proof.
  unfold keyed, hashable, pair_of, group_user.
  destruct (key_of (user_id_of msg)) as [i|],
           (key_of (user_name_of msg)) as [n|]; cbn; try discriminate.
  intros _. now exists i, n.
Qed.

Lemma group_user_raises d msg :
  keyed msg = false -> exists e, group_user d msg = Llm.Raised e.
Proof.
  unfold keyed, hashable, group_user.
  destruct (key_of (user_id_of msg)) as [i|],
           (key_of (user_name_of msg)) as [n|]; cbn; try discriminate; eauto.
Qed.

Lemma group_users_spec messages : forall d seen,
  grouped (fst d) seen -> grouped (snd d) (map swap seen) ->
  (forallb keyed messages = true ->
   exists d',
     group_users d messages = Llm.Returned d' /\
     grouped (fst d') (seen ++ pairs messages) /\
     grouped (snd d') (map swap (seen ++ pairs messages))) /\
  (forallb keyed messages = false ->
   exists e, group_users d messages = Llm.Raised e).
Proof.
  induction messages as [|msg rest IH]; intros d seen H1 H2.
  - split; [|discriminate]. intros _. exists d. cbn [group_users pairs flat_map].
    now rewrite app_nil_r.
  - cbn [forallb group_users]. destruct (keyed msg) eqn:K; cbn [andb].
    + destruct (group_user_keyed d msg K) as (i & n & Hp & ->).
      assert (Hone : pairs (msg :: rest) = (i, n) :: pairs rest)
        by (unfold pairs; cbn [flat_map]; now rewrite Hp).
      destruct (IH (group_add i n (fst d), group_add n i (snd d))
                   (seen ++ [(i, n)])) as [Hok Hbad].
      * cbn [fst]. now apply grouped_add.
      * cbn [snd]. rewrite map_app. cbn [map]. now apply grouped_add.
      * rewrite Hone.
        replace (seen ++ (i, n) :: pairs rest)
          with ((seen ++ [(i, n)]) ++ pairs rest)
          by now rewrite <- app_assoc.
        split; assumption.
    + split; [discriminate|]. intros _.
      destruct (group_user_raises d msg K) as [e ->]. eauto.
Qed.

Lemma grouped_nil : grouped [] [].
Proof. repeat split; cbn; try constructor; tauto. Qed.

(** *** The second loop *)

Lemma ids_set_snoc seen msg :
  ids_set (seen ++ [msg])
  = ids_set seen
    ++ (if truthy (id_of msg) then [key_of (id_of msg)] else []).
Proof.
  unfold ids_set. rewrite map_app, filter_app, map_app. cbn [map filter].
  now destruct (truthy (id_of msg)).
Qed.

Lemma existsb_key_Some k (s : list key) :
  existsb (key_eqb k) s = true <-> In (Some k) (map Some s).
Proof.
  rewrite existsb_key_In, in_map_iff. split.
  - intro H. now exists k.
  - intros (k' & E & H). now injection E as ->.
Qed.

Lemma check_message_ok st seen msg :
  checked st seen -> id_ok msg = true -> body_ok msg = true ->
  exists st',
    check_message st msg = Llm.Returned st' /\ checked st' (seen ++ [msg]).
Proof.
  intros (Hnd & Hin & Hlen & Hempty) Hid Hbody.
  unfold check_message, check_id, id_ok, hashable, body_ok in *.
  destruct (get (item_message msg) (VStr "")) as [| | | |body| |] eqn:Hb;
    try discriminate.
  assert (Hemp : forall l : list value,
            List.length
              (if negb (Str.nonempty (Str.strip body))
               then l ++ [id_of msg] else l)
            = List.length l
              + List.length (if negb (Str.nonempty (Str.strip body))
                             then [msg] else [])).
  { intro l. destruct (negb (Str.nonempty (Str.strip body)));
      [rewrite length_app|]; cbn; lia. }
  assert (Hno : no_body msg = negb (Str.nonempty (Str.strip body)))
    by (unfold no_body; now rewrite Hb).
  destruct (truthy (id_of msg)) eqn:Ht; cbn [negb orb] in *.
  - destruct (key_of (id_of msg)) as [k|] eqn:Hk; [|discriminate].
    destruct (existsb (key_eqb k) (message_ids st)) eqn:Hex;
      (eexists; split; [reflexivity|]);
      unfold checked; rewrite ids_set_snoc, Ht, Hk, filter_app;
      cbn [filter message_ids duplicate_ids empty_messages];
      rewrite Hno.
    + apply existsb_key_Some in Hex. repeat split.
      * exact Hnd.
      * intro H. apply in_app_iff. left. now apply Hin.
      * rewrite in_app_iff. intros [H|[<-|[]]]; [now apply Hin | exact Hex].
      * rewrite !length_app. cbn. lia.
      * rewrite Hemp, length_app. lia.
    + repeat split.
      * now apply set_add_NoDup.
      * rewrite in_map_iff, in_app_iff. intros (k' & <- & H).
        apply set_add_In in H as [->|H]; [right; now left|].
        left. apply Hin. now apply in_map.
      * rewrite in_app_iff. intros [H|[<-|[]]].
        -- apply Hin in H. apply in_map_iff in H as (k' & <- & H).
           apply in_map. apply set_add_In. now right.
        -- apply in_map. apply set_add_In. now left.
      * rewrite set_add_length, Hex, length_app. cbn. lia.
      * rewrite Hemp, length_app. lia.
  - eexists. split; [reflexivity|].
    unfold checked. rewrite ids_set_snoc, Ht, filter_app, app_nil_r.
    cbn [filter message_ids duplicate_ids empty_messages]. rewrite Hno.
    repeat split; try assumption; try (now apply Hin).
    rewrite Hemp, length_app. lia.
Qed.

Lemma check_message_bad_id st msg :
  id_ok msg = false ->
  check_message st msg = Llm.Raised (unhashable (id_of msg)).
Proof.
  unfold id_ok, hashable, check_message, check_id.
  destruct (truthy (id_of msg)); cbn [negb orb]; [|discriminate].
  now destruct (key_of (id_of msg)).
Qed.

Lemma check_message_bad_body st msg :
  id_ok msg = true -> body_ok msg = false ->
  check_message st msg
  = Llm.Raised (no_strip (get (item_message msg) (VStr ""))).
Proof.
  unfold id_ok, hashable, body_ok, check_message, check_id.
  intros Hid Hbody.
  destruct (truthy (id_of msg)); cbn [negb orb] in *.
  - destruct (key_of (id_of msg)) as [k|]; [|discriminate].
    destruct (existsb (key_eqb k) (message_ids st));
      now destruct (get (item_message msg) (VStr "")).
  - now destruct (get (item_message msg) (VStr "")).
Qed.

Lemma check_messages_spec messages : forall st seen,
  checked st seen ->
  (forallb (fun msg => id_ok msg && body_ok msg) messages = true ->
   exists st',
     check_messages st messages = Llm.Returned st' /\
     checked st' (seen ++ messages)) /\
  (forallb (fun msg => id_ok msg && body_ok msg) messages = false ->
   exists e, check_messages st messages = Llm.Raised e).
Proof.
  induction messages as [|msg rest IH]; intros st seen Hc.
  - split; [|discriminate]. intros _. exists st. cbn.
    now rewrite app_nil_r.
  - cbn [forallb check_messages].
    destruct (id_ok msg) eqn:Hid; cbn [andb].
    + destruct (body_ok msg) eqn:Hbody; cbn [andb].
      * destruct (check_message_ok st seen msg Hc Hid Hbody)
          as (st1 & -> & Hc1).
        destruct (IH st1 _ Hc1) as [Hok Hbad]. split; [|exact Hbad].
        intro H. destruct (Hok H) as (st' & E & Hc').
        exists st'. split; [exact E|]. now rewrite <- app_assoc in Hc'.
      * split; [discriminate|]. intros _.
        rewrite (check_message_bad_body st msg Hid Hbody). eauto.
    + split; [discriminate|]. intros _.
      rewrite (check_message_bad_id st msg Hid). eauto.
Qed.

(** The second loop stops at the first message whose body is not a
    string. *)
Lemma check_messages_first_bad_body before msg after : forall st seen,
  checked st seen ->
  forallb (fun m => id_ok m && body_ok m) before = true ->
  id_ok msg = true -> body_ok msg = false ->
  check_messages st (before ++ msg :: after)
  = Llm.Raised (no_strip (get (item_message msg) (VStr ""))).
Proof.
  induction before as [|m before IH]; intros st seen Hc Hb Hid Hbody.
  - cbn [app check_messages].
    now rewrite (check_message_bad_body st msg Hid Hbody).
  - cbn [forallb] in Hb. apply andb_true_iff in Hb as [Hm Hb].
    apply andb_true_iff in Hm as [Hmid Hmbody].
    cbn [app check_messages].
    destruct (check_message_ok st seen m Hc Hmid Hmbody) as (st1 & -> & Hc1).
    exact (IH st1 _ Hc1 Hb Hid Hbody).
Qed.

Lemma NoDup_map_Some (s : list key) : NoDup s -> NoDup (map Some s).
Proof.
  induction 1 as [|k s Hnot Hnd IH]; cbn [map]; constructor; [|exact IH].
  rewrite in_map_iff. intros (k' & E & Hk). injection E as ->. contradiction.
Qed.

Lemma checked_initial : checked (mkChecks [] [] [] []) [].
Proof. repeat split; cbn; try constructor; tauto. Qed.

(** *** The third loop *)

Lemma check_timestamps_spec messages : forall invalid,
  (forallb timestamp_ok messages = true ->
   exists invalid',
     check_timestamps invalid messages = Llm.Returned invalid' /\
     List.length invalid'
     = List.length invalid
       + List.length (filter (fun msg => negb (truthy (timestamp_of msg)))
                             messages)) /\
  (forallb timestamp_ok messages = false ->
   exists e, check_timestamps invalid messages = Llm.Raised e).
Proof.
  induction messages as [|msg rest IH]; intro invalid.
  - split; [|discriminate]. intros _. exists invalid. cbn. split; [reflexivity|lia].
  - cbn [forallb check_timestamps filter].
    unfold timestamp_ok at 1 3, check_timestamp.
    destruct (truthy (timestamp_of msg)) eqn:Ht; cbn [negb orb].
    + destruct (timestamp_of msg) as [|b|n|f|s|l|d] eqn:E; cbn [andb];
        try (split; [discriminate | intros _; eauto]);
        apply IH.
    + cbn [andb].
      destruct (IH (invalid ++ [get (item_id msg) (VStr "unknown")]))
        as [Hok Hbad].
      split; [|exact Hbad]. intro H.
      destruct (Hok H) as (invalid' & E & Hlen).
      exists invalid'. split; [exact E|].
      rewrite Hlen, length_app. cbn [List.length]. lia.
Qed.

(** *** The report *)

(** What a report says, given that it is returned. *)
Lemma analyze_data_returned messages r :
  analyze_data messages = Llm.Returned r ->
  forallb keyed messages = true /\
  exists users_by_id users_by_name st,
    grouped users_by_id (pairs messages) /\
    grouped users_by_name (map swap (pairs messages)) /\
    checked st messages /\
    r = mkReport (List.length messages)
                 (List.length users_by_name)
                 (List.length (inconsistent users_by_id))
                 (List.length (inconsistent users_by_name))
                 (List.length (duplicate_ids st))
                 (List.length (empty_messages st))
                 (List.length
                    (filter (fun msg => negb (truthy (timestamp_of msg)))
                            messages)).
Proof.
  unfold analyze_data.
  destruct (group_users_spec messages ([], []) [] grouped_nil grouped_nil)
    as [Hg Hgbad].
  destruct (forallb keyed messages) eqn:K.
  2:{ destruct (Hgbad eq_refl) as [e ->]. discriminate. }
  destruct (Hg eq_refl) as ([d1 d2] & -> & G1 & G2).
  cbn [fst snd app] in G1, G2.
  destruct (check_messages_spec messages _ [] checked_initial)
    as [Hc Hcbad].
  destruct (forallb (fun msg => id_ok msg && body_ok msg) messages).
  2:{ destruct (Hcbad eq_refl) as [e ->]. discriminate. }
  destruct (Hc eq_refl) as (st & -> & Hst). cbn [app] in Hst.
  destruct (check_timestamps_spec messages []) as [Ht Htbad].
  destruct (forallb timestamp_ok messages).
  2:{ destruct (Htbad eq_refl) as [e ->]. discriminate. }
  destruct (Ht eq_refl) as (invalid & -> & Hlen).
  intro H. injection H as <-. split; [reflexivity|].
  exists d1, d2, st. split; [exact G1|]. split; [exact G2|].
  split; [exact Hst|]. rewrite Hlen. reflexivity.
Qed.

Lemma forallb_clean messages :
  forallb clean messages
  = forallb keyed messages
    && forallb (fun msg => id_ok msg && body_ok msg) messages
    && forallb timestamp_ok messages.
Proof.
  induction messages as [|msg rest IH]; [reflexivity|].
  cbn [forallb]. rewrite IH. unfold clean.
  destruct (keyed msg), (id_ok msg && body_ok msg), (timestamp_ok msg),
    (forallb keyed rest),
    (forallb (fun msg => id_ok msg && body_ok msg) rest),
    (forallb timestamp_ok rest); reflexivity.
Qed.

(** X22: [analyze_data] returns a report exactly when every message is
    clean: its user id and user name are hashable, its id is false or
    hashable, its body is a string or missing, and its timestamp is false
    or a string, a list or a dict.  Otherwise it raises.  When the user ids
    and names are hashable, the first message whose body is not a string,
    the messages before it being in order and its own id too, makes it
    raise the [AttributeError] of [.strip()] on the type of that body: on
    [NoneType] for an explicit [null].  A message without the key is read
    as an empty body and is clean. *)
Theorem analyze_data_returns_iff_clean messages :
  ((exists r, analyze_data messages = Llm.Returned r)
   <-> forallb clean messages = true) /\
  ((exists e, analyze_data messages = Llm.Raised e)
   <-> forallb clean messages = false) /\
  (forall before msg after,
     messages = before ++ msg :: after ->
     forallb keyed messages = true ->
     forallb (fun m => id_ok m && body_ok m) before = true ->
     id_ok msg = true -> body_ok msg = false ->
     analyze_data messages
     = Llm.Raised (no_strip (get (item_message msg) (VStr "")))) /\
  (forall msg, item_message msg = None -> body_ok msg = true) /\
  no_strip VNone = "'NoneType' object has no attribute 'strip'".
Proof.
  assert (Hcases :
    (forallb clean messages = true /\
     exists r, analyze_data messages = Llm.Returned r) \/
    (forallb clean messages = false /\
     exists e, analyze_data messages = Llm.Raised e)).
  { rewrite forallb_clean. unfold analyze_data.
    destruct (group_users_spec messages ([], []) [] grouped_nil grouped_nil)
      as [Hg Hgbad].
    destruct (forallb keyed messages).
    2:{ right. split; [reflexivity|].
        destruct (Hgbad eq_refl) as [e ->]. eauto. }
    destruct (Hg eq_refl) as ([d1 d2] & -> & _).
    destruct (check_messages_spec messages _ [] checked_initial)
      as [Hc Hcbad].
    destruct (forallb (fun msg => id_ok msg && body_ok msg) messages).
    2:{ right. split; [reflexivity|].
        destruct (Hcbad eq_refl) as [e ->]. eauto. }
    destruct (Hc eq_refl) as (st & -> & _).
    destruct (check_timestamps_spec messages []) as [Ht Htbad].
    destruct (forallb timestamp_ok messages).
    2:{ right. split; [reflexivity|].
        destruct (Htbad eq_refl) as [e ->]. eauto. }
    destruct (Ht eq_refl) as (invalid & -> & _).
    left. split; [reflexivity|]. eauto. }
  split; [|split; [|split; [|split]]].
  - destruct Hcases as [[Hc Hr]|[Hc [e He]]]; split; try tauto.
    + intros [r Hr]. congruence.
    + congruence.
  - destruct Hcases as [[Hc [r Hr]]|[Hc He]]; split; try tauto.
    + intros [e He]. congruence.
    + congruence.
  - intros before msg after -> Hk Hb Hid Hbody. unfold analyze_data.
    destruct (group_users_spec (before ++ msg :: after) ([], []) []
                grouped_nil grouped_nil) as [Hg _].
    destruct (Hg Hk) as ([d1 d2] & -> & _).
    now rewrite (check_messages_first_bad_body before msg after _ []
                   checked_initial Hb Hid Hbody).
  - intros msg H. unfold body_ok. now rewrite H.
  - reflexivity.
Qed.

Lemma analyze_data_returns_iff_clean_witness :
  forallb clean (messy ++ numeric) = true /\
  (exists r, analyze_data (messy ++ numeric) = Llm.Returned r) /\
  forallb keyed (messy ++ null_body :: numeric) = true /\
  forallb (fun m => id_ok m && body_ok m) messy = true /\
  id_ok null_body = true /\ body_ok null_body = false /\
  analyze_data (messy ++ null_body :: numeric)
  = Llm.Raised "'NoneType' object has no attribute 'strip'" /\
  analyze_data (messy ++ number_body :: numeric)
  = Llm.Raised "'int' object has no attribute 'strip'".
Proof.
  assert (Hc : forallb clean (messy ++ numeric) = true)
    by (vm_compute; reflexivity).
  assert (Hk : forallb keyed (messy ++ null_body :: numeric) = true)
    by (vm_compute; reflexivity).
  assert (Hk' : forallb keyed (messy ++ number_body :: numeric) = true)
    by (vm_compute; reflexivity).
  assert (Hb : forallb (fun m => id_ok m && body_ok m) messy = true)
    by (vm_compute; reflexivity).
  split; [exact Hc|]. split.
  - exact (proj2 (proj1 (analyze_data_returns_iff_clean (messy ++ numeric)))
             Hc).
  - split; [exact Hk|]. split; [exact Hb|].
    split; [reflexivity|]. split; [reflexivity|]. split.
    + exact (proj1 (proj2 (proj2 (analyze_data_returns_iff_clean
                                    (messy ++ null_body :: numeric))))
               messy null_body numeric eq_refl Hk Hb eq_refl eq_refl).
    + exact (proj1 (proj2 (proj2 (analyze_data_returns_iff_clean
                                    (messy ++ number_body :: numeric))))
               messy number_body numeric eq_refl Hk' Hb eq_refl eq_refl).
Defined.

(** X23: in a returned report [duplicate_ids] is the number of messages
    that repeat an id seen before: the number of ids that are set minus the
    number of distinct ones, ids being told apart as a [set] tells them
    apart.  It is zero exactly when the ids that are set are pairwise
    distinct; messages without an id are never counted. *)
Theorem duplicates_counted messages r :
  analyze_data messages = Llm.Returned r ->
  (exists distinct,
     NoDup distinct /\
     (forall v, In v distinct <-> In v (ids_set messages)) /\
     List.length distinct + duplicates r = List.length (ids_set messages))
  /\
  (duplicates r = 0 <-> NoDup (ids_set messages)).
Proof.
  intro H. destruct (analyze_data_returned _ _ H)
    as (_ & d1 & d2 & st & _ & _ & (Hnd & Hin & Hlen & _) & ->).
  cbn [duplicates].
  assert (Hnd' : NoDup (map Some (message_ids st)))
    by now apply NoDup_map_Some.
  split.
  - exists (map Some (message_ids st)).
    split; [exact Hnd'|]. split; [exact Hin|]. rewrite length_map. exact Hlen.
  - split.
    + intro H0.
      apply (NoDup_incl_NoDup (l := map Some (message_ids st)));
        [exact Hnd' | rewrite length_map; lia |].
      intros v Hv. now apply Hin.
    + intro Hids.
      assert (List.length (ids_set messages)
              <= List.length (map Some (message_ids st))).
      { apply NoDup_incl_length; [exact Hids|]. intros v Hv. now apply Hin. }
      rewrite length_map in *. lia.
Qed.

Lemma duplicates_counted_witness :
  analyze_data messy = Llm.Returned (mkReport 4 3 1 0 1 2 2) /\
  ~ NoDup (ids_set messy) /\
  analyze_data numeric = Llm.Returned (mkReport 2 2 1 0 1 0 0).
Proof.
  assert (E : analyze_data messy = Llm.Returned (mkReport 4 3 1 0 1 2 2))
    by (vm_compute; reflexivity).
  split; [exact E|]. split; [|vm_compute; reflexivity].
  intro Hnd. apply (proj2 (duplicates_counted messy _ E)) in Hnd.
  discriminate.
Defined.

(** X24: in a returned report [inconsistent_users] is zero exactly when
    no two messages have the same user id and different user names, and
    [inconsistent_names] is zero exactly when no two messages have the same
    user name and different user ids; ids and names are the same when a
    [dict] and a [set] take them for the same (a missing key reads as the
    empty string). *)
Theorem inconsistencies_detected messages r :
  analyze_data messages = Llm.Returned r ->
  (inconsistent_users r = 0
   <-> forall m1 m2,
         In m1 messages -> In m2 messages ->
         key_of (user_id_of m1) = key_of (user_id_of m2) ->
         key_of (user_name_of m1) = key_of (user_name_of m2)) /\
  (inconsistent_names r = 0
   <-> forall m1 m2,
         In m1 messages -> In m2 messages ->
         key_of (user_name_of m1) = key_of (user_name_of m2) ->
         key_of (user_id_of m1) = key_of (user_id_of m2)).
Proof.
  intro H. destruct (analyze_data_returned _ _ H)
    as (Hk & d1 & d2 & st & G1 & G2 & _ & ->).
  cbn [inconsistent_users inconsistent_names].
  assert (Hpair : forall msg, In msg messages ->
            exists i n, pair_of msg = Some (i, n) /\
                        key_of (user_id_of msg) = Some i /\
                        key_of (user_name_of msg) = Some n).
  { intros msg Hin. rewrite forallb_forall in Hk. specialize (Hk msg Hin).
    unfold keyed, hashable in Hk. unfold pair_of.
    destruct (key_of (user_id_of msg)) as [i|]; [|discriminate].
    destruct (key_of (user_name_of msg)) as [n|]; [|discriminate].
    now exists i, n. }
  assert (Hof : forall msg i n, pair_of msg = Some (i, n) ->
            key_of (user_id_of msg) = Some i /\
            key_of (user_name_of msg) = Some n).
  { intros msg i n. unfold pair_of.
    destruct (key_of (user_id_of msg)), (key_of (user_name_of msg));
      try discriminate.
    intro E. injection E as -> ->. now split. }
  split.
  - rewrite (inconsistent_functional _ _ G1). split.
    + intros Hfun m1 m2 H1 H2 E.
      destruct (Hpair m1 H1) as (i1 & n1 & P1 & I1 & N1).
      destruct (Hpair m2 H2) as (i2 & n2 & P2 & I2 & N2).
      rewrite N1, N2. f_equal.
      assert (i1 = i2) as -> by congruence.
      apply (Hfun i2); apply pairs_In; eauto.
    + intros Hm k x y Hx Hy.
      apply pairs_In in Hx as (m1 & H1 & P1).
      apply pairs_In in Hy as (m2 & H2 & P2).
      destruct (Hof _ _ _ P1) as [I1 N1]. destruct (Hof _ _ _ P2) as [I2 N2].
      assert (E : key_of (user_name_of m1) = key_of (user_name_of m2))
        by (apply Hm; congruence).
      congruence.
  - rewrite (inconsistent_functional _ _ G2). split.
    + intros Hfun m1 m2 H1 H2 E.
      destruct (Hpair m1 H1) as (i1 & n1 & P1 & I1 & N1).
      destruct (Hpair m2 H2) as (i2 & n2 & P2 & I2 & N2).
      rewrite I1, I2. f_equal.
      assert (n1 = n2) as -> by congruence.
      apply (Hfun n2); apply in_map_iff.
      * exists (i1, n2). split; [reflexivity|]. apply pairs_In. eauto.
      * exists (i2, n2). split; [reflexivity|]. apply pairs_In. eauto.
    + intros Hm k x y Hx Hy.
      apply in_map_iff in Hx as ([i1 n1] & E1 & Hx).
      apply in_map_iff in Hy as ([i2 n2] & E2 & Hy).
      unfold swap in E1, E2. cbn [fst snd] in E1, E2.
      injection E1 as -> ->. injection E2 as -> ->.
      apply pairs_In in Hx as (m1 & H1 & P1).
      apply pairs_In in Hy as (m2 & H2 & P2).
      destruct (Hof _ _ _ P1) as [I1 N1]. destruct (Hof _ _ _ P2) as [I2 N2].
      assert (E : key_of (user_id_of m1) = key_of (user_id_of m2))
        by (apply Hm; congruence).
      congruence.
Qed.

Lemma inconsistencies_detected_witness :
  analyze_data messy = Llm.Returned (mkReport 4 3 1 0 1 2 2) /\
  forall m1 m2,
    In m1 messy -> In m2 messy ->
    key_of (user_name_of m1) = key_of (user_name_of m2) ->
    key_of (user_id_of m1) = key_of (user_id_of m2).
Proof.
  assert (E : analyze_data messy = Llm.Returned (mkReport 4 3 1 0 1 2 2))
    by (vm_compute; reflexivity).
  split; [exact E|].
  apply (proj2 (inconsistencies_detected messy _ E)). reflexivity.
Defined.

(** X25: in a returned report [total_messages] is the number of messages,
    [unique_users] the number of distinct user names among them,
    [empty_messages] the number of messages whose body is missing, empty or
    blank, and [invalid_timestamps] the number of messages whose timestamp
    is missing, [null] or otherwise false; none of the counts exceeds
    [total_messages]. *)
Theorem report_counts messages r :
  analyze_data messages = Llm.Returned r ->
  total_messages r = List.length messages /\
  (exists names,
     NoDup names /\
     (forall v, In v names <->
                exists msg, In msg messages /\
                            key_of (user_name_of msg) = Some v) /\
     unique_users r = List.length names) /\
  empties r = List.length (filter no_body messages) /\
  invalid_timestamps r
  = List.length (filter (fun msg => negb (truthy (timestamp_of msg)))
                        messages) /\
  unique_users r <= total_messages r /\
  duplicates r <= total_messages r /\
  empties r <= total_messages r /\
  invalid_timestamps r <= total_messages r.
Proof.
  intro H. destruct (analyze_data_returned _ _ H)
    as (Hk & d1 & d2 & st & _ & (Hkeys_nd & _ & _ & Hkeys)
        & (Hnd & Hin & Hlen & Hempty) & ->).
  cbn [total_messages unique_users empties invalid_timestamps duplicates].
  assert (Hnames : forall v,
            In v (map fst d2) <->
            exists msg, In msg messages /\
                        key_of (user_name_of msg) = Some v).
  { intro v. rewrite Hkeys, in_map_iff. split.
    - intros ([n i] & <- & Hp). apply in_map_iff in Hp as ([i' n'] & E & Hp).
      unfold swap in E. cbn [fst snd] in E. injection E as -> ->.
      apply pairs_In in Hp as (msg & Hm & Hp). exists msg.
      split; [exact Hm|]. unfold pair_of in Hp.
      destruct (key_of (user_id_of msg)), (key_of (user_name_of msg));
        try discriminate.
      injection Hp as -> ->. reflexivity.
    - intros (msg & Hm & Hn).
      rewrite forallb_forall in Hk. pose proof (Hk msg Hm) as K.
      unfold keyed, hashable in K.
      destruct (key_of (user_id_of msg)) as [i|] eqn:Hi; [|discriminate].
      exists (v, i). split; [reflexivity|]. apply in_map_iff.
      exists (i, v). split; [reflexivity|]. apply pairs_In. exists msg.
      split; [exact Hm|]. unfold pair_of. now rewrite Hi, Hn. }
  assert (Hids : List.length (ids_set messages) <= List.length messages).
  { unfold ids_set. rewrite length_map, <- (length_map id_of messages).
    apply filter_length_le. }
  split; [reflexivity|]. split.
  - exists (map fst d2).
    split; [exact Hkeys_nd|]. split; [exact Hnames|]. now rewrite length_map.
  - split; [exact Hempty|]. split; [reflexivity|]. split; [|split; [|split]].
    + rewrite <- (length_map fst d2).
      transitivity (List.length (map fst (map swap (pairs messages)))).
      * apply NoDup_incl_length; [exact Hkeys_nd|].
        intros v Hv. now apply Hkeys.
      * rewrite !length_map. apply pairs_length.
    + lia.
    + rewrite Hempty. apply filter_length_le.
    + apply filter_length_le.
Qed.

Lemma report_counts_witness :
  analyze_data messy = Llm.Returned (mkReport 4 3 1 0 1 2 2) /\
  List.length (filter no_body messy) = 2.
Proof.
  assert (E : analyze_data messy = Llm.Returned (mkReport 4 3 1 0 1 2 2))
    by (vm_compute; reflexivity).
  split; [exact E|].
  destruct (report_counts messy _ E) as (_ & _ & He & _).
  rewrite <- He. reflexivity.
Defined.

End Analysis.

(** * The model probe of [test_models.py] *)

Module ModelProbe.

Local Open Scope list_scope.

Definition models_to_try : list string :=
  [ "claude-3-5-sonnet-20241022";
    "claude-3-5-sonnet-20240620";
    "claude-3-5-sonnet";
    "claude-3-sonnet-20240229";
    "claude-3-opus-20240229";
    "claude-3-haiku-20240307" ].

(** The line printed for a model. *)
Inductive line :=
| Works (model : string)
| NotFound (model : string)
| Authentication (model : string)
| OtherError (model shown : string).

Definition model_of (l : line) : string :=
  match l with
  | Works model | NotFound model | Authentication model
  | OtherError model _ => model
  end.

(** The two tests on [str(e)], in the order of the [if] and the [elif]. *)
Definition not_found (error_msg : string) : bool :=
  Str.contains "404" error_msg || Str.contains "not_found" error_msg.

Definition authentication (error_msg : string) : bool :=
  Str.contains "401" error_msg
  || Str.contains "authentication" (Str.lower error_msg).

(** [client.messages.create] for the [n]-th call of the script, asked for
    [model]: a message, or an exception. *)
Definition service := nat -> string -> Llm.outcome unit.

(** The [for] loop from its [n]-th call on: [working_model] at its end and
    the lines printed, one for each call made. *)
Fixpoint probe (create : service) (n : nat) (models : list string)
  : option string * list line :=
  match models with
  | [] => (None, [])
  | model :: rest =>
      match create n model with
      | Llm.Returned _ => (Some model, [Works model])
      | Llm.Raised error_msg =>
          if not_found error_msg then
            let (working_model, printed) := probe create (S n) rest in
            (working_model, NotFound model :: printed)
          else if authentication error_msg then
            (None, [Authentication model])
          else
            let (working_model, printed) := probe create (S n) rest in
            (working_model,
             OtherError model (substring 0 80 error_msg) :: printed)
      end
  end.

(** The end of the script. *)
Inductive finish :=
| Exit (code : nat)
| Recommended (working_model : string)
| NoWorkingModel.

(** The script: [ANTHROPIC_API_KEY] from the environment, then the loop;
    with the finish, the models asked for. *)
Definition script (api_key : option string) (create : service)
  : finish * list string :=
  if negb (Llm.truthy api_key) then (Exit 1, [])
  else
    let (working_model, printed) := probe create 0 models_to_try in
    (match working_model with
     | Some model => if Str.nonempty model then Recommended model
                     else NoWorkingModel
     | None => NoWorkingModel
     end,
     map model_of printed).

(** The loop goes on after this error: it is not an authentication error,
    or it reads as a missing model. *)
Definition goes_on (error_msg : string) : bool :=
  not_found error_msg || negb (authentication error_msg).

(** From call [n] on, the models of [before] fail with errors after which
    the loop goes on. *)
Definition fail_on (create : service) (n : nat) (before : list string)
  : Prop :=
  forall i model, nth_error before i = Some model ->
    exists error_msg,
      create (n + i) model = Llm.Raised error_msg /\
      goes_on error_msg = true.

(** A service under which the two newest models are unknown, the third
    call reports a missing model with a request id that contains 401, and
    the other models work. *)
Definition two_retired : service :=
  fun _ model =>
    if (model =? "claude-3-5-sonnet-20241022")%string
    then Llm.Raised "Error code: 404 - not_found_error: model"
    else if (model =? "claude-3-5-sonnet-20240620")%string
    then Llm.Raised "Overloaded"
    else if (model =? "claude-3-5-sonnet")%string
    then Llm.Raised "Error code: 404 - request req_401a"
    else Llm.Returned tt.

(** A service whose key is rejected for the second model. *)
Definition rejected_second : service :=
  fun _ model =>
    if (model =? "claude-3-5-sonnet-20241022")%string
    then Llm.Raised "Error code: 404 - not_found_error: model"
    else if (model =? "claude-3-5-sonnet-20240620")%string
    then Llm.Raised "Error code: 401 - Authentication_error: invalid x-api-key"
    else Llm.Returned tt.

Lemma fail_on_tail create n model before :
  fail_on create n (model :: before) -> fail_on create (S n) before.
Proof.
  intros H i m Hi. destruct (H (S i) m Hi) as (e & He & Hg).
  exists e. split; [|exact Hg]. now replace (S n + i) with (n + S i) by lia.
Qed.

Lemma probe_goes_on create before : forall n rest,
  fail_on create n before ->
  fst (probe create n (before ++ rest))
  = fst (probe create (n + List.length before) rest) /\
  map model_of (snd (probe create n (before ++ rest)))
  = before
    ++ map model_of (snd (probe create (n + List.length before) rest)).
Proof.
  induction before as [|model before IH]; intros n rest Hf.
  - cbn [app List.length]. now rewrite Nat.add_0_r.
  - destruct (Hf 0 model eq_refl) as (e & He & Hg).
    rewrite Nat.add_0_r in He.
    destruct (IH (S n) rest (fail_on_tail _ _ _ _ Hf)) as [IH1 IH2].
    cbn [app List.length probe]. rewrite He.
    replace (n + S (List.length before)) with (S n + List.length before)
      by lia.
    unfold goes_on in Hg.
    destruct (not_found e).
    + destruct (probe create (S n) (before ++ rest)) as [w printed].
      cbn [fst snd map model_of] in *. now rewrite IH1, IH2.
    + cbn [orb] in Hg. destruct (authentication e); [discriminate|].
      destruct (probe create (S n) (before ++ rest)) as [w printed].
      cbn [fst snd map model_of] in *. now rewrite IH1, IH2.
Qed.

(** X26: the probe recommends the first model of the list whose call
    succeeds, provided that every model before it failed with an error
    after which the loop goes on (any error that contains [404] or
    [not_found], even if it also contains [401], and any error that
    mentions neither [401] nor [authentication]); the models before it and
    the model itself are called once each, in order, and no later model is
    called. *)
Theorem probe_first_working_model create before model rest :
  fail_on create 0 before ->
  create (List.length before) model = Llm.Returned tt ->
  fst (probe create 0 (before ++ model :: rest)) = Some model /\
  map model_of (snd (probe create 0 (before ++ model :: rest)))
  = before ++ [model].
Proof.
  intros Hf Hok.
  destruct (probe_goes_on create before 0 (model :: rest) Hf) as [H1 H2].
  rewrite H1, H2. cbn [Nat.add probe]. rewrite Hok. now split.
Qed.

Lemma probe_first_working_model_witness :
  fail_on two_retired 0 (firstn 3 models_to_try) /\
  script (Some "sk-ant-key") two_retired
  = (Recommended "claude-3-sonnet-20240229", firstn 4 models_to_try).
Proof.
  assert (Hf : fail_on two_retired 0 (firstn 3 models_to_try)).
  { intros i m Hi.
    destruct i as [|[|[|i]]]; cbn in Hi; try (now destruct i);
      injection Hi as <-; eexists; (split; [reflexivity|]);
      vm_compute; reflexivity. }
  split; [exact Hf|].
  destruct (probe_first_working_model two_retired (firstn 3 models_to_try)
              "claude-3-sonnet-20240229" (skipn 4 models_to_try) Hf eq_refl)
    as [H1 H2].
  change (firstn 3 models_to_try
          ++ "claude-3-sonnet-20240229" :: skipn 4 models_to_try)
    with models_to_try in H1, H2.
  unfold script. cbn [Llm.truthy negb].
  destruct (probe two_retired 0 models_to_try) as [w printed].
  cbn [fst snd] in H1, H2. now rewrite H1, H2.
Defined.

(** X27: an authentication error ends the probe: when a model fails with an
    error that contains [401] or, in any letter case, [authentication], and
    neither [404] nor [not_found], no later model is called and no model is
    recommended, whatever the later models would have answered. *)
Theorem probe_stops_at_authentication_error
        create before model rest error_msg :
  fail_on create 0 before ->
  create (List.length before) model = Llm.Raised error_msg ->
  not_found error_msg = false ->
  authentication error_msg = true ->
  fst (probe create 0 (before ++ model :: rest)) = None /\
  map model_of (snd (probe create 0 (before ++ model :: rest)))
  = before ++ [model].
Proof.
  intros Hf He Hn Ha.
  destruct (probe_goes_on create before 0 (model :: rest) Hf) as [H1 H2].
  rewrite H1, H2. cbn [Nat.add probe]. rewrite He, Hn, Ha. now split.
Qed.

Lemma probe_stops_at_authentication_error_witness :
  fail_on rejected_second 0 (firstn 1 models_to_try) /\
  rejected_second 2 "claude-3-5-sonnet" = Llm.Returned tt /\
  script (Some "sk-ant-key") rejected_second
  = (NoWorkingModel, firstn 2 models_to_try).
Proof.
  assert (Hf : fail_on rejected_second 0 (firstn 1 models_to_try)).
  { intros i m Hi.
    destruct i as [|i]; cbn in Hi; try (now destruct i).
    injection Hi as <-. eexists. split; [reflexivity|].
    vm_compute. reflexivity. }
  split; [exact Hf|]. split; [reflexivity|].
  assert (Hn : not_found
                 "Error code: 401 - Authentication_error: invalid x-api-key"
               = false) by (vm_compute; reflexivity).
  assert (Ha : authentication
                 "Error code: 401 - Authentication_error: invalid x-api-key"
               = true) by (vm_compute; reflexivity).
  destruct (probe_stops_at_authentication_error rejected_second
              (firstn 1 models_to_try) "claude-3-5-sonnet-20240620"
              (skipn 2 models_to_try) _ Hf eq_refl Hn Ha)
    as [H1 H2].
  change (firstn 1 models_to_try
          ++ "claude-3-5-sonnet-20240620" :: skipn 2 models_to_try)
    with models_to_try in H1, H2.
  unfold script. cbn [Llm.truthy negb].
  destruct (probe rejected_second 0 models_to_try) as [w printed].
  cbn [fst snd] in H1, H2. now rewrite H1, H2.
Defined.

End ModelProbe.
